(** * Markdown-with-LaTeX to HTML conversion (convert.py)

    A shallow embedding of [convert_markdown_to_html] and
    [process_regular_markdown] of [src/convert.py], and the properties of the
    extraction / guard / rendering / restitution pipeline proved about it.

    Text is a list of characters.  A character is an [ascii], read as a code
    point below 256; Python's whitespace and digit classes are given on that
    range.  Every regular expression of the source is embedded as a matcher:
    a function that, at one position of the subject, says whether the pattern
    matches there, with which groups and over how many characters.  [re_sub],
    [re_search] and [re_split1] scan the subject from left to right with such
    a matcher the way Python's [re] module does.

    The two [nonlocal] variables of the extraction callbacks are a state
    threaded through the four passes.  The conversion returns an [option]:
    [None] stands for the one exception the code could raise, an
    [IndexError] at the parts of the References split.  The line loop of the
    renderer appends tagged items, whose texts are the strings the source
    appends. *)

From Stdlib Require Import Ascii String List Arith Bool Lia.
From Stdlib Require Import DecimalString DecimalNat.
Import ListNotations.

Set Implicit Arguments.

Local Open Scope char_scope.
Local Open Scope list_scope.
Local Open Scope nat_scope.

(* ================================================================== *)
(** ** Characters and text *)

#[warnings="-notation-for-abbreviation"] Notation str := (list ascii) (only parsing).

(** A literal of the source. *)
Definition lit (s : string) : str := list_ascii_of_string s.

Definition nl : ascii := "010".
Definition dq : ascii := "034".
Definition backslash : ascii := "092".

(** [str.isspace] and the class [\s] on code points below 256. *)
Definition is_space (c : ascii) : bool :=
  let n := nat_of_ascii c in
  ((9 <=? n) && (n <=? 13)) || ((28 <=? n) && (n <=? 32))
  || (n =? 133) || (n =? 160).

(** The class [\d], and [0-9] inside a bracket class. *)
Definition is_digit (c : ascii) : bool :=
  let n := nat_of_ascii c in (48 <=? n) && (n <=? 57).

(** Case folding of the letters A-Z, for [re.IGNORECASE]. *)
Definition lower (c : ascii) : ascii :=
  let n := nat_of_ascii c in
  if (65 <=? n) && (n <=? 90) then ascii_of_nat (n + 32) else c.

Definition neqb (a b : ascii) : bool := negb (Ascii.eqb a b).

Fixpoint take_while (p : ascii -> bool) (s : str) : str :=
  match s with
  | c :: s' => if p c then c :: take_while p s' else []
  | [] => []
  end.

Fixpoint drop_while (p : ascii -> bool) (s : str) : str :=
  match s with
  | c :: s' => if p c then drop_while p s' else s
  | [] => []
  end.

(** [s.startswith(p)], returning what follows the prefix. *)
Fixpoint strip_prefix (p s : str) : option str :=
  match p, s with
  | [], _ => Some s
  | a :: p', b :: s' => if Ascii.eqb a b then strip_prefix p' s' else None
  | _ :: _, [] => None
  end.

Definition startswith (p s : str) : bool :=
  match strip_prefix p s with Some _ => true | None => false end.

Definition endswith (p s : str) : bool := startswith (rev p) (rev s).

(** The same, ignoring the case of letters. *)
Fixpoint strip_prefix_ci (p s : str) : option str :=
  match p, s with
  | [], _ => Some s
  | a :: p', b :: s' =>
      if Ascii.eqb (lower a) (lower b) then strip_prefix_ci p' s' else None
  | _ :: _, [] => None
  end.

(** First occurrence of [pat] in [s]: the text before it and the text after
    it.  This is what a lazy [(.*?)] followed by a literal finds. *)
Fixpoint find_sub (pat s : str) {struct s} : option (str * str) :=
  match strip_prefix pat s with
  | Some r => Some ([], r)
  | None =>
      match s with
      | [] => None
      | c :: s' =>
          match find_sub pat s' with
          | Some (b, a) => Some (c :: b, a)
          | None => None
          end
      end
  end.

(** [pat in s]. *)
Definition occurs (pat s : str) : bool :=
  match find_sub pat s with Some _ => true | None => false end.

(** [s.replace(old, new)].  [skip] counts the characters of a replaced
    occurrence that are still to be passed over. *)
Fixpoint replace_from (old new : str) (skip : nat) (s : str) : str :=
  match s with
  | [] => []
  | c :: s' =>
      match skip with
      | S k => replace_from old new k s'
      | O =>
          if startswith old s
          then new ++ replace_from old new (length old - 1) s'
          else c :: replace_from old new 0 s'
      end
  end.

Definition str_replace (old new s : str) : str :=
  match old with
  | [] => new ++ flat_map (fun c => c :: new) s
  | _ :: _ => replace_from old new 0 s
  end.

(** [s.split('\n')]. *)
Fixpoint split_lines (s : str) : list str :=
  match s with
  | [] => [[]]
  | c :: s' =>
      if Ascii.eqb c nl then [] :: split_lines s'
      else match split_lines s' with
           | l :: ls => (c :: l) :: ls
           | [] => [[c]]
           end
  end.

(** [s.split('\n\n')]. *)
Fixpoint split_blank (s : str) : list str :=
  match s with
  | [] => [[]]
  | c :: s' =>
      let keep :=
        match split_blank s' with
        | l :: ls => (c :: l) :: ls
        | [] => [[c]]
        end in
      match s' with
      | d :: s'' =>
          if Ascii.eqb c nl && Ascii.eqb d nl then [] :: split_blank s''
          else keep
      | [] => keep
      end
  end.

(** [sep.join(parts)]. *)
Fixpoint join (sep : str) (parts : list str) : str :=
  match parts with
  | [] => []
  | [p] => p
  | p :: ps => p ++ sep ++ join sep ps
  end.

Definition lstrip (s : str) : str := drop_while is_space s.
Definition rstrip (s : str) : str := rev (drop_while is_space (rev s)).
Definition strip (s : str) : str := rstrip (lstrip s).

(** [s.lstrip('>')]. *)
Definition lstrip_gt (s : str) : str := drop_while (Ascii.eqb ">") s.

(** Truth value of a Python string. *)
Definition nonempty (s : str) : bool :=
  match s with [] => false | _ :: _ => true end.

(** [str(i)] for a non-negative integer. *)
Definition str_of_nat (n : nat) : str :=
  list_ascii_of_string (NilEmpty.string_of_uint (Nat.to_uint n)).

(* ================================================================== *)
(** ** Regular expressions as matchers *)

(** A matcher is asked at one position: [prev] is the character before the
    position (None at the start of the subject) and the second argument is
    the subject from the position on.  It answers the groups 1, 2, ... and
    the length of the match. *)
Definition matcher := option ascii -> str -> option (list str * nat).

Definition group (n : nat) (g : list str) : str := nth n g [].

(** [^] under [re.MULTILINE]. *)
Definition at_line_start (prev : option ascii) : bool :=
  match prev with
  | None => true
  | Some c => Ascii.eqb c nl
  end.

(** A negative lookbehind for one character. *)
Definition not_after (x : ascii) (prev : option ascii) : bool :=
  match prev with
  | None => true
  | Some c => neqb c x
  end.

(** A negative lookahead for one character. *)
Definition not_before (x : ascii) (s : str) : bool :=
  match s with
  | [] => true
  | c :: _ => neqb c x
  end.

Section Scanning.

Variable St : Type.
Variable m : matcher.

(** [re.sub(pattern, callback, s)]: the callback receives the groups,
    group 0 first, and the state it may update; it returns the replacement.
    A match of length 0 is replaced and the character after it kept, as
    Python does; no pattern of this program matches the empty text. *)
Fixpoint re_sub_from (repl : list str -> St -> str * St)
    (prev : option ascii) (skip : nat) (s : str) (st : St) : str * St :=
  match s with
  | [] => ([], st)
  | c :: s' =>
      match skip with
      | S k => re_sub_from repl (Some c) k s' st
      | O =>
          match m prev s with
          | Some (gs, n) =>
              let (r, st1) := repl (firstn n s :: gs) st in
              match n with
              | O =>
                  let (out, st2) := re_sub_from repl (Some c) 0 s' st1 in
                  (r ++ c :: out, st2)
              | S k =>
                  let (out, st2) := re_sub_from repl (Some c) k s' st1 in
                  (r ++ out, st2)
              end
          | None =>
              let (out, st1) := re_sub_from repl (Some c) 0 s' st in
              (c :: out, st1)
          end
      end
  end.

Definition re_sub_st (repl : list str -> St -> str * St) (s : str) (st : St)
    : str * St :=
  re_sub_from repl None 0 s st.

(** [re.search(pattern, s)]: the text before the first match, the groups
    (group 0 first) and the text after the match. *)
Fixpoint re_search_from (prev : option ascii) (s : str)
    : option (str * list str * str) :=
  match m prev s with
  | Some (gs, n) => Some ([], firstn n s :: gs, skipn n s)
  | None =>
      match s with
      | [] => None
      | c :: s' =>
          match re_search_from (Some c) s' with
          | Some (b, gs, a) => Some (c :: b, gs, a)
          | None => None
          end
      end
  end.

Definition re_search (s : str) : option (str * list str * str) :=
  re_search_from None s.

(** [re.split(pattern, s, 1)]: at most one split; the groups 1, 2, ... of
    the match are placed between the two pieces. *)
Definition re_split1 (s : str) : list str :=
  match re_search s with
  | Some (b, gs, a) => b :: tl gs ++ [a]
  | None => [s]
  end.

End Scanning.

(** [re.sub(pattern, template, s)] with a replacement that reads the groups
    only. *)
Definition re_sub (m : matcher) (template : list str -> str) (s : str) : str :=
  fst (re_sub_st m (fun gs (_ : unit) => (template gs, tt)) s tt).

Notation "x <- e ;; k" :=
  (match e with Some x => k | None => None end)
  (at level 61, e at next level, right associativity, only parsing).

(* ================================================================== *)
(** ** The patterns of the math extractor *)

Definition begin_align : str := lit "\begin{align}".
Definition end_align : str := lit "\end{align}".

(** [\\begin\{align\}(.*?)\\end\{align\}] with [re.DOTALL]. *)
Definition align_re : matcher := fun _ s =>
  r <- strip_prefix begin_align s ;;
  match find_sub end_align r with
  | Some (body, _) =>
      Some ([body], length begin_align + length body + length end_align)
  | None => None
  end.

(** [\\begin\{([^}]+)\}(.*?)\\end\{\1\}] with [re.DOTALL].  The name is the
    run of characters up to the first closing brace; the backreference asks
    for the same name in the closing tag. *)
Definition env_re : matcher := fun _ s =>
  r <- strip_prefix (lit "\begin{") s ;;
  let name := take_while (neqb "}") r in
  match name, drop_while (neqb "}") r with
  | _ :: _, _ :: r' =>
      let closing := lit "\end{" ++ name ++ lit "}" in
      match find_sub closing r' with
      | Some (body, _) =>
          Some ([name; body],
                length (lit "\begin{") + length name + 1
                + length body + length closing)
      | None => None
      end
  | _, _ => None
  end.

(** [\$\$(.*?)\$\$] with [re.DOTALL]. *)
Definition display_re : matcher := fun _ s =>
  r <- strip_prefix (lit "$$") s ;;
  match find_sub (lit "$$") r with
  | Some (body, _) => Some ([body], 2 + length body + 2)
  | None => None
  end.

Definition inline_char (c : ascii) : bool := neqb c "$" && neqb c nl.

(** [(?<!\$)\$([^$\n]+?)\$(?!\$)]. *)
Definition inline_re : matcher := fun prev s =>
  if not_after "$" prev then
    r <- strip_prefix (lit "$") s ;;
    let body := take_while inline_char r in
    match body, drop_while inline_char r with
    | _ :: _, c :: r' =>
        if Ascii.eqb c "$" && not_before "$" r'
        then Some ([body], 1 + length body + 1)
        else None
    | _, _ => None
    end
  else None.

(* ================================================================== *)
(** ** Math blocks and placeholders *)

Inductive kind := align | env | display | inline.

Definition kind_name (k : kind) : str :=
  match k with
  | align => lit "align"
  | env => lit "env"
  | display => lit "display"
  | inline => lit "inline"
  end.

(** ["MATH_PLACEHOLDER_{}_TYPE_{}".format(index, kind)]. *)
Definition placeholder_format (index : nat) (k : kind) : str :=
  lit "MATH_PLACEHOLDER_" ++ str_of_nat index ++ lit "_TYPE_" ++ kind_name k.

(** The two [nonlocal] variables the extraction callbacks update. *)
Record extraction := {
  math_blocks : list (kind * str);
  has_math : bool
}.

Definition no_math : extraction := {| math_blocks := []; has_math := false |}.

Definition store (k : kind) (content : str) (st : extraction) : extraction :=
  {| math_blocks := math_blocks st ++ [(k, content)]; has_math := true |}.

Definition extract_align_env (gs : list str) (st : extraction)
    : str * extraction :=
  let block_id := length (math_blocks st) in
  let content := group 0 gs in
  let content := str_replace begin_align (lit "\begin{align*}") content in
  let content := str_replace end_align (lit "\end{align*}") content in
  (placeholder_format block_id align, store align content st).

Definition extract_other_env (gs : list str) (st : extraction)
    : str * extraction :=
  let block_id := length (math_blocks st) in
  (placeholder_format block_id env, store env (group 0 gs) st).

Definition extract_display_math (gs : list str) (st : extraction)
    : str * extraction :=
  let block_id := length (math_blocks st) in
  (placeholder_format block_id display, store display (group 1 gs) st).

Definition extract_inline_math (gs : list str) (st : extraction)
    : str * extraction :=
  let block_id := length (math_blocks st) in
  (placeholder_format block_id inline, store inline (group 1 gs) st).

(** The four passes, each on the text the previous one left. *)
Definition extract_math (text : str) (st : extraction) : str * extraction :=
  let (text, st) := re_sub_st align_re extract_align_env text st in
  let (text, st) := re_sub_st env_re extract_other_env text st in
  let (text, st) := re_sub_st display_re extract_display_math text st in
  re_sub_st inline_re extract_inline_math text st.

(* ================================================================== *)
(** ** Guards *)

Definition notmath (s : str) : str :=
  lit "<span class=" ++ dq :: lit "notmath" ++ dq :: lit ">" ++ s
  ++ lit "</span>".

(** The pattern of line 455: an opening parenthesis, the longest run of
    characters other than a closing parenthesis (group 1), and a closing
    parenthesis. *)
Definition paren_re : matcher := fun _ s =>
  r <- strip_prefix (lit "(") s ;;
  let body := take_while (neqb ")") r in
  match drop_while (neqb ")") r with
  | _ :: _ => Some ([body], 1 + length body + 1)
  | [] => None
  end.

Definition protect_parentheses (text : str) : str :=
  re_sub paren_re (fun gs => notmath (lit "(" ++ group 1 gs ++ lit ")")) text.

(** [\[(\d+)\]]. *)
Definition citation_re : matcher := fun _ s =>
  r <- strip_prefix (lit "[") s ;;
  let digits := take_while is_digit r in
  match digits, drop_while is_digit r with
  | _ :: _, c :: _ =>
      if Ascii.eqb c "]" then Some ([digits], 1 + length digits + 1)
      else None
  | _, _ => None
  end.

Definition escape_citation (gs : list str) : str :=
  notmath (lit "[" ++ group 1 gs ++ lit "]").

Definition protect_citations (text : str) : str :=
  re_sub citation_re escape_citation text.

(* ================================================================== *)
(** ** The markdown renderer: [process_regular_markdown] *)

Definition not_nl (c : ascii) : bool := neqb c nl.

(** [^# (.+)$], [^## (.+)$], ... with [re.MULTILINE]: [level] hashes and a
    space at the start of a line, then the rest of the line, not empty. *)
Definition heading_re (level : nat) : matcher := fun prev s =>
  if at_line_start prev then
    r <- strip_prefix (repeat "#" level ++ lit " ") s ;;
    match take_while not_nl r with
    | [] => None
    | body => Some ([body], level + 1 + length body)
    end
  else None.

Definition heading_tag (level : nat) (gs : list str) : str :=
  lit "<h" ++ str_of_nat level ++ lit ">" ++ group 1 gs
  ++ lit "</h" ++ str_of_nat level ++ lit ">".

(** What one [result.append(...)] of the line loop adds. *)
Inductive emitted :=
| BlockquoteOpen
| BlockquoteClose
| ListOpen
| ListClose
| QuoteLine (content : str)
| ListItem (content : str)
| PlainLine (line : str).

Definition emitted_text (e : emitted) : str :=
  match e with
  | BlockquoteOpen => lit "<blockquote>"
  | BlockquoteClose => lit "</blockquote>"
  | ListOpen => lit "<ul>"
  | ListClose => lit "</ul>"
  | QuoteLine content => content
  | ListItem content => lit "<li>" ++ content ++ lit "</li>"
  | PlainLine line => line
  end.

Record RenderState := {
  in_list : bool;
  in_blockquote : bool;
  result : list emitted
}.

Definition render_start : RenderState :=
  {| in_list := false; in_blockquote := false; result := [] |}.

Definition append (e : emitted) (st : RenderState) : RenderState :=
  {| in_list := in_list st; in_blockquote := in_blockquote st;
     result := result st ++ [e] |}.

Definition set_in_list (b : bool) (st : RenderState) : RenderState :=
  {| in_list := b; in_blockquote := in_blockquote st; result := result st |}.

Definition set_in_blockquote (b : bool) (st : RenderState) : RenderState :=
  {| in_list := in_list st; in_blockquote := b; result := result st |}.

(** The content a blockquote line contributes:
    [line.strip().lstrip('>').strip()]. *)
Definition quote_content (line : str) : str :=
  strip (lstrip_gt (strip line)).

(** One iteration of the loop over the lines. *)
Definition scan_line (st : RenderState) (line : str) : RenderState :=
  if startswith (lit ">") (strip line) then
    let st :=
      if negb (in_blockquote st)
      then set_in_blockquote true (append BlockquoteOpen st)
      else st in
    append (QuoteLine (quote_content line)) st
  else
    let st :=
      if in_blockquote st
      then set_in_blockquote false (append BlockquoteClose st)
      else st in
    let is_list_item := startswith (lit "- ") (strip line) in
    if is_list_item then
      let st :=
        if negb (in_list st)
        then set_in_list true (append ListOpen st)
        else st in
      append (ListItem (skipn 2 (strip line))) st
    else
      let st :=
        if in_list st
        then set_in_list false (append ListClose st)
        else st in
      append (PlainLine line) st.

Definition scan_lines (lines : list str) : RenderState :=
  fold_left scan_line lines render_start.

(** The two closing steps after the loop. *)
Definition close_open (st : RenderState) : list emitted :=
  let st := if in_list st then append ListClose st else st in
  let st := if in_blockquote st then append BlockquoteClose st else st in
  result st.

Definition render_blocks (text : str) : list emitted :=
  close_open (scan_lines (split_lines text)).

(** [\*\*(.+?)\*\*]: two stars, one character of the line, then the text up
    to the next two stars on that line. *)
Definition bold_re : matcher := fun _ s =>
  r <- strip_prefix (lit "**") s ;;
  match take_while not_nl r with
  | c :: l =>
      match find_sub (lit "**") l with
      | Some (b, _) => Some ([c :: b], 2 + (1 + length b) + 2)
      | None => None
      end
  | [] => None
  end.

(** The lazy body of the italic pattern after its first character: the text
    of the line up to the first star that no closing parenthesis follows. *)
Fixpoint italic_close (s : str) : option str :=
  match s with
  | [] => None
  | c :: s' =>
      if Ascii.eqb c nl then None
      else if Ascii.eqb c "*" && not_before ")" s' then Some []
      else match italic_close s' with
           | Some b => Some (c :: b)
           | None => None
           end
  end.

(** [(?<!\()\*(.+?)\*(?!\))]. *)
Definition italic_re : matcher := fun prev s =>
  if not_after "(" prev then
    r <- strip_prefix (lit "*") s ;;
    match r with
    | c :: r' =>
        if Ascii.eqb c nl then None
        else match italic_close r' with
             | Some b => Some ([c :: b], 1 + (1 + length b) + 1)
             | None => None
             end
    | [] => None
    end
  else None.

Definition url_char (c : ascii) : bool := neqb c ")" && neqb c nl.

(** The url group and the closing parenthesis of the link pattern: one
    character of the line, then the shortest run on the line that a closing
    parenthesis follows. *)
Definition link_url (s : str) : option str :=
  match s with
  | c :: s' =>
      if Ascii.eqb c nl then None
      else match drop_while url_char s' with
           | d :: _ =>
               if Ascii.eqb d ")" then Some (c :: take_while url_char s')
               else None
           | [] => None
           end
  | [] => None
  end.

(** The lazy text group after its first character: the text of the line up
    to the first closing bracket after which an opening parenthesis and a
    url match. *)
Fixpoint link_close (s : str) : option (str * str) :=
  match s with
  | [] => None
  | c :: s' =>
      if Ascii.eqb c nl then None
      else
        let here :=
          if Ascii.eqb c "]"
          then r <- strip_prefix (lit "(") s' ;; link_url r
          else None in
        match here with
        | Some u => Some ([], u)
        | None =>
            match link_close s' with
            | Some (t, u) => Some (c :: t, u)
            | None => None
            end
        end
  end.

(** [\[(.+?)\]\((.+?)\)]. *)
Definition link_re : matcher := fun _ s =>
  r <- strip_prefix (lit "[") s ;;
  match r with
  | c :: r' =>
      if Ascii.eqb c nl then None
      else match link_close r' with
           | Some (t, u) =>
               Some ([c :: t; u], 1 + (1 + length t) + 2 + length u + 1)
           | None => None
           end
  | [] => None
  end.

Definition anchor (href text : str) : str :=
  lit "<a href=" ++ dq :: href ++ dq :: lit ">" ++ text ++ lit "</a>".

(** The paragraph step of the main body. *)
Definition wrap_paragraph (p : str) : str :=
  let trimmed_p := strip p in
  if nonempty trimmed_p && negb (startswith (lit "<") trimmed_p)
     && negb (endswith (lit ">") trimmed_p)
  then lit "<p>" ++ trimmed_p ++ lit "</p>"
  else p.

Definition inline_formatting (text : str) : str :=
  let text :=
    re_sub bold_re
      (fun gs => lit "<strong>" ++ group 1 gs ++ lit "</strong>") text in
  let text :=
    re_sub italic_re (fun gs => lit "<em>" ++ group 1 gs ++ lit "</em>") text in
  re_sub link_re (fun gs => anchor (group 2 gs) (group 1 gs)) text.

Definition process_regular_markdown (text : str) : str :=
  let text := re_sub (heading_re 1) (heading_tag 1) text in
  let text := re_sub (heading_re 2) (heading_tag 2) text in
  let text := re_sub (heading_re 3) (heading_tag 3) text in
  let text := re_sub (heading_re 4) (heading_tag 4) text in
  let text := join [nl] (map emitted_text (render_blocks text)) in
  let text := inline_formatting text in
  let paragraphs := split_blank text in
  join [nl] (map wrap_paragraph paragraphs).

(* ================================================================== *)
(** ** The References section *)

(** [^(#+)\s+References:?.*$] with [re.MULTILINE | re.IGNORECASE]: at the
    start of a line, the hashes, the white space (which may run over line
    ends), the word, and the rest of that line.  Answers the hashes and the
    length of the match. *)
Definition references_heading (prev : option ascii) (s : str)
    : option (str * nat) :=
  if at_line_start prev then
    let hashes := take_while (Ascii.eqb "#") s in
    let r := drop_while (Ascii.eqb "#") s in
    let spaces := take_while is_space r in
    let r := drop_while is_space r in
    match hashes, spaces with
    | _ :: _, _ :: _ =>
        r <- strip_prefix_ci (lit "References") r ;;
        Some (hashes,
              length hashes + length spaces + length (lit "References")
              + length (take_while not_nl r))
    | _, _ => None
    end
  else None.

(** The pattern as [re.search] has it: group 1 is the hashes. *)
Definition references_search_re : matcher := fun prev s =>
  match references_heading prev s with
  | Some (hashes, n) => Some ([hashes], n)
  | None => None
  end.

(** The pattern as [re.split] has it: group 1 is the whole heading line. *)
Definition references_split_re : matcher := fun prev s =>
  match references_heading prev s with
  | Some (_, n) => Some ([firstn n s], n)
  | None => None
  end.

(** Lines 396-404.  [None] stands for an [IndexError] at [parts[0]] or
    [parts[1]]. *)
Definition split_references (markdown_text : str)
    : option (str * option str) :=
  match re_search references_search_re markdown_text with
  | Some _ =>
      let parts := re_split1 references_split_re markdown_text in
      p0 <- nth_error parts 0 ;;
      p1 <- nth_error parts 1 ;;
      Some (p0, Some (p1 ++ (if 2 <? length parts then nth 2 parts [] else [])))
  | None => Some (markdown_text, None)
  end.

(** The pattern of line 483: an opening bracket, one character that is
    neither a closing bracket nor a digit, the longest run of characters other
    than a closing bracket, and a closing bracket; group 1 is the text between
    the brackets. *)
Definition bracket_text_re : matcher := fun _ s =>
  r <- strip_prefix (lit "[") s ;;
  match r with
  | c :: r' =>
      if neqb c "]" && negb (is_digit c) then
        match drop_while (neqb "]") r' with
        | _ :: _ =>
            let t := take_while (neqb "]") r' in
            Some ([c :: t], 1 + (1 + length t) + 1)
        | [] => None
        end
      else None
  | [] => None
  end.

Definition url_from (scheme s : str) : option (list str * nat) :=
  r <- strip_prefix scheme s ;;
  match take_while (fun c => negb (is_space c)) r with
  | [] => None
  | u => Some ([scheme ++ u], length scheme + length u)
  end.

(** [(https?://\S+)]. *)
Definition url_re : matcher := fun _ s =>
  match url_from (lit "https://") s with
  | Some x => Some x
  | None => url_from (lit "http://") s
  end.

Definition citation_number (gs : list str) : str :=
  lit "<span class=" ++ dq :: lit "citation-number" ++ dq
  :: lit "><span class=" ++ dq :: lit "bracket-content" ++ dq
  :: lit ">[<em><strong>" ++ group 1 gs
  ++ lit "</strong></em>]</span></span>".

Definition bracket_content (gs : list str) : str :=
  lit "<span class=" ++ dq :: lit "bracket-content" ++ dq
  :: lit ">[<em>" ++ group 1 gs ++ lit "</em>]</span>".

Definition references_paragraph (p : str) : str :=
  if nonempty (strip p) && negb (startswith (lit "<h") (strip p))
  then lit "<p>" ++ p ++ lit "</p>"
  else p.

Definition references_container (processed_references : str) : str :=
  lit "<div class=" ++ dq :: lit "references" ++ dq
  :: lit " data-mathjax=" ++ dq :: lit "ignore" ++ dq :: lit ">" ++ nl
  :: lit "    <style>" ++ nl
  :: lit "        /* Prevent MathJax from interfering with reference formatting */"
  ++ nl
  :: lit "        .references .citation-number strong { font-weight: bold; font-style: normal; }"
  ++ nl
  :: lit "        .references .bracket-content em { font-style: italic; font-weight: normal; }"
  ++ nl
  :: lit "        .references p { font-weight: normal; }" ++ nl
  :: lit "        .references span { font-weight: normal; }" ++ nl
  :: lit "        .references { font-weight: normal; }" ++ nl
  :: lit "    </style>" ++ nl
  :: lit "    " ++ processed_references ++ nl
  :: lit "</div>".

(** Lines 472-515. *)
Definition render_references (references_section : str) : str :=
  let processed_references := references_section in
  let processed_references :=
    re_sub (heading_re 1) (heading_tag 1) processed_references in
  let processed_references :=
    re_sub (heading_re 2) (heading_tag 2) processed_references in
  let processed_references :=
    re_sub (heading_re 3) (heading_tag 3) processed_references in
  let processed_references :=
    re_sub citation_re citation_number processed_references in
  let processed_references :=
    re_sub bracket_text_re bracket_content processed_references in
  let processed_references :=
    re_sub paren_re (fun gs => lit "&#40;" ++ group 1 gs ++ lit "&#41;")
      processed_references in
  let processed_references :=
    str_replace (lit "\/") (lit "/")
      (str_replace (lit "\>") (lit ">")
         (str_replace (lit "\<") (lit "<") processed_references)) in
  let processed_references :=
    re_sub url_re (fun gs => anchor (group 1 gs) (group 1 gs))
      processed_references in
  let paragraphs := map references_paragraph (split_blank processed_references) in
  let processed_references := join [nl] paragraphs in
  references_container processed_references.

(* ================================================================== *)
(** ** Restitution and the whole conversion *)

(** The body of the restitution loop for one block: the doubled backslashes
    and the delimiters of the block's kind. *)
Definition replacement (block_type : kind) (content : str) : str :=
  let escaped_content :=
    str_replace [backslash] [backslash; backslash] content in
  match block_type with
  | align => lit "$$" ++ escaped_content ++ lit "$$"
  | env => lit "$$" ++ escaped_content ++ lit "$$"
  | display => lit "$$" ++ escaped_content ++ lit "$$"
  | inline => lit "$" ++ escaped_content ++ lit "$"
  end.

(** [for i, (block_type, content) in enumerate(math_blocks)], from index
    [i] on. *)
Fixpoint restore_from (i : nat) (blocks : list (kind * str)) (text : str)
    : str :=
  match blocks with
  | [] => text
  | (block_type, content) :: rest =>
      let placeholder := placeholder_format i block_type in
      restore_from (S i) rest
        (str_replace placeholder (replacement block_type content) text)
  end.

Definition restore (blocks : list (kind * str)) (text : str) : str :=
  restore_from 0 blocks text.

Definition mathjax_script : str :=
  nl :: lit "<script>" ++ nl
  :: lit "if (window.MathJax) {" ++ nl
  :: lit "    MathJax.Hub.Queue([" ++ dq :: lit "Typeset" ++ dq
  :: lit ", MathJax.Hub]);" ++ nl
  :: lit "}" ++ nl
  :: lit "</script>" ++ nl :: [].

(** The main body between extraction and restitution: lines 455-467. *)
Definition render_main (text : str) : str :=
  let text := protect_parentheses text in
  let text := process_regular_markdown text in
  protect_citations text.

(** Lines 470-518: [if references_section:] is the truth value of an
    optional string. *)
Definition add_references (references_section : option str) (text : str)
    : str :=
  match references_section with
  | Some section =>
      if nonempty section then text ++ render_references section else text
  | None => text
  end.

Definition convert_markdown_to_html (markdown_text : str) : option str :=
  match split_references markdown_text with
  | Some (markdown_text, references_section) =>
      let (markdown_text, st) := extract_math markdown_text no_math in
      let markdown_text := render_main markdown_text in
      let markdown_text := add_references references_section markdown_text in
      let markdown_text := restore (math_blocks st) markdown_text in
      Some (if has_math st then markdown_text ++ mathjax_script
            else markdown_text)
  | None => None
  end.

(* ================================================================== *)
(** ** The spec's statements, to set against the code *)

(** The number of positions of [s] at which [pat] starts. *)
Fixpoint count_at (pat s : str) : nat :=
  (if startswith pat s then 1 else 0)
  + match s with
    | [] => 0
    | _ :: s' => count_at pat s'
    end.



(** The placeholder invariant of the spec's data model, for one input:
    the token of every stored block is exactly once in the text handed to
    the renderer, and no token is left in the output. *)
Definition placeholders_invariant (s : str) : Prop :=
  forall main refs text st html i k c,
    split_references s = Some (main, refs) ->
    extract_math main no_math = (text, st) ->
    convert_markdown_to_html s = Some html ->
    nth_error (math_blocks st) i = Some (k, c) ->
    count_at (placeholder_format i k) (protect_parentheses text) = 1
    /\ occurs (placeholder_format i k) html = false.

(** Blockquote wrappers of an emitted sequence, read from the left: [Some b]
    when every opening found the wrapper closed, every closing and every
    quoted line found it open, with [b] telling whether it is open now. *)
Definition blockquote_step (open : option bool) (e : emitted) : option bool :=
  match open, e with
  | Some false, BlockquoteOpen => Some true
  | Some true, BlockquoteOpen => None
  | Some true, BlockquoteClose => Some false
  | Some false, BlockquoteClose => None
  | Some false, QuoteLine _ => None
  | o, _ => o
  end.

Definition blockquote_nesting (es : list emitted) : option bool :=
  fold_left blockquote_step es (Some false).

(* ================================================================== *)
(** ** Notions the lemmas are stated with *)

(** The character before the position reached after passing over [p]. *)
Definition last_seen (prev : option ascii) (p : str) : option ascii :=
  fold_left (fun _ c => Some c) p prev.


(** [bool(math_blocks)]. *)
Definition has_blocks (blocks : list (kind * str)) : bool :=
  match blocks with [] => false | _ :: _ => true end.

(** The flag is raised exactly when a block has been stored. *)
Definition flag_tracks_blocks (st : extraction) : Prop :=
  has_math st = has_blocks (math_blocks st).

(** [pat] starts at no position of [s]. *)
Definition clear (pat s : str) : Prop :=
  forall p l, s = p ++ l -> strip_prefix pat l = None.

(** No occurrence of [pat] starts inside [p] when [post] follows it. *)
Definition clear_before (pat p post : str) : Prop :=
  forall p1 l, p = p1 ++ l -> l <> [] -> strip_prefix pat (l ++ post) = None.

(** A matcher that asks for a literal prefix matches nowhere in clear text. *)
Definition starts_with (m : matcher) (pat : str) : Prop :=
  forall prev l, strip_prefix pat l = None -> m prev l = None.

(** The tags of the unnumbered environment. *)
Definition begin_align_star : str := lit "\begin{align*}".
Definition end_align_star : str := lit "\end{align*}".

(** Doubling of backslashes, character by character. *)
Definition escape_char (c : ascii) : str :=
  if Ascii.eqb backslash c then [backslash; backslash] else [c].


(** The flag of the loop tells the state of the wrapper in what was
    emitted so far. *)
Definition blockquote_tracked (st : RenderState) : Prop :=
  blockquote_nesting (result st) = Some (in_blockquote st).

(** A character no rule of the renderer or of the guards reacts to. *)
Definition inert (c : ascii) : bool :=
  negb (is_space c) && negb (existsb (Ascii.eqb c) (lit "()[]*#>-")).

(** Text that is empty or begins with a character some rule reacts to. *)
Definition stops (s : str) : bool :=
  match s with
  | [] => true
  | c :: _ => negb (inert c)
  end.

(** A function on text keeps the word [w] when every occurrence of [w] in
    its argument is found again, whole, in its result. *)
Definition keeps (w : str) (f : str -> str) : Prop :=
  forall x y, exists x' y', f (x ++ w ++ y) = x' ++ w ++ y'.

(** Text made only of characters that are not inert. *)
Definition special (d : str) : bool :=
  forallb (fun c => negb (inert c)) d.

(** The match of a pattern, cut into its literal parts and its (at most
    two) groups; the replacement holds both groups. *)
Definition shaped (m : matcher) (T : list str -> str) : Prop :=
  forall prev s gs n,
    m prev s = Some (gs, n) ->
    exists d0 g1 d1 g2 d2 rest,
      s = d0 ++ g1 ++ d1 ++ g2 ++ d2 ++ rest
      /\ n = length (d0 ++ g1 ++ d1 ++ g2 ++ d2)
      /\ special d0 = true /\ special d1 = true /\ special d2 = true
      /\ stops (d1 ++ g2 ++ d2 ++ rest) = true
      /\ stops (d2 ++ rest) = true
      /\ (forall g0, exists a b, T (g0 :: gs) = a ++ g1 ++ b)
      /\ (forall g0, exists a b, T (g0 :: gs) = a ++ g2 ++ b).

(** No match of [m] starts inside the word. *)
Definition never_inside (w : str) (m : matcher) : Prop :=
  forall prev w1 w2 v, w = w1 ++ w2 -> w2 <> [] -> m prev (w2 ++ v) = None.

(** A replacement that holds group 1. *)
Definition one_group (T : list str -> str) : Prop :=
  forall g0 g1, exists a b, T [g0; g1] = a ++ g1 ++ b.

(** One of the texts of a list holds the word. *)
Definition holds (w : str) (l : list str) : Prop :=
  exists l1 a b l2, l = l1 ++ (a ++ w ++ b) :: l2.

(* ================================================================== *)
(** * Tokens in the text *)

Unset Implicit Arguments.

(** ** Tokens and the texts that hold them only whole *)

(** The prefix every placeholder token starts with. *)
Definition placeholder_prefix : str := lit "MATH_PLACEHOLDER_".

Definition is_token (w : str) : Prop :=
  exists i k, w = placeholder_format i k.

(** The tokens of a block list, the first one with index [i]. *)
Fixpoint tokens_from (i : nat) (blocks : list (kind * str)) : list str :=
  match blocks with
  | [] => []
  | b :: rest => placeholder_format i (fst b) :: tokens_from (S i) rest
  end.

(** Every occurrence of the prefix in [t] begins one of the words of [V]. *)
Definition guarded (V : list str) (t : str) : Prop :=
  forall x y, t = x ++ placeholder_prefix ++ y ->
    exists w y', In w V /\ placeholder_prefix ++ y = w ++ y'.

(** A character that a token can hold behind its first one. *)
Definition tail_char (c : ascii) : bool :=
  is_digit c || existsb (Ascii.eqb c) (lit "ATH_PLCEODRYalignevdspy").

Definition token_char (c : ascii) : bool := Ascii.eqb c "M" || tail_char c.

(** Text that is empty or begins with a character no token continues
    with. *)
Definition cuts (b : str) : bool :=
  match b with
  | [] => true
  | c :: _ => negb (tail_char c)
  end.

(** Text that is empty or ends with a character the prefix does not
    hold. *)
Definition seals (a : str) : bool :=
  match rev a with
  | [] => true
  | c :: _ => negb (existsb (Ascii.eqb c) placeholder_prefix)
  end.

(** Text whose first and last characters are no characters of a token. *)
Definition fenced (z : str) : bool :=
  match z, rev z with
  | c :: _, d :: _ => negb (token_char c) && negb (token_char d)
  | _, _ => false
  end.

(** ** Scans *)

(** A pattern that matches no empty text. *)
Definition productive (m : matcher) : Prop :=
  forall prev s gs n, m prev s = Some (gs, n) -> 0 < n.

(** ** Words that do not overlap *)

(** A token of an index below [n]. *)
Definition older (n : nat) (w : str) : Prop :=
  exists j k, j < n /\ w = placeholder_format j k.

(** No occurrence of [old] overlaps an occurrence of [w]. *)
Definition apart (old w : str) : Prop :=
  (forall w1 w2 v, w = w1 ++ w2 -> w2 <> [] ->
     strip_prefix old (w2 ++ v) = None)
  /\ (forall o1 o2 v, old = o1 ++ o2 -> o1 <> [] -> o2 <> [] ->
        strip_prefix w (o2 ++ v) = None).

(** ** An extraction pass *)

(** The common form of the four extraction callbacks: the token of the next
    index, and the block stored with a content taken from the groups. *)
Definition extract_with (k : kind) (content : list str -> str)
    (gs : list str) (st : extraction) : str * extraction :=
  (placeholder_format (length (math_blocks st)) k, store k (content gs) st).

(** The content the align callback stores. *)
Definition align_content_of (gs : list str) : str :=
  str_replace end_align end_align_star
    (str_replace begin_align begin_align_star (group 0 gs)).

(** The match of an extraction pattern: not empty, beginning and ending with
    a character no token holds, and without the prefix when the content
    stored for it is. *)
Definition encloses (m : matcher) (content : list str -> str) : Prop :=
  forall prev s gs n,
    m prev s = Some (gs, n) ->
    exists M a,
      s = M ++ a /\ n = length M /\ fenced M = true
      /\ (occurs placeholder_prefix (content (M :: gs)) = false ->
          occurs placeholder_prefix M = false).

(** No block of the list holds the prefix. *)
Definition prefix_free (blocks : list (kind * str)) : Prop :=
  Forall (fun b => occurs placeholder_prefix (snd b) = false) blocks.

(** What one extraction pass does, from the text [s] and the blocks [B] to
    the text [out] and the blocks [B']. *)
Definition pass_keeps (s : str) (B : list (kind * str)) (out : str)
    (B' : list (kind * str)) : Prop :=
  exists new,
    B' = B ++ new
    /\ forall V,
        Forall (older (length B)) V -> guarded V s -> prefix_free new ->
        guarded (V ++ tokens_from (length B) new) out
        /\ (forall w, is_token w -> ~ In w (tokens_from (length B) new) ->
                      count_at w out = count_at w s)
        /\ (forall w, In w (tokens_from (length B) new) -> count_at w out = 1)
        /\ (forall z, fenced z = true ->
                      occurs placeholder_prefix z = false ->
                      occurs z out = true -> occurs z s = true).

(** The tokens of the blocks stand in the text, each once, and the prefix
    stands nowhere else. *)
Definition placed (blocks : list (kind * str)) (t : str) : Prop :=
  guarded (tokens_from 0 blocks) t
  /\ forall w, In w (tokens_from 0 blocks) -> count_at w t = 1.

(** ** What a text has from its source *)

(** No character of [old] is a character of [w]. *)
Definition disjoint_chars (old w : str) : bool :=
  forallb (fun c => negb (existsb (Ascii.eqb c) w)) old.

(** A fenced text without the prefix that is in [out] is in [s]. *)
Definition sourced (s out : str) : Prop :=
  forall z, fenced z = true -> occurs placeholder_prefix z = false ->
            occurs z out = true -> occurs z s = true.

(** ** Replacement templates *)

(** Text that begins with a character no token holds. *)
Definition opens (z : str) : bool :=
  match z with
  | c :: _ => negb (token_char c)
  | [] => false
  end.

(** Text that ends with a character no token holds. *)
Definition shut (z : str) : bool := opens (rev z).

(** The match of a pattern of the renderer: not empty, beginning with a
    character no token continues with, and every group a part of the subject
    that such a character follows. *)
Definition groups_within (m : matcher) : Prop :=
  forall prev s gs n,
    m prev s = Some (gs, n) ->
    0 < n /\ cuts s = true
    /\ Forall (fun g => exists a b, s = a ++ g ++ b /\ cuts b = true) gs.

(** A replacement put together from the groups and from text without the
    prefix, beginning and ending with a character no token holds. *)
Definition template_ok (T : list str -> str) : Prop :=
  forall V gs g0,
    Forall (guarded V) gs ->
    guarded V (T (g0 :: gs)) /\ fenced (T (g0 :: gs)) = true.

(** ** Environment tags *)

(** The opening and the closing tag of an environment. *)
Definition begin_tag (name : str) : str := lit "\begin{" ++ name ++ lit "}".
Definition end_tag (name : str) : str := lit "\end{" ++ name ++ lit "}".

(** A character of a name that no pattern of the conversion reacts to. *)
Definition plain_char (c : ascii) : bool :=
  inert c && neqb "}" c && neqb c "$" && neqb c backslash.

(** ** The spec's sentences and example documents *)


(** The spec's sentence on malformed LaTeX, for one input: an opening tag
    that no closing tag of its name follows is taken by no extraction pass
    (it stands in the text the extraction hands on) and is in the output as
    it was written. *)
Definition unmatched_begin_literal (s : str) : Prop :=
  forall name main refs html,
    split_references s = Some (main, refs) ->
    occurs (begin_tag name) main = true ->
    occurs (end_tag name) main = false ->
    convert_markdown_to_html s = Some html ->
    occurs (begin_tag name) (fst (extract_math main no_math)) = true
    /\ occurs (begin_tag name) html = true.

(** A document with a heading, an align environment, a display block, an
    inline expression, emphasis and a parenthesis. *)
Definition mixed_example : str :=
  lit "# T" ++ nl
  :: lit "\begin{align}a &= b \\ c\end{align} and $$ x * y $$ and $z$ *e* (p)".

Definition mixed_example_text : str :=
  lit "# T" ++ nl
  :: lit "MATH_PLACEHOLDER_0_TYPE_align and MATH_PLACEHOLDER_1_TYPE_display"
  ++ lit " and MATH_PLACEHOLDER_2_TYPE_inline *e* (p)".

Definition mixed_example_blocks : extraction :=
  {| math_blocks :=
       [(align, lit "\begin{align*}a &= b \\ c\end{align*}");
        (display, lit " x * y "); (inline, lit "z")];
     has_math := true |}.

Definition mixed_example_html : str :=
  lit "<h1>T</h1>" ++ nl
  :: lit "$$\\begin{align*}a &= b \\\\ c\\end{align*}$$ and $$ x * y $$"
  ++ lit " and $z$ <em>e</em> <span class=" ++ dq :: lit "notmath" ++ dq
  :: lit ">(p)</span>" ++ nl
  :: lit "<script>" ++ nl
  :: lit "if (window.MathJax) {" ++ nl
  :: lit "    MathJax.Hub.Queue([" ++ dq :: lit "Typeset" ++ dq
  :: lit ", MathJax.Hub]);" ++ nl
  :: lit "}" ++ nl
  :: lit "</script>" ++ [nl].

(** A document whose References heading stands between two [$$]. *)
Definition cut_example : str :=
  lit "$$ *a*" ++ nl :: lit "# References" ++ nl :: lit "b $$".

(** A document with an unclosed tag after a heading and before
    mathematics and another environment's closing tag. *)
Definition unclosed_example : str :=
  lit "# T" ++ nl :: lit "\begin{foo} x $y$ and $$z$$ \end{bar}".

(* ================================================================== *)
(** * Properties *)

(** ** Text helpers *)

Lemma strip_prefix_app (p s : str) : strip_prefix p (p ++ s) = Some s.
Proof.
  induction p as [|a p IH]; simpl; [reflexivity|].
  now rewrite Ascii.eqb_refl.
Qed.

Lemma strip_prefix_Some (p s r : str) :
  strip_prefix p s = Some r -> s = p ++ r.
Proof.
  revert s; induction p as [|a p IH]; intros [|b s]; simpl; try congruence.
  destruct (Ascii.eqb_spec a b) as [->|]; [|discriminate].
  intros H; f_equal; auto.
Qed.

Lemma strip_prefix_split (p q s r : str) :
  strip_prefix (p ++ q) s = Some r ->
  exists r', strip_prefix p s = Some r'.
Proof.
  intros H. apply strip_prefix_Some in H. subst s.
  rewrite <- app_assoc. rewrite strip_prefix_app. eauto.
Qed.

(** A prefix cannot start to match inside [l] and end inside [post] when the
    first character of [post] is not one of the pattern. *)
Lemma strip_prefix_app_None (pat l post : str) :
  strip_prefix pat l = None ->
  (forall c, hd_error post = Some c -> ~ In c pat) ->
  strip_prefix pat (l ++ post) = None.
Proof.
  revert l; induction pat as [|a pat IH]; intros l; simpl; [discriminate|].
  intros H Hpost. destruct l as [|b l]; simpl.
  - destruct post as [|d post]; [reflexivity|].
    destruct (Ascii.eqb_spec a d) as [->|]; [|reflexivity].
    exfalso. apply (Hpost d); simpl; auto.
  - destruct (Ascii.eqb a b); [|reflexivity].
    apply IH; [assumption|].
    intros c Hc Hin. apply (Hpost c Hc). now right.
Qed.

Lemma find_sub_here (pat s r : str) :
  strip_prefix pat s = Some r -> find_sub pat s = Some ([], r).
Proof.
  intros H. destruct s; simpl; now rewrite H.
Qed.

Lemma find_sub_Some (pat s b a : str) :
  find_sub pat s = Some (b, a) -> s = b ++ pat ++ a.
Proof.
  revert b; induction s as [|c s IH]; intros b; simpl.
  - destruct (strip_prefix pat []) eqn:E; [|discriminate].
    intros [= <- <-]. now apply strip_prefix_Some in E.
  - destruct (strip_prefix pat (c :: s)) eqn:E.
    + intros [= <- <-]. now apply strip_prefix_Some in E.
    + destruct (find_sub pat s) as [[b' a']|]; [|discriminate].
      intros [= <- <-]. simpl. f_equal. now apply IH.
Qed.

Lemma find_sub_None_prefix (pat s : str) :
  find_sub pat s = None -> strip_prefix pat s = None.
Proof.
  destruct s; simpl; destruct (strip_prefix pat _); congruence.
Qed.

Lemma find_sub_None_tail (pat : str) (c : ascii) (s : str) :
  find_sub pat (c :: s) = None -> find_sub pat s = None.
Proof.
  simpl. destruct (strip_prefix pat (c :: s)); [discriminate|].
  destruct (find_sub pat s) as [[? ?]|]; congruence.
Qed.

(** [occurs] is complete: text that contains the pattern is recognised. *)
Lemma find_sub_complete (pat x y : str) :
  find_sub pat (x ++ pat ++ y) <> None.
Proof.
  induction x as [|c x IH]; simpl.
  - now rewrite (find_sub_here _ _ _ (strip_prefix_app pat y)).
  - destruct (strip_prefix pat (c :: x ++ pat ++ y)); [discriminate|].
    destruct (find_sub pat (x ++ pat ++ y)) as [[? ?]|]; congruence.
Qed.

Lemma occurs_false_at (pat s : str) :
  occurs pat s = false ->
  forall p l, s = p ++ l -> strip_prefix pat l = None.
Proof.
  unfold occurs. intros H p l ->.
  destruct (strip_prefix pat l) as [r|] eqn:E; [|reflexivity].
  apply strip_prefix_Some in E. subst l.
  destruct (find_sub pat (p ++ pat ++ r)) eqn:F; [discriminate|].
  now apply find_sub_complete in F.
Qed.

(** The first occurrence is where the text before holds none, not even one
    that runs over into the pattern itself. *)
Lemma find_sub_first (pat b a : str) :
  (forall p l, b = p ++ l -> l <> [] -> strip_prefix pat (l ++ pat ++ a) = None) ->
  find_sub pat (b ++ pat ++ a) = Some (b, a).
Proof.
  induction b as [|c b IH]; intros H.
  - simpl. apply find_sub_here, strip_prefix_app.
  - assert (H0 : strip_prefix pat (c :: b ++ pat ++ a) = None)
      by (apply (H [] (c :: b) eq_refl); discriminate).
    simpl. rewrite H0, IH; [reflexivity|].
    intros p l -> Hl. apply (H (c :: p) l); [reflexivity|assumption].
Qed.

(** ** The scanners *)

Section ScanFacts.

Variable St : Type.
Variable m : matcher.
Variable repl : list str -> St -> str * St.

Lemma re_sub_skip (p s : str) (prev : option ascii) (st : St) :
  re_sub_from m repl prev (length p) (p ++ s) st
  = re_sub_from m repl (last_seen prev p) 0 s st.
Proof.
  revert prev; induction p as [|c p IH]; intros prev; simpl.
  - destruct s; reflexivity.
  - apply IH.
Qed.

(** Where the pattern matches at no position of [p], [p] is copied. *)
Lemma re_sub_nomatch_app (p s : str) (prev : option ascii) (st : St) :
  (forall p1 l prev', p = p1 ++ l -> l <> [] -> m prev' (l ++ s) = None) ->
  re_sub_from m repl prev 0 (p ++ s) st
  = let (out, st') := re_sub_from m repl (last_seen prev p) 0 s st in
    (p ++ out, st').
Proof.
  revert prev; induction p as [|c p IH]; intros prev H; simpl.
  - destruct (re_sub_from m repl prev 0 s st); reflexivity.
  - assert (H0 : m prev (c :: p ++ s) = None)
      by (apply (H [] (c :: p) prev eq_refl); discriminate).
    rewrite H0, IH.
    + destruct (re_sub_from m repl (last_seen (Some c) p) 0 s st).
      reflexivity.
    + intros p1 l prev' -> Hl. apply (H (c :: p1) l); [reflexivity|assumption].
Qed.

Lemma re_sub_nomatch (s : str) (prev : option ascii) (st : St) :
  (forall p l prev', s = p ++ l -> l <> [] -> m prev' l = None) ->
  re_sub_from m repl prev 0 s st = (s, st).
Proof.
  intros H. rewrite <- (app_nil_r s) at 1.
  rewrite re_sub_nomatch_app.
  - simpl. now rewrite app_nil_r.
  - intros p1 l prev' E Hl. rewrite app_nil_r. eauto.
Qed.

(** Where the pattern matches [p] at the head, the callback's text stands
    for [p] and the scan goes on behind it. *)
Lemma re_sub_match_head (p s : str) (gs : list str) (prev : option ascii)
    (st st1 : St) (r : str) :
  p <> [] ->
  m prev (p ++ s) = Some (gs, length p) ->
  repl (p :: gs) st = (r, st1) ->
  re_sub_from m repl prev 0 (p ++ s) st
  = let (out, st2) := re_sub_from m repl (last_seen prev p) 0 s st1 in
    (r ++ out, st2).
Proof.
  intros Hp H R. destruct p as [|c p]; [congruence|].
  assert (F : firstn (length (c :: p)) ((c :: p) ++ s) = c :: p)
    by (rewrite firstn_app, Nat.sub_diag, firstn_all; simpl;
        now rewrite app_nil_r).
  cbn [re_sub_from app] in *. rewrite H.
  cbn [length] in *. rewrite F, R.
  now rewrite (re_sub_skip p s (Some c) st1).
Qed.

(** A property of the state that every call of the callback keeps holds
    after the scan. *)
Lemma re_sub_invariant (P : St -> Prop) :
  (forall gs st, P st -> P (snd (repl gs st))) ->
  forall s prev skip st, P st -> P (snd (re_sub_from m repl prev skip s st)).
Proof.
  intros Hrepl. induction s as [|c s IH]; intros prev skip st Hst; simpl.
  - assumption.
  - destruct skip as [|k]; [|now apply IH].
    destruct (m prev (c :: s)) as [[gs n]|].
    + pose proof (Hrepl (firstn n (c :: s) :: gs) st Hst) as H1.
      destruct (repl (firstn n (c :: s) :: gs) st) as [r st1].
      destruct n as [|k].
      * pose proof (IH (Some c) 0 st1 H1) as H2.
        destruct (re_sub_from m repl (Some c) 0 s st1); assumption.
      * pose proof (IH (Some c) k st1 H1) as H2.
        destruct (re_sub_from m repl (Some c) k s st1); assumption.
    + pose proof (IH (Some c) 0 st Hst) as H2.
      destruct (re_sub_from m repl (Some c) 0 s st); assumption.
Qed.


End ScanFacts.

Lemma replace_skip (old new p s : str) :
  replace_from old new (length p) (p ++ s) = replace_from old new 0 s.
Proof.
  induction p as [|c p IH]; simpl; [now destruct s | assumption].
Qed.

Lemma replace_nomatch_app (old new p s : str) :
  (forall p1 l, p = p1 ++ l -> l <> [] -> strip_prefix old (l ++ s) = None) ->
  replace_from old new 0 (p ++ s) = p ++ replace_from old new 0 s.
Proof.
  induction p as [|c p IH]; intros H; simpl; [reflexivity|].
  unfold startswith.
  assert (H0 : strip_prefix old (c :: p ++ s) = None)
    by (apply (H [] (c :: p) eq_refl); discriminate).
  rewrite H0, IH; [reflexivity|].
  intros p1 l -> Hl. apply (H (c :: p1) l); [reflexivity|assumption].
Qed.

Lemma replace_match_head (old new s : str) :
  old <> [] ->
  replace_from old new 0 (old ++ s) = new ++ replace_from old new 0 s.
Proof.
  destruct old as [|c old]; [congruence|]. intros _.
  cbn [app replace_from]. unfold startswith.
  change (c :: old ++ s) with ((c :: old) ++ s).
  rewrite strip_prefix_app.
  replace (length (c :: old) - 1) with (length old) by (simpl; lia).
  now rewrite replace_skip.
Qed.

(** Replacing one character is done character by character. *)
Lemma replace_char (c : ascii) (new s : str) :
  str_replace [c] new s
  = flat_map (fun x => if Ascii.eqb c x then new else [x]) s.
Proof.
  unfold str_replace. induction s as [|x s IH]; simpl; [reflexivity|].
  unfold startswith. simpl.
  destruct (Ascii.eqb c x); simpl; now rewrite IH.
Qed.

(** ** The extraction state *)


Lemma store_flag k c st : flag_tracks_blocks (store k c st).
Proof.
  unfold flag_tracks_blocks, store; simpl.
  now destruct (math_blocks st).
Qed.

Ltac callback_cases :=
  unfold extract_align_env, extract_other_env, extract_display_math,
    extract_inline_math; simpl.


Lemma callbacks_flag :
  (forall gs st, flag_tracks_blocks st ->
                 flag_tracks_blocks (snd (extract_align_env gs st)))
  /\ (forall gs st, flag_tracks_blocks st ->
                    flag_tracks_blocks (snd (extract_other_env gs st)))
  /\ (forall gs st, flag_tracks_blocks st ->
                    flag_tracks_blocks (snd (extract_display_math gs st)))
  /\ (forall gs st, flag_tracks_blocks st ->
                    flag_tracks_blocks (snd (extract_inline_math gs st))).
Proof.
  repeat split; intros; callback_cases; apply store_flag.
Qed.

Lemma extract_math_flag (text : str) (st : extraction) :
  flag_tracks_blocks st ->
  flag_tracks_blocks (snd (extract_math text st)).
Proof.
  destruct callbacks_flag as (Ha & He & Hd & Hi).
  intros H. unfold extract_math, re_sub_st.
  pose proof (re_sub_invariant _ align_re _ _ Ha text None 0 st H) as H1.
  destruct (re_sub_from align_re extract_align_env None 0 text st) as [t1 s1].
  pose proof (re_sub_invariant _ env_re _ _ He t1 None 0 s1 H1) as H2.
  destruct (re_sub_from env_re extract_other_env None 0 t1 s1) as [t2 s2].
  pose proof (re_sub_invariant _ display_re _ _ Hd t2 None 0 s2 H2) as H3.
  destruct (re_sub_from display_re extract_display_math None 0 t2 s2)
    as [t3 s3].
  exact (re_sub_invariant _ inline_re _ _ Hi t3 None 0 s3 H3).
Qed.


(** ** The References split never fails *)

Lemma references_split_None (prev : option ascii) (s : str) :
  references_split_re prev s = None -> references_search_re prev s = None.
Proof.
  unfold references_split_re, references_search_re.
  now destruct (references_heading prev s) as [[hashes n]|].
Qed.

Lemma references_split_found (s : str) (prev : option ascii) :
  re_search_from references_search_re prev s <> None ->
  exists b gs a, re_search_from references_split_re prev s = Some (b, gs, a).
Proof.
  revert prev; induction s as [|c s IH]; intros prev; simpl.
  - destruct (references_split_re prev []) as [[gs n]|] eqn:E; [eauto|].
    rewrite (references_split_None _ _ E). congruence.
  - destruct (references_split_re prev (c :: s)) as [[gs n]|] eqn:E; [eauto|].
    rewrite (references_split_None _ _ E). intros H.
    destruct (IH (Some c)) as (b & gs & a & F).
    + destruct (re_search_from references_search_re (Some c) s) as [[[? ?] ?]|];
        congruence.
    + rewrite F. eauto.
Qed.

Lemma split_references_total (s : str) :
  exists main refs, split_references s = Some (main, refs).
Proof.
  unfold split_references.
  destruct (re_search references_search_re s) eqn:E; [|eauto].
  destruct (references_split_found s None) as (b & gs & a & F).
  - unfold re_search in E. congruence.
  - unfold re_split1, re_search. rewrite F.
    destruct (tl gs); simpl; eauto.
Qed.

Lemma convert_total (s : str) :
  exists html, convert_markdown_to_html s = Some html.
Proof.
  unfold convert_markdown_to_html.
  destruct (split_references_total s) as (main & refs & ->).
  destruct (extract_math main no_math). eauto.
Qed.

(** The pipeline, stage by stage. *)
Lemma convert_stages (s main text : str) (refs : option str) (st : extraction) :
  split_references s = Some (main, refs) ->
  extract_math main no_math = (text, st) ->
  convert_markdown_to_html s
  = Some (restore (math_blocks st) (add_references refs (render_main text))
          ++ (if has_blocks (math_blocks st) then mathjax_script else [])).
Proof.
  intros Hs He. unfold convert_markdown_to_html. rewrite Hs, He.
  pose proof (extract_math_flag main no_math eq_refl) as F.
  rewrite He in F. simpl in F. unfold flag_tracks_blocks in F. rewrite F.
  destruct (has_blocks (math_blocks st)); [reflexivity|].
  now rewrite app_nil_r.
Qed.

(** ** Environments without a closing tag *)

Lemma take_while_stop (p : ascii -> bool) (x : str) (c : ascii) (y : str) :
  forallb p x = true -> p c = false ->
  take_while p (x ++ c :: y) = x /\ drop_while p (x ++ c :: y) = c :: y.
Proof.
  intros Hx Hc. induction x as [|a x IH]; simpl in *.
  - now rewrite Hc.
  - apply andb_true_iff in Hx as [Ha Hx]. rewrite Ha.
    destruct (IH Hx) as [-> ->]. auto.
Qed.

Lemma take_drop_while (p : ascii -> bool) (s : str) :
  s = take_while p s ++ drop_while p s.
Proof.
  induction s as [|c s IH]; simpl; [reflexivity|].
  destruct (p c); simpl; congruence.
Qed.

(** Both environment patterns need a closing tag somewhere behind the
    opening one. *)
Lemma align_re_closing (prev : option ascii) (l : str) :
  align_re prev l <> None ->
  exists x y, l = x ++ lit "\end{" ++ y.
Proof.
  unfold align_re.
  destruct (strip_prefix begin_align l) as [r|] eqn:E; [|congruence].
  destruct (find_sub end_align r) as [[b a]|] eqn:F; [|congruence].
  intros _. apply strip_prefix_Some in E. apply find_sub_Some in F.
  subst. exists (begin_align ++ b), (lit "align}" ++ a).
  now rewrite <- app_assoc.
Qed.

Lemma env_re_closing (prev : option ascii) (l : str) :
  env_re prev l <> None ->
  exists x y, l = x ++ lit "\end{" ++ y.
Proof.
  unfold env_re.
  destruct (strip_prefix (lit "\begin{") l) as [r|] eqn:E; [|congruence].
  destruct (take_while (neqb "}") r) as [|n name] eqn:N; [congruence|].
  destruct (drop_while (neqb "}") r) as [|d r'] eqn:D; [congruence|].
  destruct (find_sub _ r') as [[b a]|] eqn:F; [|congruence].
  intros _. apply strip_prefix_Some in E. apply find_sub_Some in F.
  pose proof (take_drop_while (neqb "}") r) as R. rewrite N, D in R.
  subst l. rewrite R, F.
  exists (lit "\begin{" ++ (n :: name) ++ d :: b), ((n :: name) ++ lit "}" ++ a).
  repeat (rewrite <- ?app_assoc; simpl). reflexivity.
Qed.

Lemma no_closing_no_match (m : matcher) (s : str) :
  (forall prev l, m prev l <> None -> exists x y, l = x ++ lit "\end{" ++ y) ->
  occurs (lit "\end{") s = false ->
  forall p l (prev : option ascii), s = p ++ l -> l <> [] -> m prev l = None.
Proof.
  intros Hm Hs p l prev -> _.
  destruct (m prev l) eqn:E; [|reflexivity].
  destruct (Hm prev l) as (x & y & ->); [congruence|].
  pose proof (occurs_false_at _ _ Hs (p ++ x) (lit "\end{" ++ y)) as K.
  rewrite strip_prefix_app in K.
  rewrite <- app_assoc in K. now specialize (K eq_refl).
Qed.

Lemma environments_need_closing (s : str) (st : extraction) :
  occurs (lit "\end{") s = false ->
  re_sub_st align_re extract_align_env s st = (s, st)
  /\ re_sub_st env_re extract_other_env s st = (s, st).
Proof.
  intros H. unfold re_sub_st. split; apply re_sub_nomatch.
  - now apply no_closing_no_match; [apply align_re_closing|].
  - now apply no_closing_no_match; [apply env_re_closing|].
Qed.

Lemma env_re_unclosed (prev : option ascii) (name rest : str) :
  name <> [] ->
  forallb (neqb "}") name = true ->
  occurs (lit "\end{" ++ name ++ lit "}") rest = false ->
  env_re prev (lit "\begin{" ++ name ++ lit "}" ++ rest) = None.
Proof.
  intros Hn Hb Ho. unfold env_re. rewrite strip_prefix_app.
  destruct (take_while_stop (neqb "}") name "}" rest Hb eq_refl) as [T D].
  change (lit "}" ++ rest) with ("}" :: rest). rewrite T, D.
  destruct name as [|n name]; [congruence|].
  unfold occurs in Ho.
  destruct (find_sub _ rest) as [[? ?]|]; [discriminate|reflexivity].
Qed.

(** ** Text in which a pattern starts nowhere *)

Lemma clear_nil (pat : str) : pat <> [] -> clear pat [].
Proof.
  intros H p l E. symmetry in E. apply app_eq_nil in E as [_ ->].
  now destruct pat.
Qed.

Lemma clear_cons (pat : str) (c : ascii) (s : str) :
  strip_prefix pat (c :: s) = None -> clear pat s -> clear pat (c :: s).
Proof.
  intros H Hs [|x p] l E; simpl in E.
  - now subst l.
  - inversion E; subst. now apply (Hs p l).
Qed.

Lemma clear_longer (p1 p2 s : str) : clear p1 s -> clear (p1 ++ p2) s.
Proof.
  intros H p l E. specialize (H p l E).
  destruct (strip_prefix (p1 ++ p2) l) eqn:F; [|reflexivity].
  apply strip_prefix_split in F as [r' F]. congruence.
Qed.

Lemma clear_before_nil (pat post : str) : clear_before pat [] post.
Proof.
  intros p1 l E Hl. symmetry in E. apply app_eq_nil in E as [_ ->].
  congruence.
Qed.

Lemma clear_before_cons (pat : str) (c : ascii) (p post : str) :
  strip_prefix pat (c :: p ++ post) = None ->
  clear_before pat p post ->
  clear_before pat (c :: p) post.
Proof.
  intros H Hp [|x p1] l E Hl; simpl in E.
  - now subst l.
  - inversion E; subst. now apply (Hp p1 l).
Qed.

Lemma clear_before_longer (p1 p2 p post : str) :
  clear_before p1 p post -> clear_before (p1 ++ p2) p post.
Proof.
  intros H q l E Hl. specialize (H q l E Hl).
  destruct (strip_prefix (p1 ++ p2) (l ++ post)) eqn:F; [|reflexivity].
  apply strip_prefix_split in F as [r' F]. congruence.
Qed.

Lemma clear_before_app (pat x y post : str) :
  clear_before pat x (y ++ post) ->
  clear_before pat y post ->
  clear_before pat (x ++ y) post.
Proof.
  intros Hx Hy. induction x as [|c x IH]; [assumption|].
  simpl. apply clear_before_cons.
  - rewrite <- app_assoc.
    apply (Hx [] (c :: x) eq_refl). discriminate.
  - apply IH. intros p1 l E Hl. apply (Hx (c :: p1) l); [|assumption].
    now rewrite E.
Qed.

(** Inside text that holds no occurrence, none starts that would run over
    into what follows, when what follows begins with a character the pattern
    has only in first place or not at all. *)
Lemma inside_None (pat b post : str) :
  occurs pat b = false ->
  (forall c, hd_error post = Some c -> ~ In c (tl pat)) ->
  clear_before pat b post.
Proof.
  intros Ho Hpost p l E Hl.
  pose proof (occurs_false_at _ _ Ho p l E) as H.
  destruct l as [|x l]; [congruence|].
  destruct pat as [|a pat]; [discriminate|]. simpl in *.
  destruct (Ascii.eqb a x); [|reflexivity].
  now apply strip_prefix_app_None.
Qed.

Lemma clear_app (pat b post : str) :
  occurs pat b = false ->
  (forall c, hd_error post = Some c -> ~ In c (tl pat)) ->
  clear pat post ->
  clear pat (b ++ post).
Proof.
  intros Ho Hpost Hc. induction b as [|c b IH]; [assumption|].
  apply clear_cons.
  - apply (inside_None pat (c :: b) post Ho Hpost [] (c :: b) eq_refl).
    discriminate.
  - apply IH. unfold occurs in *.
    destruct (find_sub pat (c :: b)) eqn:E; [discriminate|].
    now rewrite (find_sub_None_tail _ _ _ E).
Qed.

Lemma re_sub_clear St (m : matcher) (repl : list str -> St -> str * St)
    (pat s : str) (prev : option ascii) (st : St) :
  starts_with m pat -> clear pat s ->
  re_sub_from m repl prev 0 s st = (s, st).
Proof.
  intros Hm Hc. apply re_sub_nomatch.
  intros p l prev' E _. apply Hm. now apply (Hc p l).
Qed.

Lemma re_search_clear (m : matcher) (pat s : str) (prev : option ascii) :
  starts_with m pat -> clear pat s -> re_search_from m prev s = None.
Proof.
  intros Hm. revert prev. induction s as [|c s IH]; intros prev Hc; simpl.
  - now rewrite (Hm prev [] (Hc [] [] eq_refl)).
  - rewrite (Hm prev (c :: s) (Hc [] (c :: s) eq_refl)).
    rewrite IH; [reflexivity|].
    intros p l E. apply (Hc (c :: p) l). now rewrite E.
Qed.

Lemma replace_clear (old new s : str) :
  clear old s -> replace_from old new 0 s = s.
Proof.
  intros Hc. rewrite <- (app_nil_r s) at 1.
  rewrite replace_nomatch_app; [simpl; now rewrite app_nil_r|].
  intros p1 l E _. rewrite app_nil_r. now apply (Hc p1 l).
Qed.

Ltac prefix_matcher :=
  let prev := fresh "prev" in
  let l := fresh "l" in
  let H := fresh "H" in
  intros prev l H; cbv beta delta [align_re env_re display_re inline_re
    references_search_re references_heading];
  try rewrite H; try reflexivity.

Lemma align_re_starts : starts_with align_re begin_align.
Proof. prefix_matcher. Qed.

Lemma env_re_starts : starts_with env_re (lit "\begin{").
Proof. prefix_matcher. Qed.

Lemma display_re_starts : starts_with display_re (lit "$$").
Proof. prefix_matcher. Qed.

Lemma inline_re_starts : starts_with inline_re (lit "$").
Proof. prefix_matcher. now destruct (not_after "$" prev). Qed.

Lemma references_re_starts : starts_with references_search_re (lit "#").
Proof.
  intros prev l H. unfold references_search_re, references_heading.
  destruct (at_line_start prev); [|reflexivity].
  destruct l as [|c l]; [reflexivity|].
  change (strip_prefix (lit "#") (c :: l))
    with (if Ascii.eqb "#" c then Some l else None) in H.
  cbn [take_while].
  destruct (Ascii.eqb "#" c); [discriminate|reflexivity].
Qed.

(** Solves [clear pat s] for a text [s] that is written out, possibly
    around one part [b] known to hold no occurrence. *)
Ltac clear_tac :=
  repeat first
    [ apply clear_nil; discriminate
    | apply clear_cons; [reflexivity|]
    | apply clear_app;
        [assumption | simpl; intros ? [= <-]; simpl; intuition discriminate |] ].

(** ** One display-math block *)

Lemma split_references_clear (s : str) :
  clear (lit "#") s -> split_references s = Some (s, None).
Proof.
  intros H. unfold split_references, re_search.
  now rewrite (re_search_clear _ _ _ _ references_re_starts H).
Qed.




(** ** One display-math block inside other text *)

Lemma clear_of_occurs (pat s : str) : occurs pat s = false -> clear pat s.
Proof. intros H p l E. now apply (occurs_false_at pat s H p l). Qed.

Lemma re_sub_clear_before St (m : matcher)
    (repl : list str -> St -> str * St) (pat p s : str)
    (prev : option ascii) (st : St) :
  starts_with m pat -> clear_before pat p s ->
  re_sub_from m repl prev 0 (p ++ s) st
  = let (out, st') := re_sub_from m repl (last_seen prev p) 0 s st in
    (p ++ out, st').
Proof.
  intros Hm Hc. apply re_sub_nomatch_app.
  intros p1 l prev' E Hl. apply Hm. now apply (Hc p1 l).
Qed.

Lemma display_re_block_then (prev : option ascii) (b post : str) :
  occurs (lit "$") b = false ->
  display_re prev ((lit "$$" ++ b ++ lit "$$") ++ post)
  = Some ([b], length (lit "$$" ++ b ++ lit "$$")).
Proof.
  intros H. unfold display_re.
  rewrite <- !app_assoc. rewrite strip_prefix_app.
  rewrite find_sub_first.
  - rewrite !length_app. simpl. repeat f_equal; lia.
  - apply (clear_before_longer (lit "$") (lit "$")).
    apply inside_None; [assumption|]. simpl. intros ? _ [].
Qed.

(** The extractor on text without mathematics around one display block: the
    block leaves the text, its token takes its place. *)
Lemma extract_display_in_text (pre b post : str) :
  occurs (lit "$") pre = false ->
  occurs (lit "$") b = false ->
  occurs (lit "$") post = false ->
  occurs (lit "\begin{") (pre ++ lit "$$" ++ b ++ lit "$$" ++ post) = false ->
  extract_math (pre ++ lit "$$" ++ b ++ lit "$$" ++ post) no_math
  = (pre ++ placeholder_format 0 display ++ post, store display b no_math).
Proof.
  intros Hp Hb Hq He. unfold extract_math, re_sub_st.
  rewrite (re_sub_clear _ align_re _ (lit "\begin{" ++ lit "align}"));
    [|apply align_re_starts|now apply clear_longer, clear_of_occurs].
  rewrite (re_sub_clear _ env_re _ (lit "\begin{"));
    [|apply env_re_starts|now apply clear_of_occurs].
  rewrite (re_sub_clear_before _ display_re _ (lit "$$") pre);
    [|apply display_re_starts|].
  2:{ apply (clear_before_longer (lit "$") (lit "$")).
      apply inside_None; [assumption|]. simpl. intros ? _ []. }
  replace (lit "$$" ++ b ++ lit "$$" ++ post)
    with ((lit "$$" ++ b ++ lit "$$") ++ post)
    by now rewrite <- !app_assoc.
  rewrite (re_sub_match_head _ display_re extract_display_math
             (lit "$$" ++ b ++ lit "$$") post [b] (last_seen None pre) no_math
             (store display b no_math) (placeholder_format 0 display));
    [|discriminate|now apply display_re_block_then|reflexivity].
  rewrite (re_sub_clear _ display_re _ (lit "$" ++ lit "$"));
    [|apply display_re_starts|now apply clear_longer, clear_of_occurs].
  rewrite (re_sub_clear _ inline_re _ (lit "$")); [reflexivity|apply inline_re_starts|].
  apply clear_app; [assumption|simpl; intros ? _ []|].
  change (placeholder_format 0 display)
    with (lit "MATH_PLACEHOLDER_0_TYPE_display").
  cbn [lit list_ascii_of_string app].
  repeat (apply clear_cons; [reflexivity|]).
  now apply clear_of_occurs.
Qed.

Lemma convert_display_in_text (pre b post : str) :
  occurs (lit "$") pre = false ->
  occurs (lit "$") b = false ->
  occurs (lit "$") post = false ->
  occurs (lit "\begin{") (pre ++ lit "$$" ++ b ++ lit "$$" ++ post) = false ->
  occurs (lit "#") (pre ++ lit "$$" ++ b ++ lit "$$" ++ post) = false ->
  convert_markdown_to_html (pre ++ lit "$$" ++ b ++ lit "$$" ++ post)
  = Some (str_replace (placeholder_format 0 display) (replacement display b)
            (render_main (pre ++ placeholder_format 0 display ++ post))
          ++ mathjax_script).
Proof.
  intros Hp Hb Hq He Hh.
  rewrite (convert_stages _ (pre ++ lit "$$" ++ b ++ lit "$$" ++ post)
             (pre ++ placeholder_format 0 display ++ post) None
             (store display b no_math)).
  - reflexivity.
  - now apply split_references_clear, clear_of_occurs.
  - now apply extract_display_in_text.
Qed.

(** ** One align environment *)

Lemma str_replace_nonempty (old new s : str) :
  old <> [] -> str_replace old new s = replace_from old new 0 s.
Proof. now destruct old. Qed.

Lemma replace_first (old new p s : str) :
  old <> [] ->
  clear_before old p (old ++ s) ->
  replace_from old new 0 (p ++ old ++ s)
  = p ++ new ++ replace_from old new 0 s.
Proof.
  intros Ho Hp. rewrite replace_nomatch_app by exact Hp.
  now rewrite replace_match_head.
Qed.

Lemma align_re_block (prev : option ascii) (b : str) :
  occurs (lit "\end{") b = false ->
  align_re prev (begin_align ++ b ++ end_align)
  = Some ([b], length (begin_align ++ b ++ end_align)).
Proof.
  intros H. unfold align_re. rewrite strip_prefix_app.
  replace (b ++ end_align) with (b ++ end_align ++ [])
    by now rewrite app_nil_r.
  rewrite find_sub_first.
  - rewrite !length_app. simpl. repeat f_equal; lia.
  - apply (clear_before_longer (lit "\end{") (lit "align}")).
    apply inside_None; [assumption|].
    simpl. intros ? [= <-]. simpl. intuition discriminate.
Qed.

(** What the align callback stores for a body without environment tags. *)
Lemma align_content (b : str) :
  occurs (lit "\begin{") b = false ->
  occurs (lit "\end{") b = false ->
  str_replace end_align end_align_star
    (str_replace begin_align begin_align_star (begin_align ++ b ++ end_align))
  = begin_align_star ++ b ++ end_align_star.
Proof.
  intros Hb He. rewrite !str_replace_nonempty by discriminate.
  rewrite replace_match_head by discriminate.
  rewrite (replace_clear begin_align).
  - transitivity (replace_from end_align end_align_star 0
                    ((begin_align_star ++ b) ++ end_align ++ [])).
    { now rewrite app_nil_r, <- app_assoc. }
    rewrite replace_first; [now rewrite <- app_assoc|discriminate|].
    apply clear_before_app.
    + cbv [begin_align_star lit list_ascii_of_string].
      repeat (apply clear_before_cons; [reflexivity|]).
      apply clear_before_nil.
    + apply (clear_before_longer (lit "\end{") (lit "align}")).
      apply inside_None; [assumption|].
      simpl. intros ? [= <-]. simpl. intuition discriminate.
  - apply (clear_longer (lit "\begin{") (lit "align}")).
    cbn [end_align lit list_ascii_of_string]. clear_tac.
Qed.

Lemma extract_align_block (b : str) :
  occurs (lit "\begin{") b = false ->
  occurs (lit "\end{") b = false ->
  extract_math (begin_align ++ b ++ end_align) no_math
  = (placeholder_format 0 align,
     store align (begin_align_star ++ b ++ end_align_star) no_math).
Proof.
  intros Hb He. unfold extract_math, re_sub_st.
  replace (begin_align ++ b ++ end_align)
    with ((begin_align ++ b ++ end_align) ++ []) by now rewrite app_nil_r.
  rewrite (re_sub_match_head _ align_re extract_align_env
             (begin_align ++ b ++ end_align) [] [b] None no_math
             (store align (begin_align_star ++ b ++ end_align_star) no_math)
             (placeholder_format 0 align)).
  - cbn [re_sub_from]. rewrite app_nil_r.
    generalize (store align (begin_align_star ++ b ++ end_align_star) no_math).
    intros st. vm_compute. reflexivity.
  - discriminate.
  - rewrite app_nil_r. now apply align_re_block.
  - unfold extract_align_env. cbn [group nth].
    now rewrite align_content.
Qed.

Lemma convert_align_block (b : str) :
  occurs (lit "\begin{") b = false ->
  occurs (lit "\end{") b = false ->
  occurs (lit "#") b = false ->
  convert_markdown_to_html (begin_align ++ b ++ end_align)
  = Some (lit "<p>"
          ++ replacement align (begin_align_star ++ b ++ end_align_star)
          ++ lit "</p>" ++ mathjax_script).
Proof.
  intros Hb He Hh.
  rewrite (convert_stages _ (begin_align ++ b ++ end_align)
             (placeholder_format 0 align) None
             (store align (begin_align_star ++ b ++ end_align_star) no_math)).
  - cbn [store math_blocks no_math app has_blocks restore restore_from
           add_references].
    assert (E : forall R,
      str_replace (placeholder_format 0 align) R
        (render_main (placeholder_format 0 align))
      = lit "<p>" ++ R ++ lit "</p>") by (intros R; vm_compute; reflexivity).
    rewrite E. now rewrite <- !app_assoc.
  - apply split_references_clear.
    cbn [begin_align end_align lit list_ascii_of_string app]. clear_tac.
  - now apply extract_align_block.
Qed.

(** ** One align environment inside other text *)

Lemma align_re_block_then (prev : option ascii) (b post : str) :
  occurs (lit "\end{") b = false ->
  align_re prev ((begin_align ++ b ++ end_align) ++ post)
  = Some ([b], length (begin_align ++ b ++ end_align)).
Proof.
  intros H. unfold align_re.
  rewrite <- !app_assoc. rewrite strip_prefix_app.
  rewrite find_sub_first.
  - rewrite !length_app. simpl. repeat f_equal; lia.
  - apply (clear_before_longer (lit "\end{") (lit "align}")).
    apply inside_None; [assumption|].
    simpl. intros ? [= <-]. simpl. intuition discriminate.
Qed.

Ltac clear_around_token :=
  apply clear_app;
    [assumption | simpl; intros ? [= <-]; simpl; intuition discriminate |];
  cbn [lit list_ascii_of_string app];
  repeat (apply clear_cons; [reflexivity|]);
  now apply clear_of_occurs.

Lemma extract_align_in_text (pre b post : str) :
  occurs (lit "\begin{") pre = false ->
  occurs (lit "\begin{") b = false ->
  occurs (lit "\end{") b = false ->
  occurs (lit "\begin{") post = false ->
  occurs (lit "$") pre = false ->
  occurs (lit "$") post = false ->
  extract_math (pre ++ begin_align ++ b ++ end_align ++ post) no_math
  = (pre ++ placeholder_format 0 align ++ post,
     store align (begin_align_star ++ b ++ end_align_star) no_math).
Proof.
  intros Hp Hb He Hq Dp Dq. unfold extract_math, re_sub_st.
  rewrite (re_sub_clear_before _ align_re _ begin_align pre);
    [|apply align_re_starts|].
  2:{ apply (clear_before_longer (lit "\begin{") (lit "align}")).
      apply inside_None; [assumption|].
      simpl. intros ? [= <-]. simpl. intuition discriminate. }
  replace (begin_align ++ b ++ end_align ++ post)
    with ((begin_align ++ b ++ end_align) ++ post)
    by now rewrite <- !app_assoc.
  rewrite (re_sub_match_head _ align_re extract_align_env
             (begin_align ++ b ++ end_align) post [b] (last_seen None pre)
             no_math
             (store align (begin_align_star ++ b ++ end_align_star) no_math)
             (placeholder_format 0 align));
    [|discriminate|now apply align_re_block_then|].
  2:{ unfold extract_align_env. cbn [group nth]. now rewrite align_content. }
  rewrite (re_sub_clear _ align_re _ (lit "\begin{" ++ lit "align}"));
    [|apply align_re_starts|now apply clear_longer, clear_of_occurs].
  change (placeholder_format 0 align) with (lit "MATH_PLACEHOLDER_0_TYPE_align").
  rewrite (re_sub_clear _ env_re _ (lit "\begin{"));
    [|apply env_re_starts|clear_around_token].
  rewrite (re_sub_clear _ display_re _ (lit "$" ++ lit "$"));
    [|apply display_re_starts|apply clear_longer; clear_around_token].
  rewrite (re_sub_clear _ inline_re _ (lit "$"));
    [reflexivity|apply inline_re_starts|clear_around_token].
Qed.

Lemma convert_align_in_text (pre b post : str) :
  occurs (lit "\begin{") pre = false ->
  occurs (lit "\begin{") b = false ->
  occurs (lit "\end{") b = false ->
  occurs (lit "\begin{") post = false ->
  occurs (lit "$") pre = false ->
  occurs (lit "$") post = false ->
  occurs (lit "#") (pre ++ begin_align ++ b ++ end_align ++ post) = false ->
  convert_markdown_to_html (pre ++ begin_align ++ b ++ end_align ++ post)
  = Some (str_replace (placeholder_format 0 align)
            (replacement align (begin_align_star ++ b ++ end_align_star))
            (render_main (pre ++ placeholder_format 0 align ++ post))
          ++ mathjax_script).
Proof.
  intros Hp Hb He Hq Dp Dq Hh.
  rewrite (convert_stages _ (pre ++ begin_align ++ b ++ end_align ++ post)
             (pre ++ placeholder_format 0 align ++ post) None
             (store align (begin_align_star ++ b ++ end_align_star) no_math)).
  - reflexivity.
  - now apply split_references_clear, clear_of_occurs.
  - now apply extract_align_in_text.
Qed.

Lemma escaped_content (content : str) :
  str_replace [backslash] [backslash; backslash] content
  = flat_map escape_char content.
Proof. apply replace_char. Qed.

Lemma replacement_by_kind (content : str) :
  replacement align content
  = lit "$$" ++ flat_map escape_char content ++ lit "$$"
  /\ replacement env content
     = lit "$$" ++ flat_map escape_char content ++ lit "$$"
  /\ replacement display content
     = lit "$$" ++ flat_map escape_char content ++ lit "$$"
  /\ replacement inline content
     = lit "$" ++ flat_map escape_char content ++ lit "$".
Proof.
  unfold replacement. now rewrite escaped_content.
Qed.

Lemma replacement_align_star (b : str) :
  replacement align (begin_align_star ++ b ++ end_align_star)
  = lit "$$\\begin{align*}" ++ flat_map escape_char b ++ lit "\\end{align*}$$".
Proof.
  destruct (replacement_by_kind (begin_align_star ++ b ++ end_align_star))
    as (-> & _).
  rewrite !flat_map_app.
  cbn [lit list_ascii_of_string app]. now rewrite <- !app_assoc.
Qed.

Lemma restore_from_last (i : nat) (blocks : list (kind * str)) (k : kind)
    (c text : str) :
  restore_from i (blocks ++ [(k, c)]) text
  = str_replace (placeholder_format (i + length blocks) k) (replacement k c)
      (restore_from i blocks text).
Proof.
  revert i text; induction blocks as [|[k' c'] blocks IH]; intros i text; simpl.
  - now rewrite Nat.add_0_r.
  - rewrite IH. now rewrite Nat.add_succ_r.
Qed.

(** ** The blockquote wrapper *)

Lemma blockquote_nesting_last (es : list emitted) (e : emitted) :
  blockquote_nesting (es ++ [e]) = blockquote_step (blockquote_nesting es) e.
Proof. unfold blockquote_nesting. now rewrite fold_left_app. Qed.

Lemma scan_line_tracked (st : RenderState) (line : str) :
  blockquote_tracked st -> blockquote_tracked (scan_line st line).
Proof.
  unfold blockquote_tracked, scan_line. intros H.
  destruct st as [il ib res]; cbn [in_blockquote in_list result] in *.
  destruct (startswith (lit ">") (strip line));
    [|destruct (startswith (lit "- ") (strip line))];
    destruct ib, il;
    cbn [append set_in_blockquote set_in_list in_blockquote in_list result
           negb];
    rewrite ?blockquote_nesting_last, H; reflexivity.
Qed.

Lemma scan_lines_tracked (lines : list str) (st : RenderState) :
  blockquote_tracked st -> blockquote_tracked (fold_left scan_line lines st).
Proof.
  revert st; induction lines as [|l lines IH]; intros st H; simpl.
  - assumption.
  - apply IH. now apply scan_line_tracked.
Qed.

Lemma render_blocks_flat (text : str) :
  blockquote_nesting (render_blocks text) = Some false.
Proof.
  unfold render_blocks, close_open.
  pose proof (scan_lines_tracked (split_lines text) render_start eq_refl) as H.
  fold (scan_lines (split_lines text)) in H.
  destruct (scan_lines (split_lines text)) as [il ib res].
  unfold blockquote_tracked in H; cbn [in_blockquote in_list result] in *.
  destruct il, ib;
    cbn [append set_in_blockquote set_in_list in_blockquote in_list result];
    rewrite ?blockquote_nesting_last, H; reflexivity.
Qed.

Lemma lstrip_gt_markers (n : nat) (t : str) :
  startswith (lit ">") t = false ->
  lstrip_gt (repeat ">"%char n ++ t) = t.
Proof.
  intros H. induction n as [|n IH]; simpl.
  - destruct t as [|c t]; [reflexivity|].
    unfold lstrip_gt; cbn [drop_while].
    unfold startswith in H.
    cbn [strip_prefix lit list_ascii_of_string] in H.
    now destruct (Ascii.eqb ">" c).
  - exact IH.
Qed.

(** ** Placeholder tokens *)

Lemma list_ascii_of_string_inj (a b : string) :
  list_ascii_of_string a = list_ascii_of_string b -> a = b.
Proof.
  intros H. rewrite <- (string_of_list_ascii_of_string a).
  rewrite <- (string_of_list_ascii_of_string b). now rewrite H.
Qed.

Lemma str_of_nat_inj (i j : nat) : str_of_nat i = str_of_nat j -> i = j.
Proof.
  unfold str_of_nat. intros H. apply list_ascii_of_string_inj in H.
  apply DecimalNat.Unsigned.to_uint_inj.
  pose proof (NilEmpty.usu (Nat.to_uint i)) as Hi.
  pose proof (NilEmpty.usu (Nat.to_uint j)) as Hj.
  rewrite H in Hi. congruence.
Qed.

Lemma string_of_uint_digits (d : Decimal.uint) :
  forallb is_digit (list_ascii_of_string (NilEmpty.string_of_uint d)) = true.
Proof. induction d; simpl; auto. Qed.

Lemma str_of_nat_digits (n : nat) : forallb is_digit (str_of_nat n) = true.
Proof. apply string_of_uint_digits. Qed.

(** A run of digits is determined by the text it starts, when something
    other than a digit follows it. *)
Lemma digits_split (d1 d2 r1 r2 : str) (c1 c2 : ascii) :
  forallb is_digit d1 = true -> forallb is_digit d2 = true ->
  is_digit c1 = false -> is_digit c2 = false ->
  d1 ++ c1 :: r1 = d2 ++ c2 :: r2 ->
  d1 = d2 /\ c1 :: r1 = c2 :: r2.
Proof.
  revert d2; induction d1 as [|a d1 IH]; intros [|b d2]; simpl;
    intros H1 H2 N1 N2 E.
  - auto.
  - inversion E; subst. apply andb_true_iff in H2 as [H2 _]. congruence.
  - inversion E; subst. apply andb_true_iff in H1 as [H1 _]. congruence.
  - inversion E; subst.
    apply andb_true_iff in H1 as [_ H1]. apply andb_true_iff in H2 as [_ H2].
    destruct (IH d2 H1 H2 N1 N2 H3) as [-> ?]. auto.
Qed.

Lemma placeholder_tail_no_M (i : nat) (k : kind) :
  ~ In "M"%char (tl (placeholder_format i k)).
Proof.
  unfold placeholder_format. cbn [lit list_ascii_of_string app tl].
  intros H.
  repeat (destruct H as [H|H]; [discriminate|]).
  apply in_app_or in H as [H|H].
  - pose proof (str_of_nat_digits i) as D.
    rewrite forallb_forall in D. specialize (D _ H). discriminate.
  - repeat (destruct H as [H|H]; [discriminate|]).
    destruct k; cbn in H; intuition discriminate.
Qed.

(** A token occurs in a token only as the whole of it. *)
Lemma placeholder_inside (i j : nat) (k k' : kind) :
  occurs (placeholder_format i k) (placeholder_format j k') = true ->
  i = j /\ k = k'.
Proof.
  unfold occurs.
  destruct (find_sub _ _) as [[x y]|] eqn:F; [intros _|discriminate].
  apply find_sub_Some in F.
  destruct x as [|c x].
  - unfold placeholder_format in F. cbn [app] in F.
    rewrite <- !app_assoc in F.
    apply app_inv_head in F.
    cbn [lit list_ascii_of_string app] in F.
    apply digits_split in F;
      [|apply str_of_nat_digits|apply str_of_nat_digits|reflexivity..].
    destruct F as [D F]. symmetry in D. apply str_of_nat_inj in D.
    split; [assumption|].
    destruct k, k'; cbn in F; first [reflexivity | discriminate].
  - exfalso. apply (placeholder_tail_no_M j k').
    rewrite F. cbn [app tl]. apply in_or_app. right.
    apply in_or_app. left. unfold placeholder_format. now left.
Qed.

Lemma callbacks_index (gs : list str) (st : extraction) :
  (fst (extract_align_env gs st)
   = placeholder_format (length (math_blocks st)) align
   /\ exists c, math_blocks (snd (extract_align_env gs st))
                = math_blocks st ++ [(align, c)])
  /\ (fst (extract_other_env gs st)
      = placeholder_format (length (math_blocks st)) env
      /\ math_blocks (snd (extract_other_env gs st))
         = math_blocks st ++ [(env, group 0 gs)])
  /\ (fst (extract_display_math gs st)
      = placeholder_format (length (math_blocks st)) display
      /\ math_blocks (snd (extract_display_math gs st))
         = math_blocks st ++ [(display, group 1 gs)])
  /\ (fst (extract_inline_math gs st)
      = placeholder_format (length (math_blocks st)) inline
      /\ math_blocks (snd (extract_inline_math gs st))
         = math_blocks st ++ [(inline, group 1 gs)]).
Proof.
  repeat split. eexists. reflexivity.
Qed.

Lemma occurs_self (p : str) : occurs p p = true.
Proof.
  unfold occurs. pose proof (find_sub_complete p [] []) as H.
  simpl in H. rewrite app_nil_r in H.
  now destruct (find_sub p p).
Qed.

(** ** Words the renderer leaves whole *)

Section Words.

Variable w : str.
Hypothesis w_inert : forallb inert w = true.
Hypothesis w_nonempty : w <> [].

Lemma keeps_compose (f g : str -> str) :
  keeps w f -> keeps w g -> keeps w (fun s => g (f s)).
Proof.
  intros Hf Hg x y. destruct (Hf x y) as (x1 & y1 & ->). apply Hg.
Qed.

Lemma word_after_delimiter (d X u v : str) :
  forallb (fun c => negb (inert c)) d = true ->
  d ++ X = u ++ w ++ v ->
  exists u1, u = d ++ u1 /\ X = u1 ++ w ++ v.
Proof.
  revert u; induction d as [|c d IH]; intros u Hd E; simpl in *.
  - eauto.
  - apply andb_true_iff in Hd as [Hc Hd].
    destruct u as [|c' u]; simpl in E.
    + destruct w as [|a w']; [congruence|]. simpl in *.
      inversion E; subst. apply andb_true_iff in w_inert as [Ha _].
      rewrite Ha in Hc. discriminate.
    + inversion E; subst. destruct (IH u Hd H1) as (u1 & -> & ->). eauto.
Qed.

Lemma word_prefix (ww v g D : str) :
  forallb inert ww = true -> stops D = true ->
  ww ++ v = g ++ D ->
  exists l, g = ww ++ l /\ v = l ++ D.
Proof.
  revert g; induction ww as [|a ww IH]; intros g Hw HD E; simpl in *.
  - eauto.
  - apply andb_true_iff in Hw as [Ha Hw].
    destruct g as [|c g]; simpl in E.
    + subst D. simpl in HD. rewrite Ha in HD. discriminate.
    + inversion E; subst. destruct (IH g Hw HD H1) as (l & -> & ->). eauto.
Qed.

Lemma word_split (u v g D : str) :
  stops D = true ->
  u ++ w ++ v = g ++ D ->
  (exists l, g = u ++ w ++ l /\ v = l ++ D)
  \/ (exists l, u = g ++ l /\ l ++ w ++ v = D).
Proof.
  revert u; induction g as [|c g IH]; intros u HD E; simpl in *.
  - right. eauto.
  - destruct u as [|c' u]; simpl in E.
    + left. apply (word_prefix w v (c :: g) D w_inert HD E).
    + inversion E; subst. destruct (IH u HD H1) as [(l & Hg & Hv)|(l & Hu & Hl)].
      * left. exists l. subst. auto.
      * right. exists l. subst. auto.
Qed.

Lemma shaped_covers (m : matcher) (T : list str -> str) :
  shaped m T ->
  forall prev u v gs n,
    m prev (u ++ w ++ v) = Some (gs, n) ->
    n <= length u
    \/ (forall g0, exists a b, T (g0 :: gs) = a ++ w ++ b).
Proof.
  intros Hs prev u v gs n Hm.
  destruct (Hs _ _ _ _ Hm)
    as (d0 & g1 & d1 & g2 & d2 & rest & E & -> & S0 & S1 & S2 & P1 & P2 & T1 & T2).
  symmetry in E.
  destruct (word_after_delimiter d0 _ u v S0 E) as (u1 & -> & E1).
  symmetry in E1.
  destruct (word_split u1 v g1 _ P1 E1) as [(l & -> & _)|(l1 & -> & E2)].
  { right. intros g0. destruct (T1 g0) as (a & b & ->).
    exists (a ++ u1), (l ++ b). now rewrite <- !app_assoc. }
  symmetry in E2.
  destruct (word_after_delimiter d1 _ l1 v S1 E2) as (u2 & -> & E3).
  symmetry in E3.
  destruct (word_split u2 v g2 _ P2 E3) as [(l & -> & _)|(l2 & -> & E4)].
  { right. intros g0. destruct (T2 g0) as (a & b & ->).
    exists (a ++ u2), (l ++ b). now rewrite <- !app_assoc. }
  symmetry in E4.
  destruct (word_after_delimiter d2 _ l2 v S2 E4) as (u3 & -> & _).
  left. rewrite !length_app. lia.
Qed.

Lemma starts_special (m : matcher) (c : ascii) :
  starts_with m [c] -> inert c = false -> never_inside w m.
Proof.
  intros Hm Hc prev w1 w2 v E H2. apply Hm.
  destruct w2 as [|a w2]; [congruence|]. simpl.
  destruct (Ascii.eqb_spec c a) as [->|]; [|reflexivity].
  rewrite E, forallb_app in w_inert. simpl in w_inert.
  apply andb_true_iff in w_inert as [_ H].
  apply andb_true_iff in H as [H _]. congruence.
Qed.

Lemma re_sub_skip_part St (m : matcher) (repl : list str -> St -> str * St)
    (k : nat) (x s : str) (prev : option ascii) (st : St) :
  k <= length x ->
  re_sub_from m repl prev k (x ++ s) st
  = re_sub_from m repl (last_seen prev (firstn k x)) 0 (skipn k x ++ s) st.
Proof.
  intros H. rewrite <- (re_sub_skip St m repl (firstn k x)).
  rewrite app_assoc, firstn_skipn, length_firstn.
  now replace (Nat.min k (length x)) with k by lia.
Qed.

Lemma re_sub_keeps (m : matcher) (T : list str -> str) :
  never_inside w m -> shaped m T -> keeps w (re_sub m T).
Proof.
  intros Hn Hs x y. unfold re_sub, re_sub_st.
  generalize (@None ascii). 
  induction x as [x IH] using (induction_ltof1 _ (@length ascii)).
  unfold ltof in IH. intros prev.
  destruct x as [|c x].
  - simpl app.
    rewrite (re_sub_nomatch_app unit m _ w y prev tt).
    + destruct (re_sub_from m _ (last_seen prev w) 0 y tt) as [out st].
      exists [], out. reflexivity.
    + intros p1 l prev' E Hl. now apply (Hn prev' p1 l y).
  - cbn [app re_sub_from].
    destruct (m prev (c :: x ++ w ++ y)) as [[gs n]|] eqn:Hm.
    + destruct (shaped_covers m T Hs prev (c :: x) y gs n Hm) as [Hle|Hc].
      * destruct n as [|k].
        -- destruct (IH x ltac:(simpl; lia) (Some c)) as (x' & y' & E).
           destruct (re_sub_from m _ (Some c) 0 (x ++ w ++ y) tt) as [out st].
           simpl in E. subst out.
           exists (T (firstn 0 (c :: x ++ w ++ y) :: gs) ++ c :: x'), y'.
           simpl. now rewrite <- !app_assoc.
        -- simpl in Hle.
           rewrite re_sub_skip_part by lia.
           destruct (IH (skipn k x)
                       ltac:(simpl; rewrite length_skipn; lia)
                       (last_seen (Some c) (firstn k x))) as (x' & y' & E).
           destruct (re_sub_from m _ _ 0 (skipn k x ++ w ++ y) tt) as [out st].
           simpl in E. subst out.
           exists (T (firstn (S k) (c :: x ++ w ++ y) :: gs) ++ x'), y'.
           cbn [fst]. now rewrite <- app_assoc.
      * destruct (Hc (firstn n (c :: x ++ w ++ y))) as (a & b & E).
        rewrite E.
        destruct n as [|k].
        -- destruct (re_sub_from m _ (Some c) 0 (x ++ w ++ y) tt) as [out st].
           exists a, (b ++ c :: out). simpl. now rewrite <- !app_assoc.
        -- destruct (re_sub_from m _ (Some c) k (x ++ w ++ y) tt) as [out st].
           exists a, (b ++ out). simpl. now rewrite <- !app_assoc.
    + destruct (IH x ltac:(simpl; lia) (Some c)) as (x' & y' & E).
      destruct (re_sub_from m _ (Some c) 0 (x ++ w ++ y) tt) as [out st].
      simpl in E. subst out. exists (c :: x'), y'. reflexivity.
Qed.

End Words.

Lemma drop_while_head (p : ascii -> bool) (s : str) (d : ascii)
    (r : str) :
  drop_while p s = d :: r -> p d = false.
Proof.
  induction s as [|c s IH]; simpl; [discriminate|].
  destruct (p c) eqn:E; [assumption|]. intros [= <- <-]. assumption.
Qed.

Lemma neqb_false (a b : ascii) : neqb a b = false -> a = b.
Proof.
  unfold neqb. destruct (Ascii.eqb_spec a b); [auto|discriminate].
Qed.

Lemma special_hashes (n : nat) : special (repeat "#" n ++ lit " ") = true.
Proof. induction n; simpl; auto. Qed.

Lemma in_tail (T : list str -> str) (gs : list str) :
  forall g0 : str, exists a b, T (g0 :: gs) = a ++ [] ++ b.
Proof. intros g0. exists (T (g0 :: gs)), []. now rewrite app_nil_r. Qed.

Ltac no_second_group :=
  intros ?;
  match goal with
  | |- exists a b, ?X = _ =>
      exists X, (@nil ascii); cbn [app]; now rewrite app_nil_r
  end.

Ltac shape_parts d0 g1 d2 rest :=
  exists d0, g1, (@nil ascii), (@nil ascii), d2, rest.

Lemma paren_shaped (T : list str -> str) :
  one_group T -> shaped paren_re T.
Proof.
  intros HT prev s gs n H. unfold paren_re in H.
  destruct (strip_prefix (lit "(") s) as [r|] eqn:E; [|discriminate].
  apply strip_prefix_Some in E.
  destruct (drop_while (neqb ")") r) as [|d r'] eqn:D; [discriminate|].
  inversion H; subst; clear H.
  pose proof (take_drop_while (neqb ")") r) as R. rewrite D in R.
  apply drop_while_head, neqb_false in D. subst d.
  shape_parts (lit "(") (take_while (neqb ")") r) [")"] r'.
  repeat split; try reflexivity.
  - rewrite R at 1. reflexivity.
  - rewrite !length_app. simpl. lia.
  - intros g0. apply HT.
  - no_second_group.
Qed.

Lemma citation_shaped (T : list str -> str) :
  one_group T -> shaped citation_re T.
Proof.
  intros HT prev s gs n H. unfold citation_re in H.
  destruct (strip_prefix (lit "[") s) as [r|] eqn:E; [|discriminate].
  apply strip_prefix_Some in E.
  destruct (take_while is_digit r) as [|g ds] eqn:Tk; [discriminate|].
  destruct (drop_while is_digit r) as [|d r'] eqn:D; [discriminate|].
  destruct (Ascii.eqb_spec d "]") as [->|]; [|discriminate].
  inversion H; subst; clear H.
  pose proof (take_drop_while is_digit r) as R. rewrite D, Tk in R.
  shape_parts (lit "[") (g :: ds) ["]"] r'.
  repeat split; try reflexivity.
  - rewrite R at 1. reflexivity.
  - rewrite !length_app. simpl. lia.
  - intros g0. apply HT.
  - no_second_group.
Qed.

Lemma heading_shaped (level : nat) :
  shaped (heading_re level) (heading_tag level).
Proof.
  intros prev s gs n H. unfold heading_re in H.
  destruct (at_line_start prev); [|discriminate].
  destruct (strip_prefix _ s) as [r|] eqn:E; [|discriminate].
  apply strip_prefix_Some in E.
  destruct (take_while not_nl r) as [|g body] eqn:Tk; [discriminate|].
  inversion H; subst; clear H.
  pose proof (take_drop_while not_nl r) as R. rewrite Tk in R.
  shape_parts (repeat "#" level ++ lit " ") (g :: body) (@nil ascii)
    (drop_while not_nl r).
  assert (St : stops (drop_while not_nl r) = true).
  { destruct (drop_while not_nl r) as [|d r'] eqn:D; [reflexivity|].
    apply drop_while_head in D. unfold not_nl in D. apply neqb_false in D.
    now subst d. }
  repeat split; try reflexivity; try assumption.
  - rewrite R at 1. now rewrite <- !app_assoc.
  - rewrite !length_app, repeat_length. simpl. lia.
  - apply special_hashes.
  - intros g0. unfold heading_tag. cbn [group nth].
    exists (lit "<h" ++ str_of_nat level ++ lit ">"),
      (lit "</h" ++ str_of_nat level ++ lit ">").
    now rewrite <- !app_assoc.
  - no_second_group.
Qed.

Lemma bold_shaped (T : list str -> str) :
  one_group T -> shaped bold_re T.
Proof.
  intros HT prev s gs n H. unfold bold_re in H.
  destruct (strip_prefix (lit "**") s) as [r|] eqn:E; [|discriminate].
  apply strip_prefix_Some in E.
  destruct (take_while not_nl r) as [|c l] eqn:Tk; [discriminate|].
  destruct (find_sub (lit "**") l) as [[b a]|] eqn:F; [|discriminate].
  inversion H; subst; clear H.
  pose proof (take_drop_while not_nl r) as R. rewrite Tk in R.
  apply find_sub_Some in F. subst l.
  shape_parts (lit "**") (c :: b) (lit "**") (a ++ drop_while not_nl r).
  repeat split; try reflexivity.
  - rewrite R at 1. simpl. now rewrite <- !app_assoc.
  - rewrite !length_app. simpl. lia.
  - intros g0. apply HT.
  - no_second_group.
Qed.

Lemma italic_close_shape (s b : str) :
  italic_close s = Some b -> exists rest, s = b ++ "*" :: rest.
Proof.
  revert b; induction s as [|c s IH]; intros b; simpl; [discriminate|].
  destruct (Ascii.eqb c nl); [discriminate|].
  destruct (Ascii.eqb_spec c "*") as [->|]; simpl.
  - destruct (not_before ")" s).
    + intros [= <-]. eexists; reflexivity.
    + destruct (italic_close s) as [b'|]; [|discriminate].
      intros [= <-]. destruct (IH b' eq_refl) as (rest & ->). eexists; reflexivity.
  - destruct (italic_close s) as [b'|]; [|discriminate].
    intros [= <-]. destruct (IH b' eq_refl) as (rest & ->). eexists; reflexivity.
Qed.

Lemma italic_shaped (T : list str -> str) :
  one_group T -> shaped italic_re T.
Proof.
  intros HT prev s gs n H. unfold italic_re in H.
  destruct (not_after "(" prev); [|discriminate].
  destruct (strip_prefix (lit "*") s) as [r|] eqn:E; [|discriminate].
  apply strip_prefix_Some in E.
  destruct r as [|c r']; [discriminate|].
  destruct (Ascii.eqb c nl); [discriminate|].
  destruct (italic_close r') as [b|] eqn:F; [|discriminate].
  inversion H; subst; clear H.
  apply italic_close_shape in F as (rest & ->).
  shape_parts (lit "*") (c :: b) (lit "*") rest.
  repeat split; try reflexivity.
  - rewrite !length_app. simpl. lia.
  - intros g0. apply HT.
  - no_second_group.
Qed.

Lemma link_url_shape (s u : str) :
  link_url s = Some u -> exists rest, s = u ++ ")" :: rest.
Proof.
  unfold link_url. destruct s as [|c s]; [discriminate|].
  destruct (Ascii.eqb c nl); [discriminate|].
  destruct (drop_while url_char s) as [|d r] eqn:D; [discriminate|].
  destruct (Ascii.eqb_spec d ")") as [->|]; [|discriminate].
  intros [= <-]. exists r.
  pose proof (take_drop_while url_char s) as R. rewrite D in R.
  simpl. now rewrite <- R.
Qed.

Lemma link_close_shape (s t u : str) :
  link_close s = Some (t, u) ->
  exists rest, s = t ++ lit "](" ++ u ++ ")" :: rest.
Proof.
  revert t; induction s as [|c s IH]; intros t; cbn [link_close];
    [discriminate|].
  destruct (Ascii.eqb c nl); [discriminate|].
  assert (Later :
    match link_close s with Some (t0, u0) => Some (c :: t0, u0) | None => None end
    = Some (t, u) ->
    exists rest, c :: s = t ++ lit "](" ++ u ++ ")" :: rest).
  { destruct (link_close s) as [[t0 u0]|]; [|discriminate].
    intros [= <- <-]. destruct (IH t0 eq_refl) as (rest & ->). eexists; reflexivity. }
  destruct (Ascii.eqb_spec c "]") as [->|]; [|exact Later].
  destruct (strip_prefix (lit "(") s) as [r|] eqn:E; [|exact Later].
  destruct (link_url r) as [u0|] eqn:U; [|exact Later].
  intros [= <- <-]. apply strip_prefix_Some in E.
  apply link_url_shape in U as (rest & ->). subst s. eexists; reflexivity.
Qed.

Lemma link_shaped :
  shaped link_re (fun gs => anchor (group 2 gs) (group 1 gs)).
Proof.
  intros prev s gs n H. unfold link_re in H.
  destruct (strip_prefix (lit "[") s) as [r|] eqn:E; [|discriminate].
  apply strip_prefix_Some in E.
  destruct r as [|c r']; [discriminate|].
  destruct (Ascii.eqb c nl); [discriminate|].
  destruct (link_close r') as [[t u]|] eqn:F; [|discriminate].
  inversion H; subst; clear H.
  apply link_close_shape in F as (rest & ->).
  exists (lit "["), (c :: t), (lit "]("), u, (lit ")"), rest.
  repeat split; try reflexivity.
  - repeat (rewrite length_app; simpl). lia.
  - intros g0. unfold anchor. cbn [group nth].
    exists (lit "<a href=" ++ dq :: u ++ dq :: lit ">"), (lit "</a>").
    repeat rewrite <- app_assoc. simpl. repeat rewrite <- app_assoc.
    reflexivity.
  - intros g0. unfold anchor. cbn [group nth].
    exists (lit "<a href=" ++ [dq]), (dq :: lit ">" ++ (c :: t) ++ lit "</a>").
    repeat rewrite <- app_assoc. reflexivity.
Qed.

Lemma holds_here (w a b : str) (l : list str) :
  holds w ((a ++ w ++ b) :: l).
Proof. now exists [], a, b, l. Qed.

Lemma holds_later (w c : str) (l : list str) :
  holds w l -> holds w (c :: l).
Proof. intros (l1 & a & b & l2 & ->). now exists (c :: l1), a, b, l2. Qed.

Lemma holds_app_l (w : str) (l l' : list str) :
  holds w l -> holds w (l ++ l').
Proof.
  intros (l1 & a & b & l2 & ->). exists l1, a, b, (l2 ++ l').
  now rewrite <- app_assoc.
Qed.

Lemma holds_app_r (w : str) (l l' : list str) :
  holds w l' -> holds w (l ++ l').
Proof.
  intros (l1 & a & b & l2 & ->). exists (l ++ l1), a, b, l2.
  now rewrite <- app_assoc.
Qed.

Lemma holds_map (w : str) (f : str -> str)
    (l : list str) :
  keeps w f -> holds w l -> holds w (map f l).
Proof.
  intros Hf (l1 & a & b & l2 & ->). rewrite map_app. simpl.
  destruct (Hf a b) as (a' & b' & ->). apply holds_app_r, holds_here.
Qed.

Lemma join_holds (w sep : str) (l : list str) :
  holds w l -> exists x y, join sep l = x ++ w ++ y.
Proof.
  intros (l1 & a & b & l2 & ->).
  induction l1 as [|c l1 IH]; simpl.
  - destruct l2 as [|d l2].
    + eauto.
    + exists a, (b ++ sep ++ join sep (d :: l2)). now rewrite <- !app_assoc.
  - destruct IH as (x & y & E).
    destruct (l1 ++ (a ++ w ++ b) :: l2) eqn:L.
    + now destruct l1.
    + rewrite E. exists (c ++ sep ++ x), y. now rewrite <- !app_assoc.
Qed.

(** Dropping a run of characters the word has none of. *)
Lemma drop_while_keeps (p : ascii -> bool) (w : str) :
  w <> [] -> forallb (fun c => negb (p c)) w = true ->
  forall a b, exists a', drop_while p (a ++ w ++ b) = a' ++ w ++ b.
Proof.
  intros Hw Hp a b. induction a as [|c a IH]; simpl.
  - exists []. destruct w as [|x w']; [congruence|]. simpl in *.
    apply andb_true_iff in Hp as [Hx _].
    now destruct (p x).
  - destruct (p c); [exact IH|]. now exists (c :: a).
Qed.

Lemma strip_keeps (w : str) :
  w <> [] -> forallb (fun c => negb (is_space c)) w = true -> keeps w strip.
Proof.
  intros Hw Hs a b. unfold strip, rstrip, lstrip.
  destruct (drop_while_keeps is_space w Hw Hs a b) as (a' & ->).
  rewrite !rev_app_distr, <- app_assoc.
  destruct (drop_while_keeps is_space (rev w)) with (a := rev b) (b := rev a')
    as (b' & ->).
  - intros E. apply Hw. rewrite <- (rev_involutive w), E. reflexivity.
  - rewrite forallb_forall in *. intros c Hc. apply Hs. now apply in_rev.
  - exists a', (rev b'). rewrite !rev_app_distr, !rev_involutive.
    now rewrite <- app_assoc.
Qed.

Lemma split_lines_nonempty (s : str) :
  exists l ls, split_lines s = l :: ls.
Proof.
  induction s as [|c s (l & ls & E)]; simpl; [eauto|].
  destruct (Ascii.eqb c nl); [eauto|]. rewrite E. eauto.
Qed.

Lemma split_blank_nonempty (s : str) :
  exists l ls, split_blank s = l :: ls.
Proof.
  destruct s as [|c s]; cbn [split_blank]; [eauto|].
  assert (K : exists l ls,
    match split_blank s with
    | l :: ls => (c :: l) :: ls
    | [] => [[c]]
    end = l :: ls) by (destruct (split_blank s); eauto).
  destruct s as [|d s]; [exact K|].
  destruct (Ascii.eqb c nl && Ascii.eqb d nl); [eauto|exact K].
Qed.

Section Rendering.

Variable w : str.
Hypothesis w_inert : forallb inert w = true.
Hypothesis w_nonempty : w <> [].

Lemma w_chars (p : ascii -> bool) :
  (forall c, inert c = true -> p c = true) -> forallb p w = true.
Proof.
  intros H. rewrite forallb_forall in *. auto.
Qed.

Lemma w_no_space : forallb (fun c => negb (is_space c)) w = true.
Proof.
  apply w_chars. unfold inert. intros c H.
  now apply andb_true_iff in H as [H _].
Qed.

Lemma w_not (x : ascii) :
  inert x = false -> forallb (fun c => negb (Ascii.eqb x c)) w = true.
Proof.
  intros Hx. apply w_chars. intros c Hc.
  destruct (Ascii.eqb_spec x c); [congruence|reflexivity].
Qed.

Lemma w_head : exists c w', w = c :: w' /\ inert c = true.
Proof.
  destruct w as [|c w'] eqn:E; [congruence|]. exists c, w'.
  simpl in w_inert. apply andb_true_iff in w_inert as [H _]. auto.
Qed.

Lemma keep_holds (c : ascii) (l : list str) :
  holds w l ->
  holds w match l with
          | h :: t => (c :: h) :: t
          | [] => [[c]]
          end.
Proof.
  intros (l1 & a & b & l2 & ->). destruct l1 as [|h l1]; simpl.
  - apply (holds_here w (c :: a) b).
  - apply holds_later. now exists l1, a, b, l2.
Qed.

Lemma split_lines_word (ww y : str) :
  forallb (fun c => negb (Ascii.eqb c nl)) ww = true ->
  exists l ls, split_lines (ww ++ y) = (ww ++ l) :: ls.
Proof.
  induction ww as [|a ww IH]; simpl; intros H.
  - apply split_lines_nonempty.
  - apply andb_true_iff in H as [Ha H].
    destruct (Ascii.eqb a nl); [discriminate|].
    destruct (IH H) as (l & ls & ->). eauto.
Qed.

Lemma w_no_nl : forallb (fun c => negb (Ascii.eqb c nl)) w = true.
Proof.
  apply w_chars. intros c Hc.
  destruct (Ascii.eqb_spec c nl) as [->|]; [discriminate|reflexivity].
Qed.

Lemma split_lines_holds (x y : str) :
  holds w (split_lines (x ++ w ++ y)).
Proof.
  induction x as [|c x IH]; simpl.
  - destruct (split_lines_word w y w_no_nl) as (l & ls & ->).
    apply (holds_here w [] l).
  - destruct (Ascii.eqb c nl); [now apply holds_later|].
    now apply keep_holds.
Qed.

Lemma split_blank_word (ww y : str) :
  forallb (fun c => negb (Ascii.eqb c nl)) ww = true ->
  exists l ls, split_blank (ww ++ y) = (ww ++ l) :: ls.
Proof.
  induction ww as [|a ww IH]; intros H.
  - apply split_blank_nonempty.
  - simpl in H. apply andb_true_iff in H as [Ha H].
    destruct (IH H) as (l & ls & E).
    cbn [app split_blank]. rewrite E.
    destruct (Ascii.eqb a nl); [discriminate|].
    destruct (ww ++ y); cbn [andb]; eauto.
Qed.

Lemma split_blank_holds (x y : str) :
  holds w (split_blank (x ++ w ++ y)).
Proof.
  induction x as [x IH] using (induction_ltof1 _ (@length ascii)).
  unfold ltof in IH.
  destruct x as [|c x].
  - destruct (split_blank_word w y w_no_nl) as (l & ls & E).
    simpl. rewrite E. apply (holds_here w [] l).
  - cbn [app split_blank].
    pose proof (keep_holds c _ (IH x ltac:(simpl; lia))) as K.
    destruct x as [|d x]; cbn [app] in *.
    + destruct w_head as (a & w' & E & Ha). rewrite E in *. cbn [app] in *.
      destruct (Ascii.eqb_spec a nl) as [->|]; [discriminate|].
      now rewrite andb_false_r.
    + destruct (Ascii.eqb c nl && Ascii.eqb d nl); [|exact K].
      apply holds_later, IH. simpl. lia.
Qed.

Lemma wrap_paragraph_keeps : keeps w wrap_paragraph.
Proof.
  intros a b. unfold wrap_paragraph.
  destruct (strip_keeps w w_nonempty w_no_space a b) as (a' & b' & ->).
  destruct (_ && _); [|eauto].
  exists (lit "<p>" ++ a'), (b' ++ lit "</p>"). now rewrite <- !app_assoc.
Qed.

Lemma paragraphs_keep :
  keeps w (fun text => join [nl] (map wrap_paragraph (split_blank text))).
Proof.
  intros x y. apply join_holds, holds_map.
  - apply wrap_paragraph_keeps.
  - apply split_blank_holds.
Qed.

Lemma quote_content_keeps : keeps w quote_content.
Proof.
  intros a b. unfold quote_content.
  destruct (strip_keeps w w_nonempty w_no_space a b) as (a1 & b1 & ->).
  unfold lstrip_gt.
  destruct (drop_while_keeps (Ascii.eqb ">") w w_nonempty
              (w_not ">" eq_refl) a1 b1) as (a2 & ->).
  apply (strip_keeps w w_nonempty w_no_space).
Qed.

Lemma list_item_keeps (a b : str) :
  startswith (lit "- ") (strip (a ++ w ++ b)) = true ->
  exists a' b', skipn 2 (strip (a ++ w ++ b)) = a' ++ w ++ b'.
Proof.
  destruct (strip_keeps w w_nonempty w_no_space a b) as (a1 & b1 & ->).
  unfold startswith.
  destruct (strip_prefix (lit "- ") (a1 ++ w ++ b1)) as [r|] eqn:E;
    [intros _|discriminate].
  apply strip_prefix_Some in E.
  destruct (word_after_delimiter w w_inert w_nonempty (lit "- ") r a1 b1
              eq_refl (eq_sym E)) as (u & -> & ->).
  exists u, b1. reflexivity.
Qed.

(** What one line adds to the emitted sequence holds the word when the
    line does. *)
Lemma scan_line_holds (st : RenderState) (line : str) :
  exists new,
    result (scan_line st line) = result st ++ new
    /\ (forall a b, line = a ++ w ++ b -> holds w (map emitted_text new)).
Proof.
  destruct st as [il ib res]. unfold scan_line.
  cbn [in_blockquote in_list result].
  destruct (startswith (lit ">") (strip line)) eqn:Q.
  - exists ((if negb ib then [BlockquoteOpen] else [])
            ++ [QuoteLine (quote_content line)]).
    split.
    + destruct ib;
        cbn [append set_in_blockquote set_in_list in_blockquote in_list
               result negb app];
        now rewrite <- ?app_assoc.
    + intros a b ->. rewrite map_app. apply holds_app_r. cbn [map emitted_text].
      destruct (quote_content_keeps a b) as (a' & b' & ->).
      apply holds_here.
  - destruct (startswith (lit "- ") (strip line)) eqn:L.
    + exists ((if ib then [BlockquoteClose] else [])
              ++ (if negb il then [ListOpen] else [])
              ++ [ListItem (skipn 2 (strip line))]).
      split.
      * destruct ib, il;
          cbn [append set_in_blockquote set_in_list in_blockquote in_list
                 result negb app];
          now rewrite <- ?app_assoc.
      * intros a b ->. rewrite !map_app. do 2 apply holds_app_r. cbn [map emitted_text].
        destruct (list_item_keeps a b L) as (a' & b' & ->).
        replace (lit "<li>" ++ (a' ++ w ++ b') ++ lit "</li>")
          with ((lit "<li>" ++ a') ++ w ++ b' ++ lit "</li>")
          by now rewrite <- !app_assoc.
        apply holds_here.
    + exists ((if ib then [BlockquoteClose] else [])
              ++ (if il then [ListClose] else [])
              ++ [PlainLine line]).
      split.
      * destruct ib, il;
          cbn [append set_in_blockquote set_in_list in_blockquote in_list
                 result negb app];
          now rewrite <- ?app_assoc.
      * intros a b ->. rewrite !map_app. do 2 apply holds_app_r. cbn [map emitted_text].
        apply holds_here.
Qed.

Lemma scan_lines_hold (lines : list str) (st : RenderState) :
  exists new,
    result (fold_left scan_line lines st) = result st ++ new
    /\ (holds w lines -> holds w (map emitted_text new)).
Proof.
  revert st; induction lines as [|line lines IH]; intros st; simpl.
  - exists []. split; [now rewrite app_nil_r|].
    intros (l1 & a & b & l2 & E). now destruct l1.
  - destruct (scan_line_holds st line) as (n1 & E1 & H1).
    destruct (IH (scan_line st line)) as (n2 & E2 & H2).
    exists (n1 ++ n2). split.
    + now rewrite E2, E1, <- app_assoc.
    + intros (l1 & a & b & l2 & E). rewrite map_app.
      destruct l1 as [|h l1]; simpl in E; inversion E; subst.
      * apply holds_app_l. now apply (H1 a b).
      * apply holds_app_r, H2. now exists l1, a, b, l2.
Qed.

Lemma blocks_keep :
  keeps w (fun text => join [nl] (map emitted_text (render_blocks text))).
Proof.
  intros x y. apply join_holds. unfold render_blocks, scan_lines.
  destruct (scan_lines_hold (split_lines (x ++ w ++ y)) render_start)
    as (new & E & H).
  specialize (H (split_lines_holds x y)).
  assert (C : exists tail,
    close_open (fold_left scan_line (split_lines (x ++ w ++ y)) render_start)
    = new ++ tail).
  { unfold close_open.
    destruct (fold_left scan_line _ render_start) as [il ib res].
    simpl in E. subst res.
    destruct il, ib;
      cbn [append in_list in_blockquote result]; rewrite <- ?app_assoc;
      eexists; try reflexivity.
    now rewrite app_nil_r. }
  destruct C as (tail & ->). rewrite map_app. now apply holds_app_l.
Qed.

End Rendering.

Ltac first_char :=
  let prev := fresh "prev" in
  let l := fresh "l" in
  let H := fresh "H" in
  intros prev l H;
  cbv beta delta [paren_re citation_re bold_re italic_re link_re heading_re];
  destruct l as [|x l]; [|cbn [strip_prefix lit list_ascii_of_string repeat app] in *;
    destruct (Ascii.eqb _ x); [discriminate|]];
  repeat match goal with |- context [if ?b then _ else _] => destruct b end;
  reflexivity.

Lemma paren_re_starts : starts_with paren_re ["("].
Proof. first_char. Qed.

Lemma citation_re_starts : starts_with citation_re ["["].
Proof. first_char. Qed.

Lemma bold_re_starts : starts_with bold_re ["*"].
Proof. first_char. Qed.

Lemma italic_re_starts : starts_with italic_re ["*"].
Proof. first_char. Qed.

Lemma link_re_starts : starts_with link_re ["["].
Proof. first_char. Qed.

Lemma heading_re_starts (n : nat) : starts_with (heading_re (S n)) ["#"].
Proof. first_char. Qed.

Section RenderMain.

Variable w : str.
Hypothesis w_inert : forallb inert w = true.
Hypothesis w_nonempty : w <> [].

Lemma sub_keeps (m : matcher) (T : list str -> str)
    (c : ascii) :
  starts_with m [c] -> inert c = false -> shaped m T -> keeps w (re_sub m T).
Proof.
  intros Hm Hc Hs. apply (re_sub_keeps w w_inert w_nonempty m T); [|exact Hs].
  exact (starts_special w w_inert m c Hm Hc).
Qed.

Ltac holds_group a b :=
  intros ? ?; exists a, b; cbn [group nth];
  repeat (rewrite <- app_assoc; cbn [app]); reflexivity.

Lemma protect_parentheses_keeps : keeps w protect_parentheses.
Proof.
  apply (sub_keeps paren_re _ "(" paren_re_starts eq_refl), paren_shaped.
  unfold notmath.
  holds_group (lit "<span class=" ++ dq :: lit "notmath" ++ dq :: lit ">(")
    (lit ")</span>").
Qed.

Lemma protect_citations_keeps : keeps w protect_citations.
Proof.
  apply (sub_keeps citation_re _ "[" citation_re_starts eq_refl),
    citation_shaped.
  unfold escape_citation, notmath.
  holds_group (lit "<span class=" ++ dq :: lit "notmath" ++ dq :: lit ">[")
    (lit "]</span>").
Qed.

Lemma inline_formatting_keeps : keeps w inline_formatting.
Proof.
  unfold inline_formatting. intros x y.
  destruct (sub_keeps bold_re
              (fun gs => lit "<strong>" ++ group 1 gs ++ lit "</strong>")
              "*" bold_re_starts eq_refl) with (x := x) (y := y)
    as (x1 & y1 & ->).
  { apply bold_shaped. holds_group (lit "<strong>") (lit "</strong>"). }
  destruct (sub_keeps italic_re
              (fun gs => lit "<em>" ++ group 1 gs ++ lit "</em>")
              "*" italic_re_starts eq_refl) with (x := x1) (y := y1)
    as (x2 & y2 & ->).
  { apply italic_shaped. holds_group (lit "<em>") (lit "</em>"). }
  apply (sub_keeps link_re _ "[" link_re_starts eq_refl link_shaped).
Qed.

Lemma process_regular_markdown_keeps : keeps w process_regular_markdown.
Proof.
  unfold process_regular_markdown. intros x y.
  destruct (sub_keeps (heading_re 1) _ "#" (heading_re_starts 0) eq_refl
              (heading_shaped 1) x y) as (x1 & y1 & ->).
  destruct (sub_keeps (heading_re 2) _ "#" (heading_re_starts 1) eq_refl
              (heading_shaped 2) x1 y1) as (x2 & y2 & ->).
  destruct (sub_keeps (heading_re 3) _ "#" (heading_re_starts 2) eq_refl
              (heading_shaped 3) x2 y2) as (x3 & y3 & ->).
  destruct (sub_keeps (heading_re 4) _ "#" (heading_re_starts 3) eq_refl
              (heading_shaped 4) x3 y3) as (x4 & y4 & ->).
  destruct (blocks_keep w w_inert w_nonempty x4 y4) as (x5 & y5 & ->).
  destruct (inline_formatting_keeps x5 y5) as (x6 & y6 & ->).
  apply (paragraphs_keep w w_inert w_nonempty).
Qed.

Lemma render_main_keeps : keeps w render_main.
Proof.
  unfold render_main. intros x y.
  destruct (protect_parentheses_keeps x y) as (x1 & y1 & ->).
  destruct (process_regular_markdown_keeps x1 y1) as (x2 & y2 & ->).
  apply protect_citations_keeps.
Qed.

End RenderMain.

Lemma digit_inert (c : ascii) : is_digit c = true -> inert c = true.
Proof.
  destruct c as [[] [] [] [] [] [] [] []]; vm_compute; congruence.
Qed.

Lemma placeholder_inert (i : nat) (k : kind) :
  forallb inert (placeholder_format i k) = true.
Proof.
  unfold placeholder_format. rewrite !forallb_app.
  apply andb_true_iff; split; [reflexivity|].
  apply andb_true_iff; split.
  - pose proof (str_of_nat_digits i) as D.
    apply forallb_forall. intros c Hc. apply digit_inert.
    rewrite forallb_forall in D. auto.
  - apply andb_true_iff; split; [reflexivity|now destruct k].
Qed.

Lemma render_main_keeps_tokens (i : nat) (k : kind) :
  keeps (placeholder_format i k) render_main.
Proof.
  apply render_main_keeps; [apply placeholder_inert|discriminate].
Qed.

(** ** Text without mathematics *)

Lemma extract_math_plain (s : str) :
  occurs (lit "\end{") s = false ->
  occurs (lit "$") s = false ->
  extract_math s no_math = (s, no_math).
Proof.
  intros He Hd. unfold extract_math.
  destruct (environments_need_closing s no_math He) as [-> ->].
  unfold re_sub_st.
  rewrite (re_sub_clear _ display_re _ (lit "$" ++ lit "$"));
    [|apply display_re_starts|now apply clear_longer, clear_of_occurs].
  rewrite (re_sub_clear _ inline_re _ (lit "$"));
    [reflexivity|apply inline_re_starts|now apply clear_of_occurs].
Qed.

Lemma convert_plain (s : str) :
  occurs (lit "\end{") s = false ->
  occurs (lit "$") s = false ->
  occurs (lit "#") s = false ->
  convert_markdown_to_html s = Some (render_main s).
Proof.
  intros He Hd Hh.
  rewrite (convert_stages s s s None no_math).
  - cbn [math_blocks no_math restore restore_from add_references has_blocks].
    now rewrite app_nil_r.
  - now apply split_references_clear, clear_of_occurs.
  - now apply extract_math_plain.
Qed.

(** An opening tag whose name holds no character that a guard or a markdown
    rule reacts to is a word the renderer leaves whole. *)
Lemma unclosed_tag_kept (name x y : str) :
  forallb inert name = true ->
  exists x' y',
    render_main (x ++ (lit "\begin{" ++ name ++ lit "}") ++ y)
    = x' ++ (lit "\begin{" ++ name ++ lit "}") ++ y'.
Proof.
  intros Hn. apply render_main_keeps; [|discriminate].
  rewrite !forallb_app, Hn. reflexivity.
Qed.

(** Replacing a word that occurs puts the replacement into the result. *)
Lemma replace_keeps (old new : str) :
  old <> [] ->
  forall x y, exists x' y',
    str_replace old new (x ++ old ++ y) = x' ++ new ++ y'.
Proof.
  intros Ho x y. rewrite str_replace_nonempty by assumption.
  induction x as [|c x (x' & y' & E)].
  - exists [], (replace_from old new 0 y). simpl.
    now rewrite replace_match_head.
  - cbn [app replace_from].
    destruct (startswith old (c :: x ++ old ++ y)).
    + now exists [], (replace_from old new (length old - 1) (x ++ old ++ y)).
    + exists (c :: x'), y'. now rewrite E.
Qed.

(** A token handed to the renderer comes back as its block. *)
Lemma token_restored (i : nat) (k : kind) (R pre post : str) :
  exists x y,
    str_replace (placeholder_format i k) R
      (render_main (pre ++ placeholder_format i k ++ post))
    = x ++ R ++ y.
Proof.
  destruct (render_main_keeps_tokens i k pre post) as (x1 & y1 & ->).
  now apply replace_keeps.
Qed.

(* ================================================================== *)
(** * Properties of the tokens *)

(** ** Guarded text *)

Lemma token_parts (i : nat) (k : kind) :
  placeholder_format i k
  = placeholder_prefix ++ str_of_nat i ++ lit "_TYPE_" ++ kind_name k.
Proof. reflexivity. Qed.

Lemma kind_name_tail (k : kind) : forallb tail_char (kind_name k) = true.
Proof. destruct k; reflexivity. Qed.

Lemma digit_tail (c : ascii) : is_digit c = true -> tail_char c = true.
Proof. unfold tail_char. now intros ->. Qed.

Lemma token_tail_chars (i : nat) (k : kind) :
  forallb tail_char (tl (placeholder_format i k)) = true.
Proof.
  rewrite token_parts.
  change (tl (placeholder_prefix ++ str_of_nat i ++ lit "_TYPE_" ++ kind_name k))
    with (tl placeholder_prefix ++ str_of_nat i ++ lit "_TYPE_" ++ kind_name k).
  rewrite !forallb_app. rewrite kind_name_tail.
  rewrite andb_true_r.
  replace (forallb tail_char (str_of_nat i)) with true; [reflexivity|].
  symmetry. apply forallb_forall. intros c Hc. apply digit_tail.
  pose proof (str_of_nat_digits i) as D. rewrite forallb_forall in D. auto.
Qed.

Lemma prefix_tail_chars : forallb tail_char (tl placeholder_prefix) = true.
Proof. reflexivity. Qed.

(** Two tokens that begin the same text are the same token. *)
Lemma token_prefix_eq (i j : nat) (k k' : kind) (y y' : str) :
  placeholder_format i k ++ y = placeholder_format j k' ++ y' ->
  i = j /\ k = k'.
Proof.
  rewrite !token_parts, <- !app_assoc. intros F.
  apply app_inv_head in F.
  cbn [lit list_ascii_of_string app] in F.
  apply digits_split in F;
    [|apply str_of_nat_digits|apply str_of_nat_digits|reflexivity..].
  destruct F as [D F]. apply str_of_nat_inj in D.
  split; [assumption|].
  destruct k, k'; cbn in F; first [reflexivity | discriminate].
Qed.

Lemma token_eq (w w' y y' : str) :
  is_token w -> is_token w' -> w ++ y = w' ++ y' -> w = w'.
Proof.
  intros (i & k & ->) (j & k' & ->) E.
  apply token_prefix_eq in E as [-> ->]. reflexivity.
Qed.

(** The prefix starts in a token at its beginning only. *)
Lemma prefix_in_token (w x y : str) :
  is_token w -> w = x ++ placeholder_prefix ++ y -> x = [].
Proof.
  intros (i & k & ->) E. destruct x as [|c x]; [reflexivity|].
  exfalso. apply (placeholder_tail_no_M i k).
  rewrite E. cbn [app tl]. apply in_or_app. right. now left.
Qed.

Lemma in_forallb (p : ascii -> bool) (c : ascii) (l : str) :
  forallb p l = true -> In c l -> p c = true.
Proof. intros H. rewrite forallb_forall in H. auto. Qed.

Section Guarded.

Variable V : list str.
Hypothesis V_tokens : Forall is_token V.

Lemma V_token (w : str) : In w V -> is_token w.
Proof. intros H. rewrite Forall_forall in V_tokens. auto. Qed.

Lemma guarded_suffix (a b : str) : guarded V (a ++ b) -> guarded V b.
Proof.
  intros H x y ->. apply (H (a ++ x) y). now rewrite <- app_assoc.
Qed.

(** A character of a token behind its first one. *)
Lemma token_cut (w u l v : str) :
  is_token w -> w = u ++ l -> u <> [] -> l <> [] -> cuts (l ++ v) = false.
Proof.
  intros (i & k & ->) E Hu Hl.
  destruct l as [|c l]; [congruence|]. cbn [app cuts].
  destruct u as [|d u]; [congruence|].
  pose proof (token_tail_chars i k) as T. rewrite E in T.
  cbn [app tl] in T. rewrite forallb_app in T.
  apply andb_true_iff in T as [_ T]. cbn [forallb] in T.
  apply andb_true_iff in T as [-> _]. reflexivity.
Qed.

Lemma guarded_prefix (a b : str) :
  guarded V (a ++ b) -> cuts b = true -> guarded V a.
Proof.
  intros H Hb x y ->.
  destruct (H x (y ++ b)) as (w & y' & Hw & E);
    [now rewrite <- !app_assoc|].
  exists w. rewrite app_assoc in E.
  apply app_eq_app in E as (l & [[E1 E2]|[E1 E2]]).
  - exists l. auto.
  - destruct l as [|c l].
    + exists []. rewrite app_nil_r in *. auto.
    + exfalso. subst b.
      assert (K : cuts ((c :: l) ++ y') = false).
      { apply (token_cut w (placeholder_prefix ++ y) (c :: l) y');
          [now apply V_token|assumption|discriminate|discriminate]. }
      congruence.
Qed.

Lemma straddle (a b l l' : str) :
  l <> [] -> l' <> [] -> placeholder_prefix = l ++ l' ->
  cuts (l' ++ b) = false /\ seals (a ++ l) = false.
Proof.
  intros Hl Hl' E. split.
  - destruct l' as [|c l']; [congruence|]. cbn [app cuts].
    destruct l as [|d l]; [congruence|].
    pose proof prefix_tail_chars as T. rewrite E in T.
    cbn [app tl] in T. rewrite forallb_app in T.
    apply andb_true_iff in T as [_ T]. cbn [forallb] in T.
    apply andb_true_iff in T as [-> _]. reflexivity.
  - unfold seals. rewrite rev_app_distr.
    destruct (rev l) as [|c r] eqn:R.
    + apply (f_equal (@rev ascii)) in R. rewrite rev_involutive in R.
      simpl in R. congruence.
    + cbn [app]. apply negb_false_iff. apply existsb_exists.
      exists c. split; [|apply Ascii.eqb_refl].
      rewrite E. apply in_or_app. left. apply in_rev. rewrite R. now left.
Qed.

Lemma guarded_app (a b : str) :
  guarded V a -> guarded V b -> cuts b || seals a = true ->
  guarded V (a ++ b).
Proof.
  intros Ha Hb Hf x y E.
  apply app_eq_app in E as (l & [[E1 E2]|[E1 E2]]).
  - (* the occurrence starts in [a] or right behind it *)
    apply app_eq_app in E2 as (l2 & [[F1 F2]|[F1 F2]]).
    + (* the prefix ends in [b] *)
      destruct l as [|c l].
      * simpl in F1. subst l2. apply (Hb [] y). exact F2.
      * destruct l2 as [|d l2].
        -- rewrite app_nil_r in F1. simpl in F2. subst b.
           destruct (Ha x []) as (w & y' & Hw & E);
             [rewrite app_nil_r; congruence|].
           exists w, (y' ++ y). split; [assumption|].
           rewrite app_nil_r in E. now rewrite app_assoc, E, <- app_assoc.
        -- exfalso.
           destruct (straddle x y (c :: l) (d :: l2)) as [K1 K2];
             [discriminate|discriminate|assumption|].
           subst b. rewrite <- E1 in K2.
           rewrite K1, K2 in Hf. discriminate.
    + destruct (Ha x l2) as (w & y' & Hw & E); [congruence|].
      exists w, (y' ++ b). split; [assumption|].
      subst y. now rewrite app_assoc, E, <- app_assoc.
  - destruct (Hb l y E2) as (w & y' & Hw & E). eauto.
Qed.

Lemma guarded_mono (V' : list str) (t : str) :
  incl V' V -> guarded V' t -> guarded V t.
Proof.
  intros HV H x y E. destruct (H x y E) as (w & y' & Hw & F). eauto.
Qed.

Lemma guarded_clear (t : str) :
  occurs placeholder_prefix t = false -> guarded V t.
Proof.
  intros H x y ->. exfalso.
  pose proof (find_sub_complete placeholder_prefix x y) as K.
  unfold occurs in H. now destruct (find_sub _ _).
Qed.

Lemma guarded_token (w : str) : In w V -> guarded V w.
Proof.
  intros Hw x y E. exists w, []. split; [assumption|].
  pose proof (prefix_in_token w x y (V_token w Hw) E) as ->.
  now rewrite app_nil_r.
Qed.

End Guarded.

Lemma guarded_nil (t : str) :
  guarded [] t -> occurs placeholder_prefix t = false.
Proof.
  intros H. unfold occurs.
  destruct (find_sub _ _) as [[b a]|] eqn:F; [|reflexivity].
  apply find_sub_Some in F. destruct (H b a F) as (w & _ & [] & _).
Qed.

(** ** Counting the occurrences of a token *)

Lemma startswith_true (p s : str) :
  startswith p s = true -> exists r, s = p ++ r.
Proof.
  unfold startswith. destruct (strip_prefix p s) as [r|] eqn:E; [|discriminate].
  intros _. exists r. now apply strip_prefix_Some.
Qed.

Lemma startswith_app (p r : str) : startswith p (p ++ r) = true.
Proof. unfold startswith. now rewrite strip_prefix_app. Qed.

Lemma startswith_false (p s : str) :
  strip_prefix p s = None -> startswith p s = false.
Proof. unfold startswith. now intros ->. Qed.

Lemma occurs_true (pat s : str) :
  occurs pat s = true -> exists x y, s = x ++ pat ++ y.
Proof.
  unfold occurs. destruct (find_sub pat s) as [[x y]|] eqn:F; [|discriminate].
  intros _. exists x, y. now apply find_sub_Some.
Qed.

Lemma occurs_app (pat x y : str) : occurs pat (x ++ pat ++ y) = true.
Proof.
  unfold occurs. pose proof (find_sub_complete pat x y) as H.
  now destruct (find_sub pat (x ++ pat ++ y)).
Qed.

Lemma occurs_false_app (pat a b : str) :
  occurs pat (a ++ b) = false ->
  occurs pat a = false /\ occurs pat b = false.
Proof.
  intros H. split.
  - destruct (occurs pat a) eqn:E; [|reflexivity].
    apply occurs_true in E as (x & y & ->).
    rewrite <- !app_assoc in H. now rewrite occurs_app in H.
  - destruct (occurs pat b) eqn:E; [|reflexivity].
    apply occurs_true in E as (x & y & ->).
    rewrite app_assoc in H. now rewrite occurs_app in H.
Qed.

Lemma occurs_length (pat s : str) :
  occurs pat s = true -> length pat <= length s.
Proof.
  intros H. apply occurs_true in H as (x & y & ->).
  rewrite !length_app. lia.
Qed.

Lemma count_cons (w : str) (c : ascii) (s : str) :
  count_at w (c :: s)
  = (if startswith w (c :: s) then 1 else 0) + count_at w s.
Proof. reflexivity. Qed.

Lemma count_nil (w : str) : w <> [] -> count_at w [] = 0.
Proof. destruct w; [congruence|reflexivity]. Qed.

Lemma count_zero (w t : str) :
  w <> [] -> occurs w t = false -> count_at w t = 0.
Proof.
  intros Hw H. pose proof (occurs_false_at w t H) as C. clear H.
  induction t as [|c t IH]; [now apply count_nil|].
  rewrite count_cons, IH.
  - now rewrite startswith_false by apply (C [] (c :: t) eq_refl).
  - intros p l ->. apply (C (c :: p) l). reflexivity.
Qed.

Lemma count_pos (w t : str) :
  0 < count_at w t -> occurs w t = true.
Proof.
  induction t as [|c t IH]; intros H.
  - simpl in H. destruct (startswith w []) eqn:E; [|simpl in H; lia].
    apply startswith_true in E as (r & E).
    symmetry in E. apply app_eq_nil in E as [-> _]. reflexivity.
  - rewrite count_cons in H.
    destruct (startswith w (c :: t)) eqn:E.
    + apply startswith_true in E as (r & ->).
      apply (occurs_app w [] r).
    + simpl in H. specialize (IH H).
      apply occurs_true in IH as (x & y & ->).
      apply (occurs_app w (c :: x) y).
Qed.

Lemma token_not_nil (w : str) : is_token w -> w <> [].
Proof. intros (i & k & ->). discriminate. Qed.

Lemma token_has_prefix (w : str) :
  is_token w -> exists tail, w = placeholder_prefix ++ tail.
Proof. intros (i & k & ->). rewrite token_parts. eauto. Qed.

Lemma seals_tail (c : ascii) (a : str) : seals (c :: a) = true -> seals a = true.
Proof.
  unfold seals. cbn [rev]. destruct (rev a) as [|d r]; [reflexivity|].
  cbn [app]. auto.
Qed.

Lemma seals_app (a b : str) : b <> [] -> seals (a ++ b) = seals b.
Proof.
  intros Hb. unfold seals. rewrite rev_app_distr.
  destruct (rev b) as [|d r] eqn:E; [|reflexivity].
  apply (f_equal (@rev ascii)) in E. rewrite rev_involutive in E.
  simpl in E. congruence.
Qed.

Lemma cuts_app (a b : str) : a <> [] -> cuts (a ++ b) = cuts a.
Proof. destruct a; [congruence|reflexivity]. Qed.

Section Counting.

Variable V : list str.
Hypothesis V_tokens : Forall is_token V.

(** A token that begins where [a] ends lies in [a], when no prefix can
    straddle the end of [a]. *)
Lemma no_straddle (w a b : str) :
  is_token w -> guarded V a -> cuts b || seals a = true ->
  a <> [] -> startswith w (a ++ b) = true -> startswith w a = true.
Proof.
  intros Hw Ha Hf Hn H. apply startswith_true in H as (r & E).
  apply app_eq_app in E as (l & [[E1 E2]|[E1 E2]]).
  - subst a. apply startswith_app.
  - destruct l as [|c l].
    + rewrite app_nil_r in E1. subst a.
      rewrite <- (app_nil_r w) at 2. apply startswith_app.
    + exfalso. destruct (token_has_prefix w Hw) as (tail & Ew).
      rewrite Ew in E1. symmetry in E1.
      apply app_eq_app in E1 as (l2 & [[F1 F2]|[F1 F2]]).
      * (* the prefix lies in [a] *)
        destruct (Ha [] l2) as (w' & y' & Hw' & E'); [exact F1|].
        assert (K : w ++ [] = w' ++ y' ++ c :: l).
        { rewrite app_nil_r, Ew, F2, app_assoc, E', <- app_assoc.
          reflexivity. }
        pose proof (token_eq _ _ _ _ Hw (V_token V V_tokens w' Hw') K) as ->.
        apply app_inv_head in K. destruct y'; discriminate.
      * (* the prefix is [a], or straddles its end *)
        destruct l2 as [|d l2].
        -- rewrite app_nil_r in F1. cbn [app] in F2.
           destruct (Ha [] []) as (w' & y' & Hw' & E').
           { cbn [app]. rewrite app_nil_r. congruence. }
           rewrite app_nil_r in E'.
           assert (K : w ++ [] = w' ++ y' ++ c :: l).
           { rewrite app_nil_r, Ew, <- F2, app_assoc, <- E'. reflexivity. }
           pose proof (token_eq _ _ _ _ Hw (V_token V V_tokens w' Hw') K) as ->.
           apply app_inv_head in K. destruct y'; discriminate.
        -- destruct (straddle [] (tail ++ r) a (d :: l2)) as [K1 K2];
             [assumption|discriminate|assumption|].
           cbn [app] in K2.
           assert (Eb : b = (d :: l2) ++ tail ++ r).
           { rewrite E2, F2, <- app_assoc. reflexivity. }
           rewrite Eb, K1, K2 in Hf. discriminate.
Qed.

Lemma startswith_longer (w a b : str) :
  startswith w a = true -> startswith w (a ++ b) = true.
Proof.
  intros H. apply startswith_true in H as (r & ->).
  rewrite <- app_assoc. apply startswith_app.
Qed.

(** Counting a token in two texts put together. *)
Lemma count_app (w a b : str) :
  is_token w -> guarded V a -> cuts b || seals a = true ->
  count_at w (a ++ b) = count_at w a + count_at w b.
Proof.
  intros Hw. induction a as [|c a IH]; intros Ha Hf.
  - cbn [app]. rewrite (count_nil w) by now apply token_not_nil. reflexivity.
  - cbn [app]. rewrite !count_cons, IH.
    + replace (startswith w (c :: a ++ b)) with (startswith w (c :: a));
        [lia|].
      destruct (startswith w (c :: a)) eqn:E.
      * symmetry. now apply (startswith_longer w (c :: a) b).
      * destruct (startswith w (c :: a ++ b)) eqn:F; [|reflexivity].
        assert (K : startswith w (c :: a) = true)
          by (apply (no_straddle w (c :: a) b); auto; discriminate).
        congruence.
    + apply (guarded_suffix V [c] a Ha).
    + apply orb_true_iff in Hf as [Hf|Hf]; [now rewrite Hf|].
      rewrite (seals_tail c a Hf). apply orb_true_r.
Qed.

(** A token that is none of [V] is not in text guarded by [V]. *)
Lemma count_foreign (w t : str) :
  is_token w -> guarded V t -> ~ In w V -> count_at w t = 0.
Proof.
  intros Hw Ht Hn. apply count_zero; [now apply token_not_nil|].
  destruct (occurs w t) eqn:E; [|reflexivity]. exfalso.
  apply occurs_true in E as (x & y & ->).
  destruct (token_has_prefix w Hw) as (tail & Ew).
  destruct (Ht x (tail ++ y)) as (w' & y' & Hw' & E').
  { rewrite Ew, <- app_assoc. reflexivity. }
  apply Hn.
  rewrite (token_eq w w' y y' Hw (V_token V V_tokens w' Hw')); [assumption|].
  rewrite Ew, <- app_assoc. exact E'.
Qed.

End Counting.

Lemma count_self (w : str) : is_token w -> count_at w w = 1.
Proof.
  intros Hw. pose proof (token_not_nil w Hw) as N.
  destruct w as [|c w]; [congruence|].
  rewrite count_cons.
  replace (startswith (c :: w) (c :: w)) with true.
  - rewrite count_zero; [reflexivity|discriminate|].
    destruct (occurs (c :: w) w) eqn:E; [|reflexivity].
    apply occurs_length in E. simpl in E. lia.
  - symmetry. rewrite <- (app_nil_r (c :: w)) at 2. apply startswith_app.
Qed.

Lemma count_other (w w' : str) :
  is_token w -> is_token w' -> w <> w' -> count_at w w' = 0.
Proof.
  intros Hw Hw' N. apply count_zero; [now apply token_not_nil|].
  destruct (occurs w w') eqn:E; [|reflexivity]. exfalso. apply N.
  destruct Hw as (i & k & ->), Hw' as (j & k' & ->).
  apply placeholder_inside in E as [-> ->]. reflexivity.
Qed.

Lemma count_clear (w t : str) :
  is_token w -> occurs placeholder_prefix t = false -> count_at w t = 0.
Proof.
  intros Hw H. apply (count_foreign [] (Forall_nil _) w t Hw); [|auto].
  now apply guarded_clear.
Qed.

(** ** Induction on a scan *)

Lemma re_sub_skipn St (m : matcher) (repl : list str -> St -> str * St)
    (s : str) :
  forall k prev st,
    re_sub_from m repl prev k s st
    = re_sub_from m repl (last_seen prev (firstn k s)) 0 (skipn k s) st.
Proof.
  induction s as [|c s IH]; intros k prev st.
  - destruct k; reflexivity.
  - destruct k as [|k]; [reflexivity|].
    cbn [re_sub_from firstn skipn]. rewrite IH. reflexivity.
Qed.

Section ScanInduction.

Variable St : Type.
Variable m : matcher.
Variable repl : list str -> St -> str * St.
Variable R : str -> St -> str -> St -> Prop.

Hypothesis m_productive : productive m.
Hypothesis R_none : forall s st, R s st s st.
Hypothesis R_match :
  forall u s gs n prev st r st1 out st2,
    m prev s = Some (gs, n) ->
    repl (firstn n s :: gs) st = (r, st1) ->
    R (skipn n s) st1 out st2 ->
    R (u ++ s) st (u ++ r ++ out) st2.

Lemma re_sub_rel_from (n : nat) :
  forall s, length s <= n -> forall u prev st,
    R (u ++ s) st (u ++ fst (re_sub_from m repl prev 0 s st))
      (snd (re_sub_from m repl prev 0 s st)).
Proof.
  induction n as [|n IH]; intros s Hn u prev st.
  - destruct s; [|simpl in Hn; lia]. simpl. apply R_none.
  - destruct s as [|c s]; [simpl; apply R_none|].
    cbn [re_sub_from].
    destruct (m prev (c :: s)) as [[gs k]|] eqn:M.
    + destruct (repl (firstn k (c :: s) :: gs) st) as [r st1] eqn:E.
      pose proof (m_productive _ _ _ _ M) as Hk.
      destruct k as [|k]; [lia|].
      rewrite re_sub_skipn.
      assert (L : length (skipn k s) <= n).
      { rewrite length_skipn. simpl in Hn. lia. }
      pose proof (IH (skipn k s) L [] (last_seen (Some c) (firstn k s)) st1)
        as K.
      destruct (re_sub_from m repl (last_seen (Some c) (firstn k s)) 0
                  (skipn k s) st1) as [out st2].
      cbn [fst snd app] in *.
      apply (R_match u (c :: s) gs (S k) prev st r st1 out st2 M E K).
    + simpl in Hn.
      pose proof (IH s (le_S_n _ _ Hn) (u ++ [c]) (Some c) st) as K.
      destruct (re_sub_from m repl (Some c) 0 s st) as [out st1].
      cbn [fst snd] in *. rewrite <- !app_assoc in K. exact K.
Qed.

Lemma re_sub_rel (s : str) (st : St) :
  R s st (fst (re_sub_st m repl s st)) (snd (re_sub_st m repl s st)).
Proof.
  apply (re_sub_rel_from (length s) s (le_n _) [] None st).
Qed.

End ScanInduction.

(** The same for a replacement that reads the groups only. *)
Lemma re_sub_rel_plain (m : matcher) (T : list str -> str)
    (R : str -> str -> Prop) :
  productive m ->
  (forall s, R s s) ->
  (forall u s gs n prev out,
      m prev s = Some (gs, n) -> R (skipn n s) out ->
      R (u ++ s) (u ++ T (firstn n s :: gs) ++ out)) ->
  forall s, R s (re_sub m T s).
Proof.
  intros Hm Hn Hs s. unfold re_sub.
  apply (re_sub_rel unit m (fun gs (_ : unit) => (T gs, tt))
           (fun s _ out _ => R s out)); auto.
  intros u s' gs n prev st r st1 out st2 M E K.
  inversion E; subst. now apply (Hs u s' gs n prev).
Qed.

Lemma find_sub_is_first (pat s b a : str) :
  find_sub pat s = Some (b, a) -> clear_before pat b (pat ++ a).
Proof.
  revert b. induction s as [|c s IH]; intros b F.
  - simpl in F. destruct (strip_prefix pat []); [|discriminate].
    inversion F; subst. apply clear_before_nil.
  - pose proof (find_sub_Some _ _ _ _ F) as E.
    cbn [find_sub] in F.
    destruct (strip_prefix pat (c :: s)) as [r|] eqn:P.
    + inversion F; subst. apply clear_before_nil.
    + destruct (find_sub pat s) as [[b' a']|] eqn:F'; [|discriminate].
      inversion F; subst.
      apply clear_before_cons; [|now apply IH].
      cbn [app] in E. now rewrite <- E.
Qed.

(** [s.replace(old, new)], occurrence by occurrence. *)
Lemma replace_rel (old new : str) (R : str -> str -> Prop) :
  old <> [] ->
  (forall s, occurs old s = false -> R s s) ->
  (forall u rest out,
      clear_before old u (old ++ rest) -> R rest out ->
      R (u ++ old ++ rest) (u ++ new ++ out)) ->
  forall s, R s (str_replace old new s).
Proof.
  intros Ho Hn Hs s. rewrite str_replace_nonempty by assumption.
  remember (length s) as n eqn:L.
  assert (Hl : length s <= n) by lia. clear L.
  revert s Hl. induction n as [|n IH]; intros s Hl.
  - destruct s; [|simpl in Hl; lia]. apply (Hn []).
    unfold occurs. simpl. destruct old; [congruence|reflexivity].
  - destruct (find_sub old s) as [[u rest]|] eqn:F.
    + pose proof (find_sub_Some _ _ _ _ F) as ->.
      pose proof (find_sub_is_first _ _ _ _ F) as C.
      rewrite replace_first by assumption.
      apply Hs; [assumption|]. apply IH.
      rewrite !length_app in Hl.
      destruct old; [congruence|]. simpl in Hl. lia.
    + rewrite replace_clear.
      * apply Hn. unfold occurs. now rewrite F.
      * apply clear_of_occurs. unfold occurs. now rewrite F.
Qed.

(** ** Fenced words and the tokens of earlier blocks *)

Lemma occurs_app_l (z a b : str) :
  occurs z a = true -> occurs z (a ++ b) = true.
Proof.
  intros H. apply occurs_true in H as (x & y & ->).
  rewrite <- !app_assoc. apply occurs_app.
Qed.

Lemma occurs_app_r (z a b : str) :
  occurs z b = true -> occurs z (a ++ b) = true.
Proof.
  intros H. apply occurs_true in H as (x & y & ->).
  rewrite app_assoc. apply occurs_app.
Qed.

Lemma token_char_tail (c : ascii) : tail_char c = true -> token_char c = true.
Proof. unfold token_char. intros ->. apply orb_true_r. Qed.

Lemma token_chars (w : str) : is_token w -> forallb token_char w = true.
Proof.
  intros (i & k & ->). pose proof (token_tail_chars i k) as T.
  assert (E : placeholder_format i k = "M" :: tl (placeholder_format i k))
    by reflexivity.
  rewrite E. cbn [forallb]. apply andb_true_iff. split; [reflexivity|].
  apply forallb_forall. intros c Hc. apply token_char_tail.
  rewrite forallb_forall in T. auto.
Qed.

Lemma fenced_head (z : str) :
  fenced z = true -> exists c z', z = c :: z' /\ token_char c = false.
Proof.
  unfold fenced. destruct z as [|c z]; [discriminate|].
  destruct (rev (c :: z)); [discriminate|]. intros H.
  apply andb_true_iff in H as [H _]. apply negb_true_iff in H. eauto.
Qed.

Lemma fenced_last (z : str) :
  fenced z = true -> exists z' d, z = z' ++ [d] /\ token_char d = false.
Proof.
  unfold fenced. destruct z as [|c z]; [discriminate|].
  destruct (rev (c :: z)) as [|d r] eqn:E; [discriminate|]. intros H.
  apply andb_true_iff in H as [_ H]. apply negb_true_iff in H.
  exists (rev r), d. split; [|assumption].
  apply (f_equal (@rev ascii)) in E. rewrite rev_involutive in E.
  exact E.
Qed.

Lemma fenced_ends (a b c : str) :
  fenced a = true -> fenced c = true -> fenced (a ++ b ++ c) = true.
Proof.
  intros Ha Hc.
  apply fenced_head in Ha as (x & a' & -> & Hx).
  apply fenced_last in Hc as (c' & d & -> & Hd).
  unfold fenced. cbn [app].
  rewrite !app_comm_cons, !app_assoc, rev_app_distr. cbn [rev app].
  now rewrite Hx, Hd.
Qed.

Lemma fenced_cuts (z b : str) : fenced z = true -> cuts (z ++ b) = true.
Proof.
  intros H. apply fenced_head in H as (c & z' & -> & H).
  cbn [app cuts]. destruct (tail_char c) eqn:E; [|reflexivity].
  apply token_char_tail in E. congruence.
Qed.

Lemma prefix_chars (c : ascii) :
  existsb (Ascii.eqb c) placeholder_prefix = true -> token_char c = true.
Proof.
  intros H. apply existsb_exists in H as (x & Hx & E).
  apply Ascii.eqb_eq in E. subst x.
  cbn in Hx. repeat (destruct Hx as [<-|Hx]; [reflexivity|]). destruct Hx.
Qed.

Lemma fenced_seals (a z : str) : fenced z = true -> seals (a ++ z) = true.
Proof.
  intros H. apply fenced_last in H as (z' & d & -> & H).
  unfold seals. rewrite !rev_app_distr. cbn [rev app].
  destruct (existsb (Ascii.eqb d) placeholder_prefix) eqn:E; [|reflexivity].
  apply prefix_chars in E. congruence.
Qed.

Lemma fenced_not_nil (z : str) : fenced z = true -> z <> [].
Proof. destruct z; [discriminate|discriminate]. Qed.

(** A fenced text without the prefix that lies in text around a token lies
    before the token or behind it. *)
Lemma fenced_apart (z a w b : str) :
  is_token w -> fenced z = true -> occurs placeholder_prefix z = false ->
  occurs z (a ++ w ++ b) = true ->
  occurs z a = true \/ occurs z b = true.
Proof.
  intros Hw Hf Hp H. apply occurs_true in H as (x & y & E).
  pose proof (token_chars w Hw) as Tw.
  apply app_eq_app in E as (l & [[E1 E2]|[E1 E2]]).
  - (* [z] starts before the token *)
    apply app_eq_app in E2 as (l2 & [[F1 F2]|[F1 F2]]).
    + destruct l2 as [|c l2].
      * left. rewrite app_nil_r in F1. subst.
        rewrite <- (app_nil_r (x ++ l)), <- app_assoc. apply occurs_app.
      * exfalso.
        apply app_eq_app in F2 as (l3 & [[G1 G2]|[G1 G2]]).
        -- (* the end of [z] is in the token *)
           apply fenced_last in Hf as (z' & d & Ez & Hd).
           rewrite Ez in F1.
           assert (K : In d (c :: l2)).
           { destruct (@exists_last _ (c :: l2)) as (q & e & Eq);
               [discriminate|].
             rewrite Eq in *. rewrite app_assoc in F1.
             apply app_inj_tail in F1 as [_ ->].
             apply in_or_app. right. now left. }
           rewrite G1 in Tw. rewrite forallb_app in Tw.
           apply andb_true_iff in Tw as [Tw _].
           rewrite forallb_forall in Tw. specialize (Tw d K). congruence.
        -- (* the token is in [z] *)
           destruct (token_has_prefix w Hw) as (tail & Ew).
           rewrite F1, G1, Ew, <- !app_assoc in Hp.
           now rewrite occurs_app in Hp.
    + left. subst a l. apply occurs_app.
  - (* [z] starts in the token or behind it *)
    apply app_eq_app in E2 as (l2 & [[F1 F2]|[F1 F2]]).
    + destruct l2 as [|c l2].
      * right. cbn [app] in F2. rewrite <- F2. apply (occurs_app z [] y).
      * exfalso. apply fenced_head in Hf as (d & z' & -> & Hd).
        cbn [app] in F2. inversion F2; subst.
        rewrite forallb_app in Tw. apply andb_true_iff in Tw as [_ Tw].
        cbn [forallb] in Tw. apply andb_true_iff in Tw as [Tw _]. congruence.
    + right. subst b. apply occurs_app.
Qed.

Lemma token_inj (i j : nat) (k k' : kind) :
  placeholder_format i k = placeholder_format j k' -> i = j /\ k = k'.
Proof.
  intros E. apply (token_prefix_eq i j k k' [] []). now rewrite E.
Qed.

Lemma older_token (n : nat) (w : str) : older n w -> is_token w.
Proof. intros (j & k & _ & ->). now exists j, k. Qed.

Lemma older_tokens (n : nat) (V : list str) :
  Forall (older n) V -> Forall is_token V.
Proof. apply Forall_impl, older_token. Qed.

Lemma older_mono (n n' : nat) (V : list str) :
  n <= n' -> Forall (older n) V -> Forall (older n') V.
Proof.
  intros H. apply Forall_impl. intros w (j & k & Hj & ->).
  exists j, k. split; [lia|reflexivity].
Qed.

Lemma tokens_from_app (i : nat) (a b : list (kind * str)) :
  tokens_from i (a ++ b) = tokens_from i a ++ tokens_from (i + length a) b.
Proof.
  revert i. induction a as [|x a IH]; intros i.
  - simpl. now rewrite Nat.add_0_r.
  - cbn [app tokens_from length]. rewrite IH.
    now rewrite <- Nat.add_succ_comm.
Qed.

Lemma tokens_from_index (i : nat) (bs : list (kind * str)) (w : str) :
  In w (tokens_from i bs) ->
  exists j k, i <= j < i + length bs /\ w = placeholder_format j k.
Proof.
  revert i. induction bs as [|b bs IH]; intros i H; [destruct H|].
  destruct H as [<-|H].
  - exists i, (fst b). simpl. split; [lia|reflexivity].
  - destruct (IH _ H) as (j & k & Hj & ->).
    exists j, k. simpl. split; [lia|reflexivity].
Qed.

Lemma tokens_from_nth (i j : nat) (bs : list (kind * str)) (k : kind)
    (c : str) :
  nth_error bs j = Some (k, c) ->
  In (placeholder_format (i + j) k) (tokens_from i bs).
Proof.
  revert i j. induction bs as [|b bs IH]; intros i j H.
  - destruct j; discriminate.
  - destruct j as [|j].
    + inversion H; subst. rewrite Nat.add_0_r. now left.
    + right. rewrite <- Nat.add_succ_comm. now apply IH.
Qed.

Lemma tokens_from_tokens (i : nat) (bs : list (kind * str)) :
  Forall is_token (tokens_from i bs).
Proof.
  apply Forall_forall. intros w H.
  apply tokens_from_index in H as (j & k & _ & ->). now exists j, k.
Qed.

Lemma tokens_from_older (bs : list (kind * str)) :
  Forall (older (length bs)) (tokens_from 0 bs).
Proof.
  apply Forall_forall. intros w H.
  apply tokens_from_index in H as (j & k & Hj & ->).
  exists j, k. split; [lia|reflexivity].
Qed.

Lemma token_seals (i : nat) (k : kind) (a : str) :
  seals (a ++ placeholder_format i k) = true.
Proof.
  unfold placeholder_format. rewrite !app_assoc.
  rewrite seals_app by (destruct k; discriminate).
  now destruct k.
Qed.

Lemma token_cuts (i : nat) (k : kind) (b : str) :
  cuts (placeholder_format i k ++ b) = true.
Proof. reflexivity. Qed.

(** ** One extraction pass keeps the tokens in place *)

Lemma firstn_exact (A : Type) (a b : list A) : firstn (length a) (a ++ b) = a.
Proof.
  rewrite firstn_app, Nat.sub_diag, firstn_all. simpl. apply app_nil_r.
Qed.

Lemma skipn_exact (A : Type) (a b : list A) : skipn (length a) (a ++ b) = b.
Proof.
  rewrite skipn_app, Nat.sub_diag, skipn_all. reflexivity.
Qed.

Lemma encloses_productive (m : matcher) (content : list str -> str) :
  encloses m content -> productive m.
Proof.
  intros H prev s gs n M.
  destruct (H _ _ _ _ M) as (M' & a & _ & -> & F & _).
  destruct M'; [discriminate|simpl; lia].
Qed.

Lemma not_older (n j : nat) (k : kind) (V : list str) :
  Forall (older n) V -> n <= j -> ~ In (placeholder_format j k) V.
Proof.
  intros HV Hj H. rewrite Forall_forall in HV.
  destruct (HV _ H) as (i & k' & Hi & E).
  apply token_inj in E as [-> _]. lia.
Qed.

Lemma not_newer (n j : nat) (k : kind) (bs : list (kind * str)) :
  j < n -> ~ In (placeholder_format j k) (tokens_from n bs).
Proof.
  intros Hj H. apply tokens_from_index in H as (i & k' & Hi & E).
  apply token_inj in E as [-> _]. lia.
Qed.

Section Pass.

Variable m : matcher.
Variable k : kind.
Variable content : list str -> str.
Hypothesis m_encloses : encloses m content.

Lemma pass_none (s : str) (B : list (kind * str)) : pass_keeps s B s B.
Proof.
  exists []. split; [now rewrite app_nil_r|].
  intros V HV Hg _. cbn [tokens_from]. rewrite app_nil_r.
  repeat split; auto. intros w [].
Qed.

Lemma pass_match (u M a : str) (gs : list str) (B B2 : list (kind * str))
    (out : str) :
  fenced M = true ->
  (occurs placeholder_prefix (content (M :: gs)) = false ->
   occurs placeholder_prefix M = false) ->
  pass_keeps a (B ++ [(k, content (M :: gs))]) out B2 ->
  pass_keeps (u ++ M ++ a) B
    (u ++ placeholder_format (length B) k ++ out) B2.
Proof.
  intros FM PM (new' & EB & K).
  set (c := content (M :: gs)) in *.
  set (n0 := length B) in *.
  set (tok := placeholder_format n0 k).
  exists ((k, c) :: new'). split; [now rewrite EB, <- app_assoc|].
  intros V HV Hg Hp.
  inversion Hp as [|? ? Pc Pn]; subst. cbn [snd] in Pc.
  specialize (PM Pc).
  assert (L : length (B ++ [(k, c)]) = S n0)
    by (rewrite length_app; simpl; lia).
  rewrite L in K.
  pose proof (older_tokens _ _ HV) as TV.
  assert (ga : guarded V a).
  { apply (guarded_suffix V (u ++ M)). now rewrite <- app_assoc. }
  destruct (K V (older_mono n0 (S n0) V (Nat.le_succ_diag_r _) HV) ga Pn)
    as (G & C1 & C2 & Src).
  cbn [tokens_from fst]. fold tok.
  set (N := tokens_from (S n0) new') in *.
  assert (TN : Forall is_token N) by apply tokens_from_tokens.
  assert (Ttok : is_token tok) by (now exists n0, k).
  assert (TV1 : Forall is_token (V ++ N)) by (apply Forall_app; auto).
  assert (TV2 : Forall is_token (V ++ tok :: N))
    by (apply Forall_app; split; [|constructor]; auto).
  assert (gu : guarded V u).
  { apply (guarded_prefix V TV u (M ++ a) Hg). now apply fenced_cuts. }
  assert (gM : guarded V M) by now apply guarded_clear.
  assert (I1 : incl V (V ++ tok :: N)) by (apply incl_appl, incl_refl).
  assert (I2 : incl (V ++ N) (V ++ tok :: N)).
  { apply incl_app; [assumption|]. apply incl_appr. apply incl_tl, incl_refl. }
  assert (It : In tok (V ++ tok :: N))
    by (apply in_or_app; right; now left).
  assert (gu2 : guarded (V ++ tok :: N) u) by now apply (guarded_mono _ V).
  assert (gt2 : guarded (V ++ tok :: N) tok) by now apply guarded_token.
  assert (go2 : guarded (V ++ tok :: N) out)
    by now apply (guarded_mono _ (V ++ N)).
  assert (St : cuts out || seals tok = true).
  { pose proof (token_seals n0 k []) as X. cbn [app] in X. fold tok in X.
    rewrite X. apply orb_true_r. }
  assert (Ct : cuts (tok ++ out) || seals u = true) by reflexivity.
  assert (CM : cuts (M ++ a) || seals u = true)
    by now rewrite fenced_cuts.
  assert (SM : cuts a || seals M = true).
  { pose proof (fenced_seals [] M FM) as X. cbn [app] in X.
    rewrite X. apply orb_true_r. }
  assert (NV : ~ In tok V) by (apply (not_older n0); auto).
  assert (NN : ~ In tok N) by (apply not_newer; lia).
  assert (Cold : forall w, is_token w ->
            count_at w (u ++ M ++ a) = count_at w u + count_at w a).
  { intros w Hw.
    rewrite (count_app V TV w u (M ++ a) Hw gu CM).
    rewrite (count_app V TV w M a Hw gM SM).
    rewrite (count_clear w M Hw PM). reflexivity. }
  assert (Cnew : forall w, is_token w ->
            count_at w (u ++ tok ++ out)
            = count_at w u + (count_at w tok + count_at w out)).
  { intros w Hw.
    rewrite (count_app _ TV2 w u (tok ++ out) Hw gu2 Ct).
    rewrite (count_app _ TV2 w tok out Hw gt2 St). reflexivity. }
  split; [|split; [|split]].
  - apply guarded_app; [assumption| |assumption].
    apply guarded_app; assumption.
  - intros w Hw Hn.
    rewrite Cold, Cnew by assumption.
    rewrite (count_other w tok Hw Ttok) by (intros ->; apply Hn; now left).
    rewrite C1; [reflexivity|assumption|].
    intros X. apply Hn. now right.
  - intros w [Ew|Hw].
    + rewrite <- Ew. change (placeholder_format (length B) k) with tok.
      rewrite Cnew by assumption.
      rewrite (count_foreign V TV tok u Ttok gu NV).
      rewrite (count_self tok Ttok).
      rewrite (count_foreign _ TV1 tok out Ttok G); [reflexivity|].
      intros X. apply in_app_or in X as [X|X]; auto.
    + assert (Tw : is_token w) by (rewrite Forall_forall in TN; auto).
      rewrite Cnew by assumption.
      destruct (tokens_from_index _ _ _ Hw) as (j & k' & Hj & ->).
      rewrite (count_foreign V TV _ u Tw gu)
        by (apply (not_older n0); [assumption|lia]).
      rewrite (count_other _ tok Tw Ttok).
      * now rewrite (C2 _ Hw).
      * intros E. apply token_inj in E as [E _]. lia.
  - intros z Fz Pz Hz.
    apply (fenced_apart z u tok out Ttok Fz Pz) in Hz as [Hz|Hz].
    + now apply occurs_app_l.
    + apply occurs_app_r, occurs_app_r. now apply Src.
Qed.

Lemma pass_tokens (s : str) (st : extraction) :
  pass_keeps s (math_blocks st)
    (fst (re_sub_st m (extract_with k content) s st))
    (math_blocks (snd (re_sub_st m (extract_with k content) s st))).
Proof.
  apply (re_sub_rel extraction m (extract_with k content)
           (fun s st out st' =>
              pass_keeps s (math_blocks st) out (math_blocks st'))).
  - apply (encloses_productive m content m_encloses).
  - intros s' st'. apply pass_none.
  - intros u s' gs n prev st0 r st1 out st2 M E K.
    destruct (m_encloses _ _ _ _ M) as (M' & a & -> & -> & FM & PM).
    rewrite firstn_exact in E. rewrite skipn_exact in K.
    unfold extract_with in E. inversion E; subst. cbn [store math_blocks] in K.
    now apply (pass_match u M' a gs).
Qed.

(** One pass carries the tokens on. *)
Lemma pass_placed (s out : str) (st st' : extraction) :
  re_sub_st m (extract_with k content) s st = (out, st') ->
  placed (math_blocks st) s ->
  prefix_free (math_blocks st') ->
  placed (math_blocks st') out
  /\ (forall z, fenced z = true ->
                occurs placeholder_prefix z = false ->
                occurs z out = true -> occurs z s = true)
  /\ exists new, math_blocks st' = math_blocks st ++ new.
Proof.
  intros E [Hg Hc] Hp.
  pose proof (pass_tokens s st) as (new & EB & K).
  rewrite E in *. cbn [fst snd] in *.
  rewrite EB in Hp. apply Forall_app in Hp as [_ Hp].
  destruct (K _ (tokens_from_older _) Hg Hp) as (G & C1 & C2 & Src).
  split; [|split; [exact Src|eauto]].
  rewrite EB. unfold placed. rewrite tokens_from_app. cbn [plus].
  split; [exact G|].
  intros w Hw. apply in_app_or in Hw as [Hw|Hw].
  - rewrite C1; [now apply Hc| |].
    + pose proof (tokens_from_tokens 0 (math_blocks st)) as T.
      rewrite Forall_forall in T. auto.
    + apply tokens_from_index in Hw as (j & k' & Hj & ->).
      apply not_newer. lia.
  - now apply C2.
Qed.

End Pass.

(** ** Replacing a word that overlaps no token *)

Lemma strip_prefix_head (p s : str) (c d : ascii) (r : str) :
  strip_prefix (c :: p) (d :: s) = Some r -> c = d.
Proof.
  cbn [strip_prefix]. destruct (Ascii.eqb_spec c d); [auto|discriminate].
Qed.

Lemma strip_prefix_None_iff (p s : str) :
  strip_prefix p s = None <-> forall r, s <> p ++ r.
Proof.
  split.
  - intros H r ->. now rewrite strip_prefix_app in H.
  - intros H. destruct (strip_prefix p s) as [r|] eqn:E; [|reflexivity].
    apply strip_prefix_Some in E. now destruct (H r).
Qed.

(** Replacing [old] keeps a word that no occurrence of [old] overlaps. *)
Lemma replace_keeps_apart (old new w : str) :
  old <> [] -> w <> [] -> apart old w -> keeps w (str_replace old new).
Proof.
  intros Ho Hw [A B].
  assert (K : forall s x y, s = x ++ w ++ y ->
                exists x' y', str_replace old new s = x' ++ w ++ y').
  { intros s.
    apply (replace_rel old new
             (fun s out => forall x y, s = x ++ w ++ y ->
                                       exists x' y', out = x' ++ w ++ y'));
      [assumption| |].
    - intros s' _ x0 y0 ->. eauto.
    - intros u rest out _ IH x y E.
      apply app_eq_app in E as (l & [[E1 E2]|[E1 E2]]).
      + (* the word starts before the occurrence *)
        apply app_eq_app in E2 as (l2 & [[F1 F2]|[F1 F2]]).
        * destruct l2 as [|c l2].
          -- rewrite app_nil_r in F1. subst.
             exists x, (new ++ out). now rewrite <- !app_assoc.
          -- exfalso. pose proof (A l (c :: l2) y F1) as K.
             rewrite <- F2 in K. rewrite strip_prefix_app in K.
             discriminate K; discriminate.
        * exists x, (l2 ++ new ++ out). subst u l.
          now rewrite <- !app_assoc.
      + (* the word starts in the occurrence or behind it *)
        apply app_eq_app in E2 as (l2 & [[F1 F2]|[F1 F2]]).
        * destruct l2 as [|c l2].
          -- cbn [app] in F2. destruct (IH [] y) as (x' & y' & ->);
               [now rewrite <- F2|].
             exists (u ++ new ++ x'), y'. now rewrite <- !app_assoc.
          -- exfalso. destruct l as [|d l].
             ++ cbn [app] in F1.
                pose proof (A [] w y eq_refl Hw) as K.
                rewrite F2, <- F1 in K. rewrite strip_prefix_app in K.
                discriminate.
             ++ pose proof (B (d :: l) (c :: l2) rest F1) as K.
                rewrite <- F2 in K. rewrite strip_prefix_app in K.
                discriminate K; discriminate.
        * destruct (IH l2 y F2) as (x' & y' & ->).
          exists (u ++ new ++ x'), y'. now rewrite <- !app_assoc. }
  intros x y. now apply (K _ x y).
Qed.

Lemma apart_disjoint (old w : str) :
  old <> [] -> w <> [] ->
  (forall c, In c old -> ~ In c w) -> apart old w.
Proof.
  intros Ho Hw D. split.
  - intros w1 w2 v -> Hn. destruct w2 as [|c w2]; [congruence|].
    destruct old as [|o old]; [congruence|cbn [app strip_prefix]].
    destruct (Ascii.eqb_spec o c) as [->|]; [|reflexivity].
    exfalso. apply (D c); [now left|].
    apply in_or_app. right. now left.
  - intros o1 o2 v -> _ Hn. destruct o2 as [|c o2]; [congruence|].
    destruct w as [|d w]; [congruence|]. cbn [app strip_prefix].
    destruct (Ascii.eqb_spec d c) as [->|]; [|reflexivity].
    exfalso. apply (D c); [|now left].
    apply in_or_app. right. now left.
Qed.

Lemma apart_tokens (t w : str) :
  is_token t -> is_token w -> t <> w -> apart t w.
Proof.
  intros Ht Hw N. split.
  - intros w1 w2 v E Hn. apply strip_prefix_None_iff. intros r F.
    destruct w1 as [|c w1].
    + cbn [app] in E. subst w2. apply N. symmetry.
      now apply (token_eq w t v r).
    + destruct Hw as (i & k & ->), Ht as (j & k' & ->).
      apply (placeholder_tail_no_M i k). rewrite E. cbn [app tl].
      apply in_or_app. right.
      destruct w2 as [|d w2]; [congruence|].
      change (placeholder_format j k')
        with ("M" :: tl (placeholder_format j k')) in F.
      cbn [app] in F. inversion F. now left.
  - intros o1 o2 v E Hn1 Hn2. apply strip_prefix_None_iff. intros r F.
    destruct o1 as [|c o1]; [congruence|].
    destruct Hw as (i & k & ->), Ht as (j & k' & ->).
    apply (placeholder_tail_no_M j k'). rewrite E. cbn [app tl].
    apply in_or_app. right.
    destruct o2 as [|d o2]; [congruence|].
    change (placeholder_format i k)
      with ("M" :: tl (placeholder_format i k)) in F.
    cbn [app] in F. inversion F. now left.
Qed.

Lemma apart_fenced (t z : str) :
  is_token t -> fenced z = true -> occurs placeholder_prefix z = false ->
  apart t z.
Proof.
  intros Ht Fz Pz. pose proof (token_chars t Ht) as Tt. split.
  - intros z1 z2 v E Hn. apply strip_prefix_None_iff. intros r F.
    apply app_eq_app in F as (l & [[F1 F2]|[F1 F2]]).
    + (* the token is in [z] *)
      destruct (token_has_prefix t Ht) as (tail & Et).
      rewrite E, F1, Et, <- !app_assoc in Pz.
      now rewrite occurs_app in Pz.
    + (* the end of [z] is in the token *)
      apply fenced_last in Fz as (z' & d & Ez & Hd).
      rewrite Ez in E.
      assert (K : In d z2).
      { destruct (@exists_last _ z2 Hn) as (q & e & Eq).
        rewrite Eq in *. rewrite app_assoc in E.
        apply app_inj_tail in E as [_ ->].
        apply in_or_app. right. now left. }
      rewrite F1 in Tt. rewrite forallb_app in Tt.
      apply andb_true_iff in Tt as [Tt _].
      rewrite forallb_forall in Tt. specialize (Tt d K). congruence.
  - intros o1 o2 v E Hn1 Hn2. apply strip_prefix_None_iff. intros r F.
    apply fenced_head in Fz as (d & z' & -> & Hd).
    destruct o2 as [|c o2]; [congruence|].
    cbn [app] in F. inversion F; subst.
    rewrite forallb_app in Tt. apply andb_true_iff in Tt as [_ Tt].
    cbn [forallb] in Tt. apply andb_true_iff in Tt as [Tt _]. congruence.
Qed.

(** ** The four passes *)

Lemma disjoint_chars_apart (old w : str) :
  old <> [] -> w <> [] -> disjoint_chars old w = true -> apart old w.
Proof.
  intros Ho Hw D. apply apart_disjoint; auto.
  intros c Hc Hc'. unfold disjoint_chars in D.
  rewrite forallb_forall in D. specialize (D c Hc).
  apply negb_true_iff in D.
  assert (K : existsb (Ascii.eqb c) w = true).
  { apply existsb_exists. exists c. split; [assumption|apply Ascii.eqb_refl]. }
  congruence.
Qed.

(** Replacing a text of other characters puts no prefix in and takes none
    out. *)
Lemma replace_keeps_prefix (old new s : str) :
  old <> [] -> disjoint_chars old placeholder_prefix = true ->
  occurs placeholder_prefix (str_replace old new s) = false ->
  occurs placeholder_prefix s = false.
Proof.
  intros Ho D H. destruct (occurs placeholder_prefix s) eqn:E; [|reflexivity].
  apply occurs_true in E as (x & y & ->).
  destruct (replace_keeps_apart old new placeholder_prefix Ho) with (x := x)
    (y := y) as (x' & y' & K); [discriminate| |].
  - apply disjoint_chars_apart; [assumption|discriminate|assumption].
  - rewrite K in H. now rewrite occurs_app in H.
Qed.

Lemma prefix_free_wrap (a b c : str) :
  fenced a = true -> fenced c = true ->
  occurs placeholder_prefix a = false ->
  occurs placeholder_prefix b = false ->
  occurs placeholder_prefix c = false ->
  occurs placeholder_prefix (a ++ b ++ c) = false.
Proof.
  intros Fa Fc Pa Pb Pc. apply guarded_nil.
  apply guarded_app; [now apply guarded_clear| |].
  - apply guarded_app; [now apply guarded_clear..|].
    pose proof (fenced_cuts c [] Fc) as K. rewrite app_nil_r in K.
    now rewrite K.
  - pose proof (fenced_seals [] a Fa) as K. cbn [app] in K.
    rewrite K. apply orb_true_r.
Qed.

Lemma align_encloses : encloses align_re align_content_of.
Proof.
  intros prev s gs n H. unfold align_re in H.
  destruct (strip_prefix begin_align s) as [r|] eqn:E1; [|discriminate].
  destruct (find_sub end_align r) as [[body a]|] eqn:E2; [|discriminate].
  inversion H; subst. apply strip_prefix_Some in E1.
  apply find_sub_Some in E2. subst.
  exists (begin_align ++ body ++ end_align), a.
  split; [now rewrite <- !app_assoc|].
  split; [rewrite !length_app; simpl; lia|].
  split; [apply fenced_ends; reflexivity|].
  unfold align_content_of. cbn [group nth]. intros F.
  apply replace_keeps_prefix in F; [|discriminate|reflexivity].
  apply replace_keeps_prefix in F; [|discriminate|reflexivity].
  exact F.
Qed.

Lemma env_encloses : encloses env_re (group 0).
Proof.
  intros prev s gs n H. unfold env_re in H.
  destruct (strip_prefix (lit "\begin{") s) as [r|] eqn:E1; [|discriminate].
  apply strip_prefix_Some in E1.
  pose proof (take_drop_while (neqb "}") r) as E2.
  destruct (take_while (neqb "}") r) as [|c name] eqn:N; [discriminate|].
  destruct (drop_while (neqb "}") r) as [|d r'] eqn:D; [discriminate|].
  apply drop_while_head in D. apply neqb_false in D. subst d.
  destruct (find_sub (lit "\end{" ++ (c :: name) ++ lit "}") r')
    as [[body a]|] eqn:E3; [|discriminate].
  apply find_sub_Some in E3. inversion H; subst gs n. clear H.
  subst s r'. set (nm := c :: name) in *.
  exists (lit "\begin{" ++ (nm ++ "}" :: body ++ lit "\end{" ++ nm)
          ++ lit "}"), a.
  split.
  { rewrite E2. rewrite <- !app_assoc. cbn [app].
    rewrite <- !app_assoc. reflexivity. }
  split.
  { rewrite !length_app. cbn [length]. rewrite !length_app.
    subst nm. simpl. lia. }
  split; [apply fenced_ends; reflexivity|].
  cbn [group nth]. auto.
Qed.

Lemma display_encloses : encloses display_re (group 1).
Proof.
  intros prev s gs n H. unfold display_re in H.
  destruct (strip_prefix (lit "$$") s) as [r|] eqn:E1; [|discriminate].
  destruct (find_sub (lit "$$") r) as [[body a]|] eqn:E2; [|discriminate].
  inversion H; subst. apply strip_prefix_Some in E1.
  apply find_sub_Some in E2. subst.
  exists (lit "$$" ++ body ++ lit "$$"), a.
  split; [now rewrite <- !app_assoc|].
  split; [rewrite !length_app; simpl; lia|].
  split; [apply fenced_ends; reflexivity|].
  cbn [group nth]. intros F. now apply prefix_free_wrap.
Qed.

Lemma inline_encloses : encloses inline_re (group 1).
Proof.
  intros prev s gs n H. unfold inline_re in H.
  destruct (not_after "$" prev); [|discriminate].
  destruct (strip_prefix (lit "$") s) as [r|] eqn:E1; [|discriminate].
  apply strip_prefix_Some in E1.
  pose proof (take_drop_while inline_char r) as E2.
  destruct (take_while inline_char r) as [|c body] eqn:N; [discriminate|].
  destruct (drop_while inline_char r) as [|d r'] eqn:D; [discriminate|].
  destruct (Ascii.eqb_spec d "$") as [->|]; [|discriminate].
  destruct (not_before "$" r'); [|discriminate].
  inversion H; subst gs n. clear H. subst s.
  exists (lit "$" ++ (c :: body) ++ lit "$"), r'.
  split; [rewrite E2; now rewrite <- !app_assoc|].
  split; [rewrite !length_app; simpl; lia|].
  split; [apply fenced_ends; reflexivity|].
  cbn [group nth]. intros F. now apply prefix_free_wrap.
Qed.

Lemma pass_grows (m : matcher) (k : kind) (content : list str -> str)
    (s out : str) (st st' : extraction) :
  encloses m content ->
  re_sub_st m (extract_with k content) s st = (out, st') ->
  exists new, math_blocks st' = math_blocks st ++ new.
Proof.
  intros Hm E. pose proof (pass_tokens m k content Hm s st) as (new & EB & _).
  rewrite E in EB. eauto.
Qed.

Lemma prefix_free_app (a b : list (kind * str)) :
  prefix_free (a ++ b) -> prefix_free a.
Proof. intros H. now apply Forall_app in H as [H _]. Qed.

Lemma sourced_trans (a b c : str) : sourced a b -> sourced b c -> sourced a c.
Proof. intros H1 H2 z Fz Pz H. apply H1; auto. Qed.

(** The four passes leave every token of a stored block once in the text,
    and nothing else that begins like a token, when the text they are given
    does not hold the prefix and no stored block does. *)
Lemma extract_math_placed (main text : str) (st : extraction) :
  extract_math main no_math = (text, st) ->
  occurs placeholder_prefix main = false ->
  prefix_free (math_blocks st) ->
  placed (math_blocks st) text /\ sourced main text.
Proof.
  unfold extract_math. intros E Hm Hp.
  change extract_align_env with (extract_with align align_content_of) in E.
  change extract_other_env with (extract_with env (group 0)) in E.
  change extract_display_math with (extract_with display (group 1)) in E.
  change extract_inline_math with (extract_with inline (group 1)) in E.
  destruct (re_sub_st align_re _ main no_math) as [t1 s1] eqn:E1.
  destruct (re_sub_st env_re _ t1 s1) as [t2 s2] eqn:E2.
  destruct (re_sub_st display_re _ t2 s2) as [t3 s3] eqn:E3.
  destruct (pass_grows _ _ _ _ _ _ _ inline_encloses E) as (n4 & G4).
  destruct (pass_grows _ _ _ _ _ _ _ display_encloses E3) as (n3 & G3).
  destruct (pass_grows _ _ _ _ _ _ _ env_encloses E2) as (n2 & G2).
  assert (P3 : prefix_free (math_blocks s3))
    by (rewrite G4 in Hp; now apply prefix_free_app in Hp).
  assert (P2 : prefix_free (math_blocks s2))
    by (rewrite G3 in P3; now apply prefix_free_app in P3).
  assert (P1 : prefix_free (math_blocks s1))
    by (rewrite G2 in P2; now apply prefix_free_app in P2).
  assert (H0 : placed (math_blocks no_math) main).
  { split; [now apply guarded_clear|]. intros w []. }
  destruct (pass_placed _ _ _ align_encloses _ _ _ _ E1 H0 P1) as (H1 & S1 & _).
  destruct (pass_placed _ _ _ env_encloses _ _ _ _ E2 H1 P2) as (H2 & S2 & _).
  destruct (pass_placed _ _ _ display_encloses _ _ _ _ E3 H2 P3)
    as (H3 & S3 & _).
  destruct (pass_placed _ _ _ inline_encloses _ _ _ _ E H3 Hp) as (H4 & S4 & _).
  split; [exact H4|].
  intros z Fz Pz H. apply S1, S2, S3, S4; auto.
Qed.

(** ** Substitution by a template *)

Lemma guarded_short (V : list str) (t : str) :
  length t < length placeholder_prefix -> guarded V t.
Proof.
  intros H x y E. rewrite E in H. rewrite !length_app in H. lia.
Qed.

Lemma guarded_empty (V : list str) : guarded V [].
Proof. apply guarded_short. simpl. lia. Qed.

Lemma guarded_nth (V : list str) (gs : list str) (i : nat) :
  Forall (guarded V) gs -> guarded V (nth i gs []).
Proof.
  revert i. induction gs as [|g gs IH]; intros [|i] H; simpl;
    try apply guarded_empty; inversion H; auto.
Qed.

Lemma guarded_app_l (V : list str) (a b : str) :
  guarded V a -> guarded V b -> seals a = true -> guarded V (a ++ b).
Proof.
  intros Ha Hb H. apply guarded_app; auto. rewrite H. apply orb_true_r.
Qed.

Lemma guarded_app_r (V : list str) (a b : str) :
  guarded V a -> guarded V b -> cuts b = true -> guarded V (a ++ b).
Proof. intros Ha Hb H. apply guarded_app; auto. now rewrite H. Qed.

Lemma guarded_cons (V : list str) (c : ascii) (b : str) :
  guarded V b -> seals [c] = true -> guarded V (c :: b).
Proof.
  intros Hb H. apply (guarded_app_l V [c] b); auto.
  apply guarded_short. simpl. lia.
Qed.

Lemma fenced_parts (a b : str) :
  opens a = true -> shut b = true -> fenced (a ++ b) = true.
Proof.
  unfold shut, opens, fenced. destruct a as [|c a]; [discriminate|].
  intros Ha Hb. cbn [app].
  change (c :: a ++ b) with ((c :: a) ++ b). rewrite rev_app_distr.
  destruct (rev b) as [|d r]; [discriminate|]. cbn [app].
  now rewrite Ha, Hb.
Qed.

Lemma shut_app (a b : str) : shut b = true -> shut (a ++ b) = true.
Proof.
  unfold shut, opens. rewrite rev_app_distr.
  destruct (rev b); [discriminate|]. auto.
Qed.

Lemma shut_cons (c : ascii) (b : str) : shut b = true -> shut (c :: b) = true.
Proof. apply (shut_app [c] b). Qed.

Lemma tail_char_inert (c : ascii) : tail_char c = true -> inert c = true.
Proof.
  unfold tail_char. intros H. apply orb_true_iff in H as [H|H].
  - now apply digit_inert.
  - apply existsb_exists in H as (x & Hx & E).
    apply Ascii.eqb_eq in E. subst x.
    cbn in Hx. repeat (destruct Hx as [<-|Hx]; [reflexivity|]). destruct Hx.
Qed.

Lemma stops_cuts (x : str) : stops x = true -> cuts x = true.
Proof.
  destruct x as [|c x]; [reflexivity|]. cbn [stops cuts]. intros H.
  destruct (tail_char c) eqn:E; [|reflexivity].
  apply tail_char_inert in E. now rewrite E in H.
Qed.

Lemma space_cuts (c : ascii) (x : str) : is_space c = true -> cuts (c :: x) = true.
Proof.
  intros H. apply stops_cuts. cbn [stops]. unfold inert. now rewrite H.
Qed.

Lemma nl_cuts (x : str) : cuts (nl :: x) = true.
Proof. reflexivity. Qed.

(** A substitution of the renderer keeps the text guarded. *)
Lemma re_sub_guarded (V : list str) (m : matcher) (T : list str -> str) :
  Forall is_token V -> groups_within m -> template_ok T ->
  forall s, guarded V s -> guarded V (re_sub m T s).
Proof.
  intros TV Hm HT.
  apply (re_sub_rel_plain m T (fun s out => guarded V s -> guarded V out)).
  - intros prev s gs n M. now destruct (Hm _ _ _ _ M).
  - auto.
  - intros u s gs n prev out M IH H.
    destruct (Hm _ _ _ _ M) as (_ & Cs & G).
    pose proof (guarded_suffix V u s H) as Hs.
    pose proof (guarded_prefix V TV u s H Cs) as Hu.
    assert (Hr : guarded V (skipn n s)).
    { apply (guarded_suffix V (firstn n s)). now rewrite firstn_skipn. }
    assert (Hg : Forall (guarded V) gs).
    { eapply Forall_impl; [|exact G]. intros g (a & b & E & Cb).
      rewrite E in Hs. apply guarded_suffix in Hs.
      now apply (guarded_prefix V TV g b). }
    destruct (HT V gs (firstn n s) Hg) as [GT FT].
    apply guarded_app_r; [assumption| |now apply fenced_cuts].
    apply guarded_app_l; auto.
    apply (fenced_seals [] _ FT).
Qed.

Ltac assoc_refl :=
  cbn [app lit list_ascii_of_string]; rewrite <- ?app_assoc;
  cbn [app]; rewrite <- ?app_assoc; reflexivity.

Ltac one_group_at a b :=
  constructor; [exists a, b; split; [|reflexivity]|].

Lemma paren_groups : groups_within paren_re.
Proof.
  intros prev s gs n H. unfold paren_re in H.
  destruct (strip_prefix (lit "(") s) as [r|] eqn:E; [|discriminate].
  apply strip_prefix_Some in E.
  destruct (drop_while (neqb ")") r) as [|d r'] eqn:D; [discriminate|].
  inversion H; subst gs n; clear H.
  pose proof (take_drop_while (neqb ")") r) as R. rewrite D in R.
  apply drop_while_head, neqb_false in D. subst d s.
  split; [lia|]. split; [reflexivity|].
  one_group_at (lit "(") (")" :: r'); [|constructor].
  now rewrite R at 1.
Qed.

Lemma citation_groups : groups_within citation_re.
Proof.
  intros prev s gs n H. unfold citation_re in H.
  destruct (strip_prefix (lit "[") s) as [r|] eqn:E; [|discriminate].
  apply strip_prefix_Some in E.
  destruct (take_while is_digit r) as [|g ds] eqn:Tk; [discriminate|].
  destruct (drop_while is_digit r) as [|d r'] eqn:D; [discriminate|].
  destruct (Ascii.eqb_spec d "]") as [->|]; [|discriminate].
  inversion H; subst gs n; clear H.
  pose proof (take_drop_while is_digit r) as R. rewrite D, Tk in R. subst s.
  split; [lia|]. split; [reflexivity|].
  one_group_at (lit "[") ("]" :: r'); [|constructor].
  now rewrite R at 1.
Qed.

Lemma heading_groups (level : nat) : groups_within (heading_re level).
Proof.
  intros prev s gs n H. unfold heading_re in H.
  destruct (at_line_start prev); [|discriminate].
  destruct (strip_prefix _ s) as [r|] eqn:E; [|discriminate].
  apply strip_prefix_Some in E.
  destruct (take_while not_nl r) as [|g body] eqn:Tk; [discriminate|].
  inversion H; subst gs n; clear H.
  pose proof (take_drop_while not_nl r) as R. rewrite Tk in R. subst s.
  split; [lia|]. split; [destruct level; reflexivity|].
  constructor; [|constructor].
  exists (repeat "#" level ++ lit " "), (drop_while not_nl r). split.
  - rewrite R at 1. now rewrite <- !app_assoc.
  - destruct (drop_while not_nl r) as [|d r'] eqn:D; [reflexivity|].
    apply drop_while_head in D. unfold not_nl in D. apply neqb_false in D.
    now subst d.
Qed.

Lemma bold_groups : groups_within bold_re.
Proof.
  intros prev s gs n H. unfold bold_re in H.
  destruct (strip_prefix (lit "**") s) as [r|] eqn:E; [|discriminate].
  apply strip_prefix_Some in E.
  destruct (take_while not_nl r) as [|c l] eqn:Tk; [discriminate|].
  destruct (find_sub (lit "**") l) as [[b a]|] eqn:F; [|discriminate].
  inversion H; subst gs n; clear H.
  pose proof (take_drop_while not_nl r) as R. rewrite Tk in R.
  apply find_sub_Some in F. subst l s.
  split; [lia|]. split; [reflexivity|].
  one_group_at (lit "**") (lit "**" ++ a ++ drop_while not_nl r);
    [|constructor].
  rewrite R at 1. assoc_refl.
Qed.

Lemma italic_groups : groups_within italic_re.
Proof.
  intros prev s gs n H. unfold italic_re in H.
  destruct (not_after "(" prev); [|discriminate].
  destruct (strip_prefix (lit "*") s) as [r|] eqn:E; [|discriminate].
  apply strip_prefix_Some in E.
  destruct r as [|c r']; [discriminate|].
  destruct (Ascii.eqb c nl); [discriminate|].
  destruct (italic_close r') as [b|] eqn:F; [|discriminate].
  inversion H; subst gs n; clear H.
  apply italic_close_shape in F as (rest & ->). subst s.
  split; [lia|]. split; [reflexivity|].
  one_group_at (lit "*") ("*" :: rest); [|constructor].
  reflexivity.
Qed.

Lemma link_groups : groups_within link_re.
Proof.
  intros prev s gs n H. unfold link_re in H.
  destruct (strip_prefix (lit "[") s) as [r|] eqn:E; [|discriminate].
  apply strip_prefix_Some in E.
  destruct r as [|c r']; [discriminate|].
  destruct (Ascii.eqb c nl); [discriminate|].
  destruct (link_close r') as [[t u]|] eqn:F; [|discriminate].
  inversion H; subst gs n; clear H.
  apply link_close_shape in F as (rest & ->). subst s.
  split; [lia|]. split; [reflexivity|].
  one_group_at (lit "[") (lit "](" ++ u ++ ")" :: rest); [assoc_refl|].
  one_group_at (lit "[" ++ (c :: t) ++ lit "](") (")" :: rest); [|constructor].
  assoc_refl.
Qed.

Lemma bracket_text_groups : groups_within bracket_text_re.
Proof.
  intros prev s gs n H. unfold bracket_text_re in H.
  destruct (strip_prefix (lit "[") s) as [r|] eqn:E; [|discriminate].
  apply strip_prefix_Some in E.
  destruct r as [|c r']; [discriminate|].
  destruct (neqb c "]" && negb (is_digit c)); [|discriminate].
  destruct (drop_while (neqb "]") r') as [|d r''] eqn:D; [discriminate|].
  inversion H; subst gs n; clear H.
  pose proof (take_drop_while (neqb "]") r') as R. rewrite D in R.
  apply drop_while_head, neqb_false in D. subst d s.
  split; [lia|]. split; [reflexivity|].
  one_group_at (lit "[") ("]" :: r''); [|constructor].
  cbn [app]. now rewrite R at 1.
Qed.

Lemma url_from_groups (scheme s : str) (gs : list str) (n : nat) :
  url_from scheme s = Some (gs, n) ->
  scheme <> [] ->
  0 < n
  /\ Forall (fun g => exists a b, s = a ++ g ++ b /\ cuts b = true) gs
  /\ exists r, s = scheme ++ r.
Proof.
  unfold url_from. intros H Hs.
  destruct (strip_prefix scheme s) as [r|] eqn:E; [|discriminate].
  apply strip_prefix_Some in E.
  set (p := fun c => negb (is_space c)) in *.
  destruct (take_while p r) as [|c u] eqn:Tk; [discriminate|].
  inversion H; subst gs n; clear H.
  pose proof (take_drop_while p r) as R. rewrite Tk in R.
  split; [destruct scheme; [congruence|simpl; lia]|].
  split; [|eauto].
  constructor; [|constructor].
  exists [], (drop_while p r). split.
  - cbn [app]. rewrite E. rewrite R at 1. now rewrite <- !app_assoc.
  - destruct (drop_while p r) as [|d r'] eqn:D; [reflexivity|].
    apply drop_while_head in D. unfold p in D.
    apply negb_false_iff in D. now apply space_cuts.
Qed.

Lemma url_groups : groups_within url_re.
Proof.
  intros prev s gs n H. unfold url_re in H.
  destruct (url_from (lit "https://") s) as [x|] eqn:E.
  - inversion H; subst x.
    apply url_from_groups in E as (Hn & G & (r & ->)); [|discriminate].
    repeat split; auto.
  - apply url_from_groups in H as (Hn & G & (r & ->)); [|discriminate].
    repeat split; auto.
Qed.

(** ** The templates of the source *)

Ltac guard_parts :=
  repeat first
    [ assumption
    | apply guarded_nth; assumption
    | apply guarded_clear; reflexivity
    | match goal with
      | |- guarded _ (_ ++ _) =>
          first [ apply guarded_app_l; [| |reflexivity]
                | apply guarded_app_r; [| |reflexivity] ]
      | |- guarded _ (_ :: _) => apply guarded_cons; [|reflexivity]
      end ].

Ltac fenced_tac :=
  apply fenced_parts;
    [reflexivity
    |repeat first [reflexivity | apply shut_app | apply shut_cons]].

Ltac template_tac :=
  let V := fresh "V" in
  let gs := fresh "gs" in
  let g0 := fresh "g0" in
  let Hg := fresh "Hg" in
  intros V gs g0 Hg;
  cbv beta delta [notmath escape_citation heading_tag anchor citation_number
                    bracket_content];
  cbn [group nth]; split; [guard_parts | fenced_tac].

Lemma paren_template :
  template_ok (fun gs => notmath (lit "(" ++ group 1 gs ++ lit ")")).
Proof. template_tac. Qed.

Lemma citation_template : template_ok escape_citation.
Proof. template_tac. Qed.

Lemma heading_template (level : nat) :
  1 <= level <= 4 -> template_ok (heading_tag level).
Proof.
  intros H.
  assert (E : level = 1 \/ level = 2 \/ level = 3 \/ level = 4) by lia.
  destruct E as [-> | [-> | [-> | ->]]]; template_tac.
Qed.

Lemma bold_template :
  template_ok (fun gs => lit "<strong>" ++ group 1 gs ++ lit "</strong>").
Proof. template_tac. Qed.

Lemma italic_template :
  template_ok (fun gs => lit "<em>" ++ group 1 gs ++ lit "</em>").
Proof. template_tac. Qed.

Lemma link_template :
  template_ok (fun gs => anchor (group 2 gs) (group 1 gs)).
Proof. template_tac. Qed.

Lemma citation_number_template : template_ok citation_number.
Proof. template_tac. Qed.

Lemma bracket_content_template : template_ok bracket_content.
Proof. template_tac. Qed.

Lemma paren_entity_template :
  template_ok (fun gs => lit "&#40;" ++ group 1 gs ++ lit "&#41;").
Proof. template_tac. Qed.

Lemma url_template :
  template_ok (fun gs => anchor (group 1 gs) (group 1 gs)).
Proof. template_tac. Qed.

(** ** The renderer and the References block on guarded text *)

Lemma join_cons (sep p : str) (ps : list str) :
  ps <> [] -> join sep (p :: ps) = p ++ sep ++ join sep ps.
Proof. destruct ps; [congruence|reflexivity]. Qed.

Lemma join_head (sep : str) (c : ascii) (l : str) (ls : list str) :
  join sep ((c :: l) :: ls) = c :: join sep (l :: ls).
Proof. destruct ls; reflexivity. Qed.

Lemma split_lines_cons (c : ascii) (s : str) :
  split_lines (c :: s)
  = if Ascii.eqb c nl then [] :: split_lines s
    else (c :: hd [] (split_lines s)) :: tl (split_lines s).
Proof.
  cbn [split_lines]. destruct (Ascii.eqb c nl); [reflexivity|].
  now destruct (split_lines_nonempty s) as (l & ls & ->).
Qed.

Lemma split_lines_not_nil (s : str) : split_lines s <> [].
Proof. now destruct (split_lines_nonempty s) as (l & ls & ->). Qed.

Lemma split_blank_not_nil (s : str) : split_blank s <> [].
Proof. now destruct (split_blank_nonempty s) as (l & ls & ->). Qed.

(** Splitting at the line ends and joining with a line end again gives the
    text back. *)
Lemma join_split_lines (s : str) : join [nl] (split_lines s) = s.
Proof.
  induction s as [|c s IH]; [reflexivity|].
  rewrite split_lines_cons.
  destruct (Ascii.eqb_spec c nl) as [->|].
  - rewrite join_cons by apply split_lines_not_nil. cbn [app].
    now rewrite IH.
  - destruct (split_lines_nonempty s) as (l & ls & E). rewrite E in *.
    cbn [hd tl]. rewrite join_head. now rewrite IH.
Qed.

(** The same for the split at blank lines. *)
Lemma join_split_blank (s : str) :
  join [nl; nl] (split_blank s) = s
  /\ forall c, join [nl; nl] (split_blank (c :: s)) = c :: s.
Proof.
  induction s as [|d s [IH1 IH2]].
  - split; [reflexivity|]. intros c. reflexivity.
  - split; [apply IH2|]. intros c.
    assert (K : join [nl; nl]
                  match split_blank (d :: s) with
                  | l :: ls => (c :: l) :: ls
                  | [] => [[c]]
                  end = c :: d :: s).
    { destruct (split_blank_nonempty (d :: s)) as (l & ls & E).
      rewrite E. rewrite join_head. rewrite <- E. now rewrite IH2. }
    change (split_blank (c :: d :: s))
      with (if Ascii.eqb c nl && Ascii.eqb d nl then [] :: split_blank s
            else match split_blank (d :: s) with
                 | l :: ls => (c :: l) :: ls
                 | [] => [[c]]
                 end).
    destruct (Ascii.eqb_spec c nl) as [->|]; [|exact K].
    destruct (Ascii.eqb_spec d nl) as [->|]; [|exact K].
    cbn [andb]. rewrite join_cons by apply split_blank_not_nil.
    cbn [app]. now rewrite IH1.
Qed.

Section Lines.

Variable V : list str.
Hypothesis V_tokens : Forall is_token V.

Lemma guarded_join_parts (sep : str) (parts : list str) :
  sep <> [] -> cuts sep = true ->
  guarded V (join sep parts) -> Forall (guarded V) parts.
Proof.
  intros Hs Hc. induction parts as [|p ps IH]; intros H; [constructor|].
  destruct ps as [|q ps]; [repeat constructor; exact H|].
  rewrite join_cons in H by discriminate.
  constructor.
  - apply (guarded_prefix V V_tokens p _ H). now rewrite cuts_app.
  - apply IH. apply guarded_suffix in H. now apply guarded_suffix in H.
Qed.

Lemma guarded_join (sep : str) (parts : list str) :
  sep <> [] -> cuts sep = true -> seals sep = true -> guarded V sep ->
  Forall (guarded V) parts -> guarded V (join sep parts).
Proof.
  intros Hs Hc Hl Hg. induction parts as [|p ps IH]; intros H.
  - apply guarded_empty.
  - inversion H as [|? ? Hp Hps]; subst.
    destruct ps as [|q ps]; [exact Hp|].
    rewrite join_cons by discriminate.
    apply guarded_app_r; [assumption| |now rewrite cuts_app].
    apply guarded_app_l; auto.
Qed.

Lemma guarded_split_lines (s : str) :
  guarded V s -> Forall (guarded V) (split_lines s).
Proof.
  intros H. apply (guarded_join_parts [nl]); [discriminate|reflexivity|].
  now rewrite join_split_lines.
Qed.

Lemma guarded_split_blank (s : str) :
  guarded V s -> Forall (guarded V) (split_blank s).
Proof.
  intros H. apply (guarded_join_parts [nl; nl]); [discriminate|reflexivity|].
  now rewrite (proj1 (join_split_blank s)).
Qed.

Lemma guarded_join_nl (parts : list str) :
  Forall (guarded V) parts -> guarded V (join [nl] parts).
Proof.
  apply guarded_join; [discriminate|reflexivity|reflexivity|].
  apply guarded_short. simpl. lia.
Qed.

Lemma take_while_in (p : ascii -> bool) (s : str) (c : ascii) :
  In c (take_while p s) -> p c = true.
Proof.
  induction s as [|d s IH]; simpl; [intros []|].
  destruct (p d) eqn:E; [|intros []].
  intros [<-|H]; auto.
Qed.

Lemma guarded_drop_while (p : ascii -> bool) (s : str) :
  guarded V s -> guarded V (drop_while p s).
Proof.
  intros H. rewrite (take_drop_while p s) in H.
  now apply guarded_suffix in H.
Qed.

Lemma rstrip_parts (s : str) :
  exists t, s = rstrip s ++ t /\ cuts t = true.
Proof.
  unfold rstrip. exists (rev (take_while is_space (rev s))). split.
  - rewrite <- rev_app_distr, <- take_drop_while. now rewrite rev_involutive.
  - destruct (rev (take_while is_space (rev s))) as [|c t] eqn:E;
      [reflexivity|].
    apply space_cuts. apply (take_while_in is_space (rev s)).
    apply in_rev. rewrite E. now left.
Qed.

Lemma guarded_rstrip (s : str) : guarded V s -> guarded V (rstrip s).
Proof.
  intros H. destruct (rstrip_parts s) as (t & E & C).
  rewrite E in H. now apply (guarded_prefix V V_tokens _ t).
Qed.

Lemma guarded_strip (s : str) : guarded V s -> guarded V (strip s).
Proof.
  intros H. unfold strip, lstrip. now apply guarded_rstrip, guarded_drop_while.
Qed.

Lemma guarded_skipn (n : nat) (s : str) : guarded V s -> guarded V (skipn n s).
Proof.
  intros H. rewrite <- (firstn_skipn n s) in H.
  now apply guarded_suffix in H.
Qed.

Lemma guarded_quote_content (line : str) :
  guarded V line -> guarded V (quote_content line).
Proof.
  intros H. unfold quote_content, lstrip_gt.
  now apply guarded_strip, guarded_drop_while, guarded_strip.
Qed.

Lemma scan_line_guarded (st : RenderState) (line : str) :
  Forall (fun e => guarded V (emitted_text e)) (result st) ->
  guarded V line ->
  Forall (fun e => guarded V (emitted_text e)) (result (scan_line st line)).
Proof.
  intros Hr Hl.
  pose proof (guarded_quote_content line Hl) as Hq.
  pose proof (guarded_skipn 2 (strip line) (guarded_strip line Hl)) as Hi.
  destruct st as [il ib res]. unfold scan_line.
  cbn [in_list in_blockquote result] in *.
  destruct (startswith (lit ">") (strip line));
    [|destruct (startswith (lit "- ") (strip line))];
    destruct ib, il;
    cbn [append set_in_blockquote set_in_list in_list in_blockquote result
           negb];
    repeat (apply Forall_app; split); try assumption;
    repeat constructor; cbn [emitted_text]; guard_parts.
Qed.

Lemma scan_lines_guarded (lines : list str) (st : RenderState) :
  Forall (fun e => guarded V (emitted_text e)) (result st) ->
  Forall (guarded V) lines ->
  Forall (fun e => guarded V (emitted_text e))
    (result (fold_left scan_line lines st)).
Proof.
  revert st. induction lines as [|l lines IH]; intros st Hr Hl; [exact Hr|].
  inversion Hl; subst. cbn [fold_left]. apply IH; [|assumption].
  now apply scan_line_guarded.
Qed.

Lemma render_blocks_guarded (text : str) :
  guarded V text ->
  guarded V (join [nl] (map emitted_text (render_blocks text))).
Proof.
  intros H. apply guarded_join_nl. apply Forall_map.
  unfold render_blocks, scan_lines.
  pose proof (scan_lines_guarded (split_lines text) render_start
                (Forall_nil _) (guarded_split_lines text H)) as K.
  destruct (fold_left scan_line (split_lines text) render_start)
    as [il ib res].
  unfold close_open. cbn [in_list in_blockquote result] in *.
  destruct il, ib;
    cbn [append in_list in_blockquote result];
    repeat (apply Forall_app; split); try assumption;
    repeat constructor; cbn [emitted_text]; guard_parts.
Qed.

Lemma inline_formatting_guarded (text : str) :
  guarded V text -> guarded V (inline_formatting text).
Proof.
  intros H. unfold inline_formatting.
  apply re_sub_guarded;
    [assumption|apply link_groups|apply link_template|].
  apply re_sub_guarded;
    [assumption|apply italic_groups|apply italic_template|].
  apply re_sub_guarded;
    [assumption|apply bold_groups|apply bold_template|assumption].
Qed.

Lemma wrap_paragraph_guarded (p : str) :
  guarded V p -> guarded V (wrap_paragraph p).
Proof.
  intros H. unfold wrap_paragraph.
  pose proof (guarded_strip p H) as Hs.
  destruct (nonempty (strip p) && negb (startswith (lit "<") (strip p))
            && negb (endswith (lit ">") (strip p))); [|assumption].
  guard_parts.
Qed.

Lemma paragraphs_guarded (text : str) :
  guarded V text ->
  guarded V (join [nl] (map wrap_paragraph (split_blank text))).
Proof.
  intros H. apply guarded_join_nl. apply Forall_map.
  eapply Forall_impl; [|apply (guarded_split_blank text H)].
  intros p. apply wrap_paragraph_guarded.
Qed.

Lemma heading_guarded (level : nat) (text : str) :
  1 <= level <= 4 ->
  guarded V text -> guarded V (re_sub (heading_re level) (heading_tag level) text).
Proof.
  intros Hl. apply re_sub_guarded;
    [assumption|apply heading_groups|now apply heading_template].
Qed.

Lemma process_regular_markdown_guarded (text : str) :
  guarded V text -> guarded V (process_regular_markdown text).
Proof.
  intros H. unfold process_regular_markdown.
  apply paragraphs_guarded, inline_formatting_guarded, render_blocks_guarded.
  repeat (apply heading_guarded; [lia|]). exact H.
Qed.

(** The guards and the renderer put no prefix into the text and leave every
    token of it whole. *)
Lemma render_main_guarded (text : str) :
  guarded V text -> guarded V (render_main text).
Proof.
  intros H. unfold render_main, protect_citations, protect_parentheses.
  apply re_sub_guarded;
    [assumption|apply citation_groups|apply citation_template|].
  apply process_regular_markdown_guarded.
  apply re_sub_guarded;
    [assumption|apply paren_groups|apply paren_template|assumption].
Qed.

Lemma replace_guarded (old new s : str) :
  old <> [] -> cuts old = true -> fenced new = true ->
  guarded V new -> guarded V s -> guarded V (str_replace old new s).
Proof.
  intros Ho Hc Fn Hn.
  apply (replace_rel old new (fun s out => guarded V s -> guarded V out));
    [assumption|auto|].
  intros u rest out _ IH H.
  pose proof (guarded_suffix V u _ H) as H1.
  apply guarded_suffix in H1.
  apply guarded_app_r; [| |now apply fenced_cuts].
  - apply (guarded_prefix V V_tokens u _ H). now rewrite cuts_app.
  - apply guarded_app_l; auto. apply (fenced_seals [] _ Fn).
Qed.

Lemma references_paragraph_guarded (p : str) :
  guarded V p -> guarded V (references_paragraph p).
Proof.
  intros H. unfold references_paragraph.
  destruct (nonempty (strip p) && negb (startswith (lit "<h") (strip p)));
    [|assumption].
  guard_parts.
Qed.

Lemma references_container_guarded (t : str) :
  guarded V t -> guarded V (references_container t).
Proof. intros H. unfold references_container. guard_parts. Qed.

Lemma render_references_guarded (section : str) :
  guarded V section -> guarded V (render_references section).
Proof.
  intros H. unfold render_references.
  apply references_container_guarded, guarded_join_nl, Forall_map.
  eapply Forall_impl; [intros p; apply references_paragraph_guarded|].
  apply guarded_split_blank.
  apply re_sub_guarded;
    [assumption|apply url_groups|apply url_template|].
  repeat (apply replace_guarded;
          [discriminate|reflexivity|reflexivity
          |apply guarded_short; simpl; lia|]).
  apply re_sub_guarded;
    [assumption|apply paren_groups|apply paren_entity_template|].
  apply re_sub_guarded;
    [assumption|apply bracket_text_groups|apply bracket_content_template|].
  apply re_sub_guarded;
    [assumption|apply citation_groups|apply citation_number_template|].
  repeat (apply heading_guarded; [lia|]). exact H.
Qed.

Lemma references_container_opens (t : str) (b : str) :
  cuts (references_container t ++ b) = true.
Proof. reflexivity. Qed.

Lemma add_references_guarded (refs : option str) (text : str) :
  guarded V text ->
  (forall section, refs = Some section -> guarded V section) ->
  guarded V (add_references refs text).
Proof.
  intros H Hr. unfold add_references.
  destruct refs as [section|]; [|assumption].
  destruct (nonempty section); [|assumption].
  apply guarded_app_r; [assumption| |].
  - apply render_references_guarded. now apply Hr.
  - pose proof (references_container_opens
                  (join [nl]
                     (map references_paragraph
                        (split_blank
                           (re_sub url_re
                              (fun gs => anchor (group 1 gs) (group 1 gs))
                              (str_replace (lit "\/") (lit "/")
                                 (str_replace (lit "\>") (lit ">")
                                    (str_replace (lit "\<") (lit "<")
                                       (re_sub paren_re
                                          (fun gs => lit "&#40;" ++ group 1 gs
                                                     ++ lit "&#41;")
                                          (re_sub bracket_text_re
                                             bracket_content
                                             (re_sub citation_re
                                                citation_number
                                                (re_sub (heading_re 3)
                                                   (heading_tag 3)
                                                   (re_sub (heading_re 2)
                                                      (heading_tag 2)
                                                      (re_sub (heading_re 1)
                                                         (heading_tag 1)
                                                         section)))))))))))))
                  []) as K.
    rewrite app_nil_r in K. exact K.
Qed.

End Lines.

(** ** Restitution *)

Lemma keeps_occurs (w : str) (f : str -> str) (t : str) :
  keeps w f -> occurs w t = true -> occurs w (f t) = true.
Proof.
  intros K H. apply occurs_true in H as (x & y & ->).
  destruct (K x y) as (x' & y' & ->). apply occurs_app.
Qed.

Lemma replacement_fenced (k : kind) (c : str) : fenced (replacement k c) = true.
Proof. destruct k; cbn [replacement]; apply fenced_ends; reflexivity. Qed.

Lemma escaped_prefix_free (c : str) :
  occurs placeholder_prefix c = false ->
  occurs placeholder_prefix (str_replace [backslash] [backslash; backslash] c)
  = false.
Proof.
  intros H. apply guarded_nil.
  apply (replace_guarded [] (Forall_nil _));
    [discriminate|reflexivity|reflexivity| |now apply guarded_clear].
  apply guarded_short. simpl. lia.
Qed.

Lemma replacement_prefix_free (k : kind) (c : str) :
  occurs placeholder_prefix c = false ->
  occurs placeholder_prefix (replacement k c) = false.
Proof.
  intros H. apply escaped_prefix_free in H.
  destruct k; cbn [replacement]; now apply prefix_free_wrap.
Qed.

(** Text guarded by a token that is not in it is guarded by the others. *)
Lemma guarded_drop (tok : str) (V : list str) (t : str) :
  guarded (tok :: V) t -> occurs tok t = false -> guarded V t.
Proof.
  intros H N x y E. destruct (H x y E) as (w & y' & [<-|Hw] & F); [|eauto].
  exfalso. rewrite E, F in N. now rewrite occurs_app in N.
Qed.

Lemma clear_before_occurs (pat u post : str) :
  pat <> [] -> clear_before pat u (pat ++ post) -> occurs pat u = false.
Proof.
  intros Hp C. destruct (occurs pat u) eqn:E; [|reflexivity].
  apply occurs_true in E as (x & y & ->).
  specialize (C x (pat ++ y) eq_refl).
  rewrite <- app_assoc, strip_prefix_app in C.
  discriminate C. destruct pat; [congruence|discriminate].
Qed.

(** Replacing a token by text without the prefix removes it from the
    guards. *)
Lemma replace_token (tok new : str) (V : list str) (s : str) :
  is_token tok -> Forall is_token V ->
  fenced new = true -> occurs placeholder_prefix new = false ->
  guarded (tok :: V) s -> guarded V (str_replace tok new s).
Proof.
  intros Ht TV Fn Pn.
  assert (TV' : Forall is_token (tok :: V)) by now constructor.
  pose proof (token_not_nil tok Ht) as Hn.
  apply (replace_rel tok new
           (fun s out => guarded (tok :: V) s -> guarded V out));
    [assumption| |].
  - intros s' N H. now apply (guarded_drop tok).
  - intros u rest out C IH H.
    pose proof (guarded_suffix _ u _ H) as H1.
    apply guarded_suffix in H1.
    assert (Hu : guarded (tok :: V) u).
    { apply (guarded_prefix _ TV' u _ H).
      destruct Ht as (i & k & ->). apply token_cuts. }
    apply guarded_app_r; [| |now apply fenced_cuts].
    + apply (guarded_drop tok); [assumption|].
      now apply (clear_before_occurs tok u rest).
    + apply guarded_app_l; auto; [now apply guarded_clear|].
      apply (fenced_seals [] _ Fn).
Qed.

(** Restitution leaves no prefix in text that holds it only in the tokens
    of the blocks. *)
Lemma restore_clears (blocks : list (kind * str)) :
  prefix_free blocks ->
  forall i text,
    guarded (tokens_from i blocks) text ->
    occurs placeholder_prefix (restore_from i blocks text) = false.
Proof.
  induction blocks as [|[k c] rest IH]; intros Hp i text H.
  - now apply guarded_nil.
  - inversion Hp as [|? ? Pc Pr]; subst. cbn [snd] in Pc.
    cbn [restore_from]. apply IH; [assumption|].
    cbn [tokens_from fst] in H.
    apply replace_token; auto.
    + now exists i, k.
    + apply tokens_from_tokens.
    + apply replacement_fenced.
    + now apply replacement_prefix_free.
Qed.

(** Restitution keeps a fenced text without the prefix. *)
Lemma restore_keeps (z : str) (blocks : list (kind * str)) :
  fenced z = true -> occurs placeholder_prefix z = false ->
  forall i, keeps z (restore_from i blocks).
Proof.
  intros Fz Pz. induction blocks as [|[k c] rest IH]; intros i x y.
  - cbn [restore_from]. eauto.
  - cbn [restore_from].
    destruct (replace_keeps_apart (placeholder_format i k) (replacement k c) z)
      with (x := x) (y := y) as (x' & y' & ->).
    + discriminate.
    + now apply fenced_not_nil.
    + apply apart_fenced; auto. now exists i, k.
    + apply IH.
Qed.

(** Restitution puts the re-wrapped content of a block where its token
    stands. *)
Lemma restore_places (blocks : list (kind * str)) :
  prefix_free blocks ->
  forall i j k c text,
    nth_error blocks j = Some (k, c) ->
    occurs (placeholder_format (i + j) k) text = true ->
    occurs (replacement k c) (restore_from i blocks text) = true.
Proof.
  induction blocks as [|[k0 c0] rest IH]; intros Hp i j k c text Hn Ht.
  - destruct j; discriminate.
  - inversion Hp as [|? ? Pc Pr]; subst. cbn [snd] in Pc.
    cbn [restore_from]. destruct j as [|j].
    + inversion Hn; subst. rewrite Nat.add_0_r in Ht.
      apply keeps_occurs.
      * intros x y. apply restore_keeps;
          [apply replacement_fenced|now apply replacement_prefix_free].
      * apply occurs_true in Ht as (x & y & ->).
        destruct (replace_keeps (placeholder_format i k) (replacement k c))
          with (x := x) (y := y) as (x' & y' & ->); [discriminate|].
        apply occurs_app.
    + cbn [nth_error] in Hn. apply (IH Pr (S i) j k c); [assumption|].
      rewrite Nat.add_succ_comm. apply keeps_occurs; [|assumption].
      apply replace_keeps_apart; [discriminate|discriminate|].
      apply apart_tokens; [now exists i, k0|now exists (i + S j), k|].
      intros E. apply token_inj in E as [E _]. lia.
Qed.

Lemma paren_match (prev : option ascii) (s : str) (gs : list str) (n : nat) :
  paren_re prev s = Some (gs, n) ->
  exists body rest,
    s = (lit "(" ++ body ++ lit ")") ++ rest
    /\ gs = [body] /\ n = length (lit "(" ++ body ++ lit ")").
Proof.
  intros H. unfold paren_re in H.
  destruct (strip_prefix (lit "(") s) as [r|] eqn:E; [|discriminate].
  apply strip_prefix_Some in E.
  destruct (drop_while (neqb ")") r) as [|d r'] eqn:D; [discriminate|].
  inversion H; subst gs n; clear H.
  pose proof (take_drop_while (neqb ")") r) as R. rewrite D in R.
  apply drop_while_head, neqb_false in D. subst d s.
  exists (take_while (neqb ")") r), r'. split; [|split; [reflexivity|]].
  - rewrite R at 1. now rewrite <- !app_assoc.
  - rewrite !length_app. simpl. lia.
Qed.

(** The parenthesis guard leaves every token where it is: the number of its
    occurrences does not change. *)
Lemma protect_parentheses_counts (V : list str) (w s : str) :
  Forall is_token V -> is_token w -> guarded V s ->
  count_at w (protect_parentheses s) = count_at w s.
Proof.
  intros TV Hw. unfold protect_parentheses.
  apply (re_sub_rel_plain paren_re
           (fun gs => notmath (lit "(" ++ group 1 gs ++ lit ")"))
           (fun s out => guarded V s -> count_at w out = count_at w s)).
  - intros prev s' gs n M. now destruct (paren_groups _ _ _ _ M).
  - auto.
  - intros u s' gs n prev out M IH H.
    destruct (paren_match _ _ _ _ M) as (body & rest & -> & -> & ->).
    rewrite firstn_exact. rewrite skipn_exact in IH.
    cbn [group nth].
    set (M' := lit "(" ++ body ++ lit ")") in *.
    pose proof (guarded_suffix V u _ H) as Hs.
    assert (Hu : guarded V u) by
      (apply (guarded_prefix V TV u _ H); reflexivity).
    assert (Hr : guarded V rest) by now apply guarded_suffix in Hs.
    assert (Hb : guarded V body).
    { unfold M' in Hs. rewrite <- !app_assoc in Hs.
      apply guarded_suffix in Hs.
      apply (guarded_prefix V TV body _ Hs). reflexivity. }
    assert (HM : guarded V M') by (unfold M'; guard_parts).
    assert (HT : guarded V (notmath M')) by (unfold notmath; guard_parts).
    assert (SM : seals M' = true).
    { unfold M'. rewrite !app_assoc. now rewrite seals_app. }
    assert (E1 : count_at w (notmath M') = count_at w M').
    { unfold notmath.
      change (lit "<span class=" ++ dq :: lit "notmath" ++ dq :: lit ">"
              ++ M' ++ lit "</span>")
        with ((lit "<span class=" ++ dq :: lit "notmath" ++ dq :: lit ">")
              ++ M' ++ lit "</span>").
      rewrite (count_app V TV w _ (M' ++ lit "</span>") Hw);
        [|apply guarded_clear; reflexivity|reflexivity].
      rewrite (count_app V TV w M' (lit "</span>") Hw HM) by reflexivity.
      rewrite (count_clear w (lit "</span>") Hw eq_refl).
      rewrite (count_clear w
                 (lit "<span class=" ++ dq :: lit "notmath" ++ dq :: lit ">")
                 Hw eq_refl).
      lia. }
    rewrite (count_app V TV w u (notmath M' ++ out) Hw Hu) by reflexivity.
    assert (ST : seals (notmath M') = true).
    { unfold notmath. rewrite !app_comm_cons, !app_assoc.
      now rewrite seals_app. }
    rewrite (count_app V TV w (notmath M') out Hw HT)
      by (rewrite ST; apply orb_true_r).
    rewrite (count_app V TV w u (M' ++ rest) Hw Hu) by reflexivity.
    rewrite (count_app V TV w M' rest Hw HM)
      by (rewrite SM; apply orb_true_r).
    rewrite E1, IH by assumption. reflexivity.
Qed.

Lemma re_search_parts (m : matcher) (s : str) :
  forall prev b gs a,
    re_search_from m prev s = Some (b, gs, a) ->
    exists prev' gs' n,
      m prev' (skipn (length b) s) = Some (gs', n)
      /\ gs = firstn n (skipn (length b) s) :: gs'
      /\ s = b ++ firstn n (skipn (length b) s) ++ a.
Proof.
  induction s as [|c s IH]; intros prev b gs a H; cbn [re_search_from] in H.
  - destruct (m prev []) as [[gs' n]|] eqn:M; [|discriminate].
    inversion H; subst. exists prev, gs', n. cbn [length skipn].
    split; [assumption|]. split; [reflexivity|].
    cbn [app]. now rewrite firstn_skipn.
  - destruct (m prev (c :: s)) as [[gs' n]|] eqn:M.
    + inversion H; subst. exists prev, gs', n. cbn [length skipn].
      split; [assumption|]. split; [reflexivity|].
      cbn [app]. now rewrite firstn_skipn.
    + destruct (re_search_from m (Some c) s) as [[[b' gs0] a']|] eqn:F;
        [|discriminate].
      inversion H; subst.
      destruct (IH _ _ _ _ F) as (prev' & gs' & n & M' & -> & E).
      exists prev', gs', n. cbn [length skipn app].
      split; [assumption|]. split; [reflexivity|]. now rewrite <- E.
Qed.

(** The References split cuts the input in two. *)
Lemma split_references_parts (s main : str) (refs : option str) :
  split_references s = Some (main, refs) ->
  s = main ++ match refs with Some r => r | None => [] end.
Proof.
  unfold split_references.
  destruct (re_search references_search_re s) as [x|];
    [|intros [= <- <-]; now rewrite app_nil_r].
  unfold re_split1.
  destruct (re_search references_split_re s) as [[[b gs] a]|] eqn:F.
  - apply re_search_parts in F as (prev' & gs' & n & M & -> & E).
    unfold references_split_re in M.
    destruct (references_heading prev' (skipn (length b) s)) as [[h n']|];
      [|discriminate].
    inversion M; subst gs' n'. cbn [tl app nth_error length Nat.ltb Nat.leb nth].
    intros [= <- <-]. exact E.
  - cbn [nth_error]. discriminate.
Qed.

(** ** From the extraction to the output *)

Lemma add_references_keeps (z : str) (refs : option str) (text : str) :
  occurs z text = true -> occurs z (add_references refs text) = true.
Proof.
  intros H. unfold add_references. destruct refs as [section|]; [|assumption].
  destruct (nonempty section); [|assumption]. now apply occurs_app_l.
Qed.

Lemma prefix_free_script (t : str) (b : bool) :
  occurs placeholder_prefix t = false ->
  occurs placeholder_prefix (t ++ (if b then mathjax_script else [])) = false.
Proof.
  intros H. destruct b; [|now rewrite app_nil_r].
  apply guarded_nil. apply guarded_app_r;
    [now apply guarded_clear|apply guarded_clear; reflexivity|reflexivity].
Qed.

(** The text between extraction and restitution holds the prefix only in
    the tokens of the stored blocks. *)
Lemma rendered_guarded (s main text : str) (refs : option str)
    (st : extraction) :
  split_references s = Some (main, refs) ->
  extract_math main no_math = (text, st) ->
  occurs placeholder_prefix s = false ->
  prefix_free (math_blocks st) ->
  placed (math_blocks st) text
  /\ guarded (tokens_from 0 (math_blocks st))
       (add_references refs (render_main text)).
Proof.
  intros Hs He H1 H2.
  pose proof (split_references_parts s main refs Hs) as E.
  rewrite E in H1. apply occurs_false_app in H1 as [Pm Pr].
  destruct (extract_math_placed main text st He Pm H2) as [Hp _].
  split; [assumption|].
  pose proof (tokens_from_tokens 0 (math_blocks st)) as TV.
  apply add_references_guarded; [assumption| |].
  - apply render_main_guarded; [assumption|apply Hp].
  - intros section ->. now apply guarded_clear.
Qed.

(** With no prefix in the input and none in a stored block: every token is
    once in the text handed to the renderer, also behind the parenthesis
    guard, it is in the rendered text, its block is in the output, and the
    output holds no prefix. *)
Lemma tokens_round_trip (s main text html : str) (refs : option str)
    (st : extraction) :
  split_references s = Some (main, refs) ->
  extract_math main no_math = (text, st) ->
  convert_markdown_to_html s = Some html ->
  occurs placeholder_prefix s = false ->
  prefix_free (math_blocks st) ->
  occurs placeholder_prefix html = false
  /\ forall i k c,
      nth_error (math_blocks st) i = Some (k, c) ->
      count_at (placeholder_format i k) text = 1
      /\ count_at (placeholder_format i k) (protect_parentheses text) = 1
      /\ occurs (placeholder_format i k) (render_main text) = true
      /\ occurs (replacement k c) html = true.
Proof.
  intros Hs He Hc H1 H2.
  destruct (rendered_guarded s main text refs st Hs He H1 H2) as [[Hg Hn] Hr].
  rewrite (convert_stages s main text refs st Hs He) in Hc.
  inversion Hc as [Eh]. clear Hc.
  pose proof (tokens_from_tokens 0 (math_blocks st)) as TV.
  split.
  - apply prefix_free_script. now apply restore_clears.
  - intros i k c Hi.
    pose proof (tokens_from_nth 0 i _ k c Hi) as Hin. cbn [plus] in Hin.
    assert (Tw : is_token (placeholder_format i k)) by now exists i, k.
    pose proof (Hn _ Hin) as C1.
    assert (O1 : occurs (placeholder_format i k) text = true)
      by (apply count_pos; lia).
    assert (O2 : occurs (placeholder_format i k) (render_main text) = true)
      by (apply keeps_occurs; [apply render_main_keeps_tokens|assumption]).
    split; [assumption|]. split.
    { rewrite (protect_parentheses_counts _ _ _ TV Tw Hg). assumption. }
    split; [assumption|].
    apply occurs_app_l. apply (restore_places _ H2 0 i k c); [assumption|].
    cbn [plus]. now apply add_references_keeps.
Qed.


(** ** One align environment, whatever other environments its body holds *)

Lemma align_re_whole (prev : option ascii) (b post : str) :
  occurs end_align b = false ->
  align_re prev ((begin_align ++ b ++ end_align) ++ post)
  = Some ([b], length (begin_align ++ b ++ end_align)).
Proof.
  intros H. unfold align_re. rewrite <- !app_assoc. rewrite strip_prefix_app.
  rewrite find_sub_first.
  - rewrite !length_app. simpl. repeat f_equal; lia.
  - apply inside_None; [assumption|].
    simpl. intros ? [= <-]. simpl. intuition discriminate.
Qed.

Lemma align_content_whole (b : str) :
  occurs begin_align b = false ->
  occurs end_align b = false ->
  str_replace end_align end_align_star
    (str_replace begin_align begin_align_star (begin_align ++ b ++ end_align))
  = begin_align_star ++ b ++ end_align_star.
Proof.
  intros Hb He. rewrite !str_replace_nonempty by discriminate.
  rewrite replace_match_head by discriminate.
  rewrite (replace_clear begin_align).
  - transitivity (replace_from end_align end_align_star 0
                    ((begin_align_star ++ b) ++ end_align ++ [])).
    { now rewrite app_nil_r, <- app_assoc. }
    rewrite replace_first; [now rewrite <- app_assoc|discriminate|].
    apply clear_before_app.
    + cbv [begin_align_star lit list_ascii_of_string].
      repeat (apply clear_before_cons; [reflexivity|]).
      apply clear_before_nil.
    + apply inside_None; [assumption|].
      simpl. intros ? [= <-]. simpl. intuition discriminate.
  - apply clear_app; [assumption| |].
    + simpl. intros ? [= <-]. simpl. intuition discriminate.
    + cbn [end_align begin_align lit list_ascii_of_string].
      repeat (apply clear_cons; [reflexivity|]).
      apply clear_nil. discriminate.
Qed.

Lemma extract_align_whole (b : str) :
  occurs begin_align b = false ->
  occurs end_align b = false ->
  extract_math (begin_align ++ b ++ end_align) no_math
  = (placeholder_format 0 align,
     {| math_blocks := [(align, begin_align_star ++ b ++ end_align_star)];
        has_math := true |}).
Proof.
  intros Hb He. unfold extract_math, re_sub_st.
  replace (begin_align ++ b ++ end_align)
    with ((begin_align ++ b ++ end_align) ++ []) by now rewrite app_nil_r.
  rewrite (re_sub_match_head _ align_re extract_align_env
             (begin_align ++ b ++ end_align) [] [b] None no_math
             (store align (begin_align_star ++ b ++ end_align_star) no_math)
             (placeholder_format 0 align)).
  - cbn [re_sub_from]. rewrite app_nil_r.
    generalize (begin_align_star ++ b ++ end_align_star).
    intros c. vm_compute. reflexivity.
  - discriminate.
  - now apply align_re_whole.
  - unfold extract_align_env. cbn [group nth].
    now rewrite align_content_whole.
Qed.

(** Restitution of one block, in text that holds no prefix besides. *)
Lemma restore_one (k : kind) (c x y : str) :
  occurs placeholder_prefix x = false ->
  occurs placeholder_prefix y = false ->
  restore [(k, c)] (x ++ placeholder_format 0 k ++ y)
  = x ++ replacement k c ++ y.
Proof.
  intros Hx Hy. cbn [restore restore_from].
  rewrite str_replace_nonempty by discriminate.
  rewrite replace_first; [|discriminate|].
  - rewrite replace_clear; [reflexivity|].
    rewrite token_parts. apply clear_longer. now apply clear_of_occurs.
  - rewrite token_parts. apply clear_before_longer.
    apply inside_None; [assumption|].
    simpl. intros ? [= <-]. simpl. intuition discriminate.
Qed.

(** [for i, (block_type, content) in enumerate(math_blocks)]: one
    replacement for each block, in the order of the list. *)
Lemma restore_enumerate (blocks : list (kind * str)) :
  forall i text,
    restore_from i blocks text
    = fold_left
        (fun t ib =>
           str_replace (placeholder_format (fst ib) (fst (snd ib)))
             (replacement (fst (snd ib)) (snd (snd ib))) t)
        (combine (seq i (length blocks)) blocks) text.
Proof.
  induction blocks as [|[k c] rest IH]; intros i text; [reflexivity|].
  cbn [restore_from length seq combine fold_left fst snd]. apply IH.
Qed.

(** ** An opening tag without its closing tag *)

Lemma begin_tag_fenced (name : str) : fenced (begin_tag name) = true.
Proof. unfold begin_tag. apply fenced_ends; reflexivity. Qed.

Lemma end_tag_fenced (name : str) : fenced (end_tag name) = true.
Proof. unfold end_tag. apply fenced_ends; reflexivity. Qed.

Lemma begin_tag_prefix_free (name : str) :
  occurs placeholder_prefix name = false ->
  occurs placeholder_prefix (begin_tag name) = false.
Proof. intros H. unfold begin_tag. now apply prefix_free_wrap. Qed.

Lemma end_tag_prefix_free (name : str) :
  occurs placeholder_prefix name = false ->
  occurs placeholder_prefix (end_tag name) = false.
Proof. intros H. unfold end_tag. now apply prefix_free_wrap. Qed.

(** The guards, the renderer, the References block and restitution leave an
    opening tag as it is, whatever else the text holds. *)
Lemma tag_kept_later (name text : str) (blocks : list (kind * str))
    (refs : option str) :
  forallb inert name = true ->
  occurs placeholder_prefix name = false ->
  occurs (begin_tag name) text = true ->
  occurs (begin_tag name)
    (restore blocks (add_references refs (render_main text))) = true.
Proof.
  intros Hi Hp H. unfold restore. apply keeps_occurs.
  - apply restore_keeps;
      [apply begin_tag_fenced|now apply begin_tag_prefix_free].
  - apply add_references_keeps.
    apply occurs_true in H as (x & y & ->).
    destruct (unclosed_tag_kept name x y Hi) as (x' & y' & E).
    unfold begin_tag. rewrite E. apply occurs_app.
Qed.

(** ** The passes go past an unclosed tag *)

Lemma strip_prefix_both (a b s : str) :
  strip_prefix (a ++ b) (a ++ s) = strip_prefix b s.
Proof.
  induction a as [|c a IH]; [reflexivity|].
  cbn [app strip_prefix]. now rewrite Ascii.eqb_refl.
Qed.

Lemma plain_name (name : str) :
  forallb plain_char name = true ->
  forallb inert name = true
  /\ forallb (neqb "}") name = true
  /\ forall c, In c name -> c <> "$" /\ c <> backslash.
Proof.
  intros H. rewrite forallb_forall in H. repeat split.
  - apply forallb_forall. intros c Hc. specialize (H c Hc).
    unfold plain_char in H. now destruct (inert c).
  - apply forallb_forall. intros c Hc. specialize (H c Hc).
    unfold plain_char in H.
    destruct (inert c); [|discriminate]. now destruct (neqb "}" c).
  - intros ->. specialize (H _ H0). discriminate.
  - intros ->. specialize (H _ H0). discriminate.
Qed.

(** The name of a tag is what stands before the first closing brace. *)
Lemma name_unique (n1 n2 r1 r2 : str) :
  forallb (neqb "}") n1 = true -> forallb (neqb "}") n2 = true ->
  n1 ++ "}" :: r1 = n2 ++ "}" :: r2 -> n1 = n2 /\ r1 = r2.
Proof.
  intros H1 H2 E.
  destruct (take_while_stop (neqb "}") n1 "}" r1 H1 eq_refl) as [T1 D1].
  destruct (take_while_stop (neqb "}") n2 "}" r2 H2 eq_refl) as [T2 D2].
  rewrite E in T1, D1. split; [congruence|].
  rewrite D1 in D2. now inversion D2.
Qed.

Lemma align_re_at_tag (prev : option ascii) (name y : str) :
  forallb (neqb "}") name = true ->
  occurs (end_tag name) y = false ->
  align_re prev (begin_tag name ++ y) = None.
Proof.
  intros Hn Hy. unfold align_re, begin_tag.
  change begin_align with (lit "\begin{" ++ lit "align}").
  rewrite <- !app_assoc. rewrite strip_prefix_both.
  destruct (strip_prefix (lit "align}") (name ++ lit "}" ++ y)) as [r|] eqn:E;
    [|reflexivity].
  apply strip_prefix_Some in E.
  change (lit "align}" ++ r) with (lit "align" ++ "}" :: r) in E.
  change (lit "}" ++ y) with ("}" :: y) in E.
  apply name_unique in E as [-> ->]; [|assumption|reflexivity].
  change (end_tag (lit "align")) with end_align in Hy.
  unfold occurs in Hy. now destruct (find_sub end_align r).
Qed.

Lemma env_re_at_tag (prev : option ascii) (name y : str) :
  forallb (neqb "}") name = true ->
  occurs (end_tag name) y = false ->
  env_re prev (begin_tag name ++ y) = None.
Proof.
  intros Hn Hy. destruct name as [|c name].
  - reflexivity.
  - unfold begin_tag. rewrite <- !app_assoc.
    apply env_re_unclosed; [discriminate|assumption|exact Hy].
Qed.

(** A scan passes over text and a tag in which its pattern starts nowhere. *)
Lemma past_tag St (m : matcher) (cb : list str -> St -> str * St)
    (pat x name y : str) (prev : option ascii) (st : St) :
  starts_with m pat ->
  (exists c0 pat', pat = c0 :: pat' /\ (c0 = backslash \/ c0 = "$")) ->
  clear_before pat x (begin_tag name ++ y) ->
  (forall prev', m prev' (begin_tag name ++ y) = None) ->
  forallb plain_char name = true ->
  re_sub_from m cb prev 0 (x ++ begin_tag name ++ y) st
  = let (out, st') :=
      re_sub_from m cb (last_seen prev (x ++ begin_tag name)) 0 y st in
    (x ++ begin_tag name ++ out, st').
Proof.
  intros Hm (c0 & pat' & -> & Hc) Hx Ht Hn.
  rewrite app_assoc. rewrite re_sub_nomatch_app.
  - destruct (re_sub_from m cb _ 0 y st). now rewrite <- app_assoc.
  - intros p1 l prev' E Hl.
    apply app_eq_app in E as (l' & [[E1 E2]|[E1 E2]]).
    + (* the position is in [x] or at the tag *)
      subst l. destruct l' as [|d l'].
      * apply Ht.
      * apply Hm. rewrite <- app_assoc. apply (Hx p1 (d :: l') E1).
        discriminate.
    + (* the position is in the tag *)
      destruct l' as [|d l'].
      * cbn [app] in E2. subst l. apply Ht.
      * apply Hm. destruct l as [|e l]; [congruence|].
        cbn [app strip_prefix].
        destruct (Ascii.eqb_spec c0 e) as [<-|]; [|reflexivity].
        exfalso. unfold begin_tag in E2.
        cbn [lit list_ascii_of_string app] in E2. inversion E2 as [[Ed E3]].
        assert (K : In c0 (lit "begin{" ++ name ++ lit "}")).
        { cbn [lit list_ascii_of_string app]. rewrite E3.
          apply in_or_app. right. now left. }
        apply in_app_or in K as [K|K].
        -- destruct Hc as [-> | ->]; cbn in K; intuition discriminate.
        -- apply in_app_or in K as [K|K].
           ++ destruct (plain_name name Hn) as (_ & _ & P).
              destruct (P _ K). destruct Hc; congruence.
           ++ destruct Hc as [-> | ->]; cbn in K; intuition discriminate.
Qed.

(** What an extraction pass leaves of fenced text without the prefix was
    in its subject. *)
Lemma pass_sourced (m : matcher) (k : kind) (content : list str -> str)
    (s : str) (prev : option ascii) (st : extraction) :
  productive m ->
  sourced s (fst (re_sub_from m (extract_with k content) prev 0 s st)).
Proof.
  intros Hm.
  assert (K : forall u,
             sourced (u ++ s)
               (u ++ fst (re_sub_from m (extract_with k content) prev 0 s st))).
  { intros u.
    apply (re_sub_rel_from extraction m (extract_with k content)
             (fun s _ out _ => sourced s out) Hm) with (n := length s);
      [| |apply le_n].
    - intros s' _ z _ _ H. exact H.
    - intros u' s' gs n prev' st0 r st1 out st2 M E IH z Fz Pz H.
      unfold extract_with in E. inversion E; subst.
      apply (fenced_apart z u' _ out) in H as [H|H]; auto.
      + now apply occurs_app_l.
      + apply occurs_app_r. rewrite <- (firstn_skipn n s').
        apply occurs_app_r. now apply IH.
      + now exists (length (math_blocks st0)), k. }
  apply (K []).
Qed.

Lemma clear_before_tag (pat x name y : str) :
  occurs pat x = false -> ~ In backslash (tl pat) ->
  clear_before pat x (begin_tag name ++ y).
Proof.
  intros H N. apply inside_None; [assumption|].
  intros c Hc. inversion Hc; subst. exact N.
Qed.

(** The four passes leave an unclosed tag with a plain name where it is,
    when nothing before it opens mathematics. *)
Lemma tag_survives_extraction (x name y : str) (st : extraction) :
  occurs (lit "\begin{") x = false ->
  occurs (lit "$") x = false ->
  forallb plain_char name = true ->
  occurs placeholder_prefix name = false ->
  occurs (end_tag name) y = false ->
  exists y',
    fst (extract_math (x ++ begin_tag name ++ y) st)
    = x ++ begin_tag name ++ y'.
Proof.
  intros Hb Hd Hn Hp Hy.
  destruct (plain_name name Hn) as (Hi & Hc & _).
  unfold extract_math, re_sub_st.
  change extract_align_env with (extract_with align align_content_of).
  change extract_other_env with (extract_with env (group 0)).
  change extract_display_math with (extract_with display (group 1)).
  change extract_inline_math with (extract_with inline (group 1)).
  (* the align pass *)
  rewrite (past_tag _ align_re _ begin_align);
    [|apply align_re_starts|exists backslash, (lit "begin{align}"); auto
     | |intros; now apply align_re_at_tag|assumption].
  2:{ apply (clear_before_longer (lit "\begin{") (lit "align}")).
      apply clear_before_tag; [assumption|].
      cbn. intuition discriminate. }
  pose proof (pass_sourced align_re align align_content_of y
                (last_seen None (x ++ begin_tag name)) st
                (encloses_productive _ _ align_encloses)) as S1.
  destruct (re_sub_from align_re _ _ 0 y st) as [y1 s1]. cbn [fst] in S1.
  assert (Hy1 : occurs (end_tag name) y1 = false).
  { destruct (occurs (end_tag name) y1) eqn:E; [|reflexivity].
    apply S1 in E; [congruence|apply end_tag_fenced|].
    now apply end_tag_prefix_free. }
  (* the environment pass *)
  rewrite (past_tag _ env_re _ (lit "\begin{"));
    [|apply env_re_starts|exists backslash, (lit "begin{"); auto
     | |intros; now apply env_re_at_tag|assumption].
  2:{ apply clear_before_tag; [assumption|]. cbn. intuition discriminate. }
  destruct (re_sub_from env_re _ _ 0 y1 s1) as [y2 s2].
  (* the display pass *)
  rewrite (past_tag _ display_re _ (lit "$$"));
    [|apply display_re_starts|exists "$", (lit "$"); auto
     | |intros; now apply display_re_starts|assumption].
  2:{ apply (clear_before_longer (lit "$") (lit "$")).
      apply clear_before_tag; [assumption|]. cbn. intuition discriminate. }
  destruct (re_sub_from display_re _ _ 0 y2 s2) as [y3 s3].
  (* the inline pass *)
  rewrite (past_tag _ inline_re _ (lit "$"));
    [|apply inline_re_starts|exists "$", []; auto
     | |intros; now apply inline_re_starts|assumption].
  2:{ apply clear_before_tag; [assumption|]. cbn. intuition discriminate. }
  destruct (re_sub_from inline_re _ _ 0 y3 s3) as [y4 s4].
  now exists y4.
Qed.

(** ** Text without the prefix *)

Lemma token_needs_prefix (i : nat) (k : kind) (t : str) :
  occurs placeholder_prefix t = false ->
  occurs (placeholder_format i k) t = false.
Proof.
  intros H. destruct (occurs (placeholder_format i k) t) eqn:E; [|reflexivity].
  apply occurs_true in E as (x & y & ->).
  rewrite token_parts, <- !app_assoc in H. now rewrite occurs_app in H.
Qed.

(* ================================================================== *)
(** * The claims *)

(** C1 (the code departs from the claim).  The extraction passes do run
    before any markdown rule, and a stored block never reaches the
    renderer.  But restitution replaces the tokens in the order of the
    list, once each: a token that a later pass took into the content of its
    own block is put back behind its own turn and stays in the output.  So
    an environment inside a display block is lost: for
    [$$ a * \begin{cases}x\end{cases} $$] the environment is stored as
    block 0, the display block with token 0 in it as block 1, and the output
    shows the token where the environment was; the same for an align
    environment inside [$$...$$] and for a display block inside [$...$].
    Where no block holds another block's token, and the input does not hold
    the text of a token, the body of every block is in the output in its
    delimiters, with its backslashes doubled, whatever markdown-significant
    characters it holds.  The passes work on the main body: the document is
    split at the References heading first, and a [$$] that the heading
    separates from its partner opens no block. *)
Theorem nested_math_not_restored :
  extract_math (lit "$$ a * \begin{cases}x\end{cases} $$") no_math
  = (placeholder_format 1 display,
     {| math_blocks :=
          [(env, lit "\begin{cases}x\end{cases}");
           (display, lit " a * MATH_PLACEHOLDER_0_TYPE_env ")];
        has_math := true |})
  /\ convert_markdown_to_html (lit "$$ a * \begin{cases}x\end{cases} $$")
     = Some (lit "<p>$$ a * MATH_PLACEHOLDER_0_TYPE_env $$</p>"
             ++ mathjax_script)
  /\ convert_markdown_to_html (lit "$$ \begin{align}x\end{align} $$")
     = Some (lit "<p>$$ MATH_PLACEHOLDER_0_TYPE_align $$</p>"
             ++ mathjax_script)
  /\ convert_markdown_to_html (lit "$x $$ a * b $$ y$")
     = Some (lit "<p>$x MATH_PLACEHOLDER_0_TYPE_display y$</p>"
             ++ mathjax_script)
  /\ convert_markdown_to_html (lit "\begin{cases}x\end{cases} and $$ a * b $$")
     = Some (lit "<p>$$\\begin{cases}x\\end{cases}$$ and $$ a * b $$</p>"
             ++ mathjax_script)
  /\ convert_markdown_to_html (lit "$$ a * b $$")
     = Some (lit "<p>$$ a * b $$</p>" ++ mathjax_script)
  /\ (split_references cut_example
      = Some (lit "$$ *a*" ++ [nl],
              Some (lit "# References" ++ nl :: lit "b $$"))
      /\ extract_math (lit "$$ *a*" ++ [nl]) no_math
         = (lit "$$ *a*" ++ [nl], no_math)
      /\ render_main (lit "$$ *a*" ++ [nl]) = lit "$$ <em>a</em>" ++ [nl])
  /\ (forall s main refs text st html,
        split_references s = Some (main, refs) ->
        extract_math main no_math = (text, st) ->
        convert_markdown_to_html s = Some html ->
        html = restore (math_blocks st)
                 (add_references refs (render_main text))
               ++ (if has_blocks (math_blocks st) then mathjax_script else [])
        /\ (occurs placeholder_prefix s = false ->
            prefix_free (math_blocks st) ->
            forall i k c,
              nth_error (math_blocks st) i = Some (k, c) ->
              count_at (placeholder_format i k) text = 1
              /\ occurs (replacement k c) html = true)).
Proof.
  do 6 (split; [vm_compute; reflexivity|]).
  split; [repeat split; vm_compute; reflexivity|].
  intros s main refs text st html Hs He Hc. split.
  - rewrite (convert_stages s main text refs st Hs He) in Hc.
    now inversion Hc.
  - intros H1 H2 i k c Hi.
    destruct (tokens_round_trip s main text html refs st Hs He Hc H1 H2)
      as [_ K].
    destruct (K i k c Hi) as (C & _ & _ & R). now split.
Qed.

Lemma nested_math_not_restored_witness :
  split_references mixed_example = Some (mixed_example, None)
  /\ extract_math mixed_example no_math
     = (mixed_example_text, mixed_example_blocks)
  /\ convert_markdown_to_html mixed_example = Some mixed_example_html
  /\ occurs placeholder_prefix mixed_example = false
  /\ prefix_free (math_blocks mixed_example_blocks)
  /\ nth_error (math_blocks mixed_example_blocks) 1
     = Some (display, lit " x * y ")
  /\ count_at (placeholder_format 1 display) mixed_example_text = 1
  /\ occurs (lit "$$ x * y $$") mixed_example_html = true.
Proof.
  assert (Hs : split_references mixed_example = Some (mixed_example, None))
    by (vm_compute; reflexivity).
  assert (He : extract_math mixed_example no_math
               = (mixed_example_text, mixed_example_blocks))
    by (vm_compute; reflexivity).
  assert (Hc : convert_markdown_to_html mixed_example
               = Some mixed_example_html)
    by (vm_compute; reflexivity).
  assert (H1 : occurs placeholder_prefix mixed_example = false)
    by (vm_compute; reflexivity).
  assert (H2 : prefix_free (math_blocks mixed_example_blocks))
    by (repeat constructor).
  repeat (split; [assumption|]). split; [reflexivity|].
  exact (proj2
           (proj2 (proj2 (proj2 (proj2 (proj2 (proj2 (proj2
              nested_math_not_restored))))))
              mixed_example mixed_example None mixed_example_text
              mixed_example_blocks mixed_example_html Hs He Hc)
           H1 H2 1 display (lit " x * y ") eq_refl).
Defined.

(** C2 (as amended).  A placeholder token is a function of the index and the
    kind alone; tokens of different index or kind are different, and none
    occurs inside another.  Each extraction callback takes as index the
    number of blocks stored so far and stores its block at that position.
    For an input that does not hold the prefix of the tokens, in which no
    stored block holds it (no pass took an earlier token into its own
    block): in the text the extraction hands on the prefix stands only at
    the head of the tokens of the stored blocks, and each of these tokens
    stands in it exactly once, also behind the parenthesis guard; the
    renderer and the guards leave it there and put no prefix in; restitution
    puts the block's re-wrapped content into the output, and the output holds
    no prefix, so no token. *)
Theorem placeholder_tokens_distinct :
  (forall i k j k',
      occurs (placeholder_format i k) (placeholder_format j k') = true ->
      i = j /\ k = k')
  /\ (forall gs st,
        (fst (extract_align_env gs st)
         = placeholder_format (length (math_blocks st)) align
         /\ exists c, math_blocks (snd (extract_align_env gs st))
                      = math_blocks st ++ [(align, c)])
        /\ (fst (extract_other_env gs st)
            = placeholder_format (length (math_blocks st)) env
            /\ math_blocks (snd (extract_other_env gs st))
               = math_blocks st ++ [(env, group 0 gs)])
        /\ (fst (extract_display_math gs st)
            = placeholder_format (length (math_blocks st)) display
            /\ math_blocks (snd (extract_display_math gs st))
               = math_blocks st ++ [(display, group 1 gs)])
        /\ (fst (extract_inline_math gs st)
            = placeholder_format (length (math_blocks st)) inline
            /\ math_blocks (snd (extract_inline_math gs st))
               = math_blocks st ++ [(inline, group 1 gs)]))
  /\ (forall s main refs text st html,
        split_references s = Some (main, refs) ->
        extract_math main no_math = (text, st) ->
        convert_markdown_to_html s = Some html ->
        occurs placeholder_prefix s = false ->
        prefix_free (math_blocks st) ->
        guarded (tokens_from 0 (math_blocks st)) text
        /\ guarded (tokens_from 0 (math_blocks st))
             (add_references refs (render_main text))
        /\ occurs placeholder_prefix html = false
        /\ forall i k c,
            nth_error (math_blocks st) i = Some (k, c) ->
            count_at (placeholder_format i k) text = 1
            /\ count_at (placeholder_format i k) (protect_parentheses text)
               = 1
            /\ occurs (placeholder_format i k) (render_main text) = true
            /\ occurs (replacement k c) html = true
            /\ occurs (placeholder_format i k) html = false).
Proof.
  split; [intros i k j k'; apply placeholder_inside|].
  split; [exact callbacks_index|].
  intros s main refs text st html Hs He Hc H1 H2.
  destruct (rendered_guarded s main text refs st Hs He H1 H2) as [[Hg _] Hr].
  destruct (tokens_round_trip s main text html refs st Hs He Hc H1 H2)
    as [Hp K].
  repeat (split; [assumption|]).
  intros i k c Hi. destruct (K i k c Hi) as (A & B & C & D).
  repeat (split; [assumption|]). now apply token_needs_prefix.
Qed.

Lemma placeholder_tokens_distinct_witness :
  split_references mixed_example = Some (mixed_example, None)
  /\ extract_math mixed_example no_math
     = (mixed_example_text, mixed_example_blocks)
  /\ convert_markdown_to_html mixed_example = Some mixed_example_html
  /\ occurs placeholder_prefix mixed_example = false
  /\ prefix_free (math_blocks mixed_example_blocks)
  /\ occurs placeholder_prefix mixed_example_html = false.
Proof.
  assert (Hs : split_references mixed_example = Some (mixed_example, None))
    by (vm_compute; reflexivity).
  assert (He : extract_math mixed_example no_math
               = (mixed_example_text, mixed_example_blocks))
    by (vm_compute; reflexivity).
  assert (Hc : convert_markdown_to_html mixed_example
               = Some mixed_example_html)
    by (vm_compute; reflexivity).
  assert (H1 : occurs placeholder_prefix mixed_example = false)
    by (vm_compute; reflexivity).
  assert (H2 : prefix_free (math_blocks mixed_example_blocks))
    by (repeat constructor).
  repeat (split; [assumption|]).
  exact (proj1 (proj2 (proj2 (proj2 (proj2 placeholder_tokens_distinct)
           mixed_example mixed_example None mixed_example_text
           mixed_example_blocks mixed_example_html Hs He Hc H1 H2)))).
Defined.

(** C2 as the spec states it fails.  Nothing keeps the text of a token out
    of the input.  In the first input the text of token 0 is in the input
    beside an inline expression, and token 0 is twice in the text handed to
    the renderer.  In the second the text of token 0 is the body of the
    second inline expression: it is stored as block 1 and put back by
    restitution behind the turn of block 0, so the output holds the text of
    token 0. *)
Lemma token_text_in_input_collides :
  ~ placeholders_invariant (lit "MATH_PLACEHOLDER_0_TYPE_inline is $x$")
  /\ ~ placeholders_invariant (lit "$x$ $MATH_PLACEHOLDER_0_TYPE_inline$").
Proof.
  split; intros H.
  - specialize
      (H (lit "MATH_PLACEHOLDER_0_TYPE_inline is $x$") None
         (lit "MATH_PLACEHOLDER_0_TYPE_inline is MATH_PLACEHOLDER_0_TYPE_inline")
         {| math_blocks := [(inline, lit "x")]; has_math := true |}
         (lit "<p>$x$ is $x$</p>" ++ mathjax_script)
         0 inline (lit "x")
         eq_refl eq_refl eq_refl eq_refl).
    destruct H as [H _]. vm_compute in H. discriminate.
  - specialize
      (H (lit "$x$ $MATH_PLACEHOLDER_0_TYPE_inline$") None
         (lit "MATH_PLACEHOLDER_0_TYPE_inline MATH_PLACEHOLDER_1_TYPE_inline")
         {| math_blocks :=
              [(inline, lit "x");
               (inline, lit "MATH_PLACEHOLDER_0_TYPE_inline")];
            has_math := true |}
         (lit "<p>$x$ $MATH_PLACEHOLDER_0_TYPE_inline$</p>" ++ mathjax_script)
         0 inline (lit "x")
         eq_refl eq_refl eq_refl eq_refl).
    destruct H as [_ H]. vm_compute in H. discriminate.
Qed.




(** C4 (the code departs from the claim).  In the whole conversion the
    parenthesis guard runs before the renderer and takes the [(url)] of a
    link away from the link pattern: [[text](url)] leaves the conversion
    with its brackets and a guarded parenthesis, without any anchor.  The
    renderer alone, given the same text, does produce the anchor. *)
Theorem link_lost_to_parenthesis_guard :
  convert_markdown_to_html (lit "[text](url)")
  = Some (lit "[text]<span class=" ++ dq :: lit "notmath" ++ dq
          :: lit ">(url)</span>")
  /\ process_regular_markdown (lit "[text](url)")
     = lit "<a href=" ++ dq :: lit "url" ++ dq :: lit ">text</a>".
Proof.
  vm_compute. split; reflexivity.
Qed.

(** C5 (the code departs from the claim).  A blockquote line never closes
    the list: it leaves the list flag as it was and emits no closing tag of
    the list, so one met while the list wrapper is open leaves both wrappers
    open.  After ["- a"] and ["> b"] both flags are set, and the closing tags
    come out crossed.  The other direction is as claimed: any other line met
    while the blockquote is open closes the blockquote first. *)
Theorem list_left_open_by_blockquote :
  (forall st line,
      startswith (lit ">") (strip line) = true ->
      in_list (scan_line st line) = in_list st
      /\ in_blockquote (scan_line st line) = true
      /\ exists new,
          result (scan_line st line) = result st ++ new
          /\ ~ In ListClose new)
  /\ (forall st line,
        startswith (lit ">") (strip line) = false ->
        in_blockquote (scan_line st line) = false
        /\ (in_blockquote st = true ->
            exists rest,
              result (scan_line st line)
              = result st ++ BlockquoteClose :: rest))
  /\ (let st := scan_lines [lit "- a"; lit "> b"] in
      in_list st = true
      /\ in_blockquote st = true
      /\ result st
         = [ListOpen; ListItem (lit "a"); BlockquoteOpen; QuoteLine (lit "b")])
  /\ process_regular_markdown (lit "- a" ++ nl :: lit "> b")
     = lit "<ul>" ++ nl :: lit "<li>a</li>" ++ nl :: lit "<blockquote>" ++ nl
       :: lit "b" ++ nl :: lit "</ul>" ++ nl :: lit "</blockquote>"
  /\ result (scan_lines [lit "> b"; lit "- a"])
     = [BlockquoteOpen; QuoteLine (lit "b"); BlockquoteClose; ListOpen;
        ListItem (lit "a")].
Proof.
  split; [|split].
  - intros [il ib res] line H. unfold scan_line. rewrite H.
    destruct ib;
      cbn [append set_in_blockquote set_in_list in_blockquote in_list result
             negb];
      repeat split; rewrite <- ?app_assoc; eexists; split;
      try reflexivity; simpl; intuition discriminate.
  - intros [il ib res] line H. unfold scan_line. rewrite H.
    destruct (startswith (lit "- ") (strip line)), ib, il;
      cbn [append set_in_blockquote set_in_list in_blockquote in_list result
             negb];
      (split; [reflexivity|]); intros E; try discriminate;
      rewrite <- ?app_assoc; eexists; reflexivity.
  - vm_compute. repeat split; reflexivity.
Qed.

Lemma list_left_open_by_blockquote_witness :
  let st := scan_lines [lit "- a"] in
  startswith (lit ">") (strip (lit "> b")) = true
  /\ in_list st = true
  /\ in_list (scan_line st (lit "> b")) = true
  /\ in_blockquote (scan_line st (lit "> b")) = true.
Proof.
  split; [reflexivity|]. split; [reflexivity|].
  destruct (proj1 list_left_open_by_blockquote (scan_lines [lit "- a"])
              (lit "> b") eq_refl) as (H1 & H2 & _).
  split; [exact H1 | exact H2].
Defined.

(** C6.  Restitution goes through the block list once, in order, with one
    replacement for each block: in place of the block's token it puts the
    stored content with every backslash doubled, wrapped in [$$...$$] for
    the align, environment and display kinds and in [$...$] for the inline
    kind.  The align callback appends to the block list the whole match with
    [\begin{align}] and [\end{align}] rewritten to [align*]; so an align
    environment, whatever its body holds besides these two tags, is stored
    as [\begin{align*}...\end{align*}] and comes back as
    [$$\\begin{align*}...\\end{align*}$$].  In text that holds the prefix
    only in the tokens of the blocks, restitution leaves no token and puts
    every block where its token stood. *)
Theorem restitution_rewraps_by_kind :
  (forall content,
      replacement align content
      = lit "$$" ++ flat_map escape_char content ++ lit "$$"
      /\ replacement env content
         = lit "$$" ++ flat_map escape_char content ++ lit "$$"
      /\ replacement display content
         = lit "$$" ++ flat_map escape_char content ++ lit "$$"
      /\ replacement inline content
         = lit "$" ++ flat_map escape_char content ++ lit "$")
  /\ (forall blocks text,
        restore blocks text
        = fold_left
            (fun t ib =>
               str_replace (placeholder_format (fst ib) (fst (snd ib)))
                 (replacement (fst (snd ib)) (snd (snd ib))) t)
            (combine (seq 0 (length blocks)) blocks) text)
  /\ (forall gs st,
        extract_align_env gs st
        = (placeholder_format (length (math_blocks st)) align,
           {| math_blocks :=
                math_blocks st
                ++ [(align,
                     str_replace (lit "\end{align}") (lit "\end{align*}")
                       (str_replace (lit "\begin{align}")
                          (lit "\begin{align*}") (group 0 gs)))];
              has_math := true |}))
  /\ (forall b,
        occurs (lit "\begin{align}") b = false ->
        occurs (lit "\end{align}") b = false ->
        extract_math (lit "\begin{align}" ++ b ++ lit "\end{align}") no_math
        = (placeholder_format 0 align,
           {| math_blocks :=
                [(align, lit "\begin{align*}" ++ b ++ lit "\end{align*}")];
              has_math := true |})
        /\ forall x y,
            occurs placeholder_prefix x = false ->
            occurs placeholder_prefix y = false ->
            restore
              [(align, lit "\begin{align*}" ++ b ++ lit "\end{align*}")]
              (x ++ placeholder_format 0 align ++ y)
            = x ++ (lit "$$\\begin{align*}" ++ flat_map escape_char b
                    ++ lit "\\end{align*}$$") ++ y)
  /\ (forall blocks text,
        prefix_free blocks ->
        guarded (tokens_from 0 blocks) text ->
        occurs placeholder_prefix (restore blocks text) = false
        /\ forall i k c,
            nth_error blocks i = Some (k, c) ->
            occurs (placeholder_format i k) text = true ->
            occurs (replacement k c) (restore blocks text) = true).
Proof.
  split; [exact replacement_by_kind|].
  split; [intros; apply restore_enumerate|].
  split; [reflexivity|].
  split.
  - intros b Hb He. split; [now apply extract_align_whole|].
    intros x y Hx Hy.
    rewrite (restore_one align _ x y Hx Hy).
    change (lit "\begin{align*}") with begin_align_star.
    change (lit "\end{align*}") with end_align_star.
    now rewrite replacement_align_star.
  - intros blocks text Hp Hg. split; [now apply restore_clears|].
    intros i k c Hi Ht. now apply (restore_places blocks Hp 0 i).
Qed.

Lemma restitution_rewraps_by_kind_witness :
  occurs (lit "\begin{align}") (lit "x &= \begin{cases}a \\ b\end{cases}")
  = false
  /\ occurs (lit "\end{align}") (lit "x &= \begin{cases}a \\ b\end{cases}")
     = false
  /\ extract_math
       (lit "\begin{align}x &= \begin{cases}a \\ b\end{cases}\end{align}")
       no_math
     = (lit "MATH_PLACEHOLDER_0_TYPE_align",
        {| math_blocks :=
             [(align,
               lit "\begin{align*}x &= \begin{cases}a \\ b\end{cases}\end{align*}")];
           has_math := true |})
  /\ restore
       [(align,
         lit "\begin{align*}x &= \begin{cases}a \\ b\end{cases}\end{align*}")]
       (lit "<p>MATH_PLACEHOLDER_0_TYPE_align</p>")
     = lit "<p>$$\\begin{align*}x &= \\begin{cases}a \\\\ b\\end{cases}\\end{align*}$$</p>".
Proof.
  split; [reflexivity|]. split; [reflexivity|].
  destruct (proj1 (proj2 (proj2 (proj2 restitution_rewraps_by_kind)))
              (lit "x &= \begin{cases}a \\ b\end{cases}") eq_refl eq_refl)
    as [E R].
  split; [exact E|].
  exact (R (lit "<p>") (lit "</p>") eq_refl eq_refl).
Defined.





(** C9 (as amended).  The conversion returns a string for every input: the
    only step that could raise, the indexing of the parts of the References
    split, always finds its parts.  An opening [\begin{name}] that no
    [\end{name}] follows is matched by none of the four extraction patterns
    at its place.  Wherever an opening tag stands in the text the extraction
    hands on, with a name that holds no character a guard or a markdown rule
    reacts to and not the prefix of the tokens, it stands in the output
    exactly as it was written, whatever else the document holds: headings,
    mathematics, other tags, a References section.  It does reach that text
    when nothing before it in the main body opens mathematics and its name
    holds no dollar sign, backslash or closing brace either. *)
Theorem malformed_latex_is_literal :
  (forall s, exists html, convert_markdown_to_html s = Some html)
  /\ (forall prev name rest,
        forallb (neqb "}") name = true ->
        occurs (end_tag name) rest = false ->
        align_re prev (begin_tag name ++ rest) = None
        /\ env_re prev (begin_tag name ++ rest) = None
        /\ display_re prev (begin_tag name ++ rest) = None
        /\ inline_re prev (begin_tag name ++ rest) = None)
  /\ (forall name text blocks refs,
        forallb inert name = true ->
        occurs placeholder_prefix name = false ->
        occurs (begin_tag name) text = true ->
        occurs (begin_tag name)
          (restore blocks (add_references refs (render_main text))) = true)
  /\ (forall s main refs text st html name,
        split_references s = Some (main, refs) ->
        extract_math main no_math = (text, st) ->
        convert_markdown_to_html s = Some html ->
        forallb inert name = true ->
        occurs placeholder_prefix name = false ->
        occurs (begin_tag name) text = true ->
        occurs (begin_tag name) html = true)
  /\ (forall s main refs html x name y,
        split_references s = Some (main, refs) ->
        main = x ++ begin_tag name ++ y ->
        convert_markdown_to_html s = Some html ->
        occurs (lit "\begin{") x = false ->
        occurs (lit "$") x = false ->
        forallb plain_char name = true ->
        occurs placeholder_prefix name = false ->
        occurs (end_tag name) y = false ->
        (exists y',
            fst (extract_math main no_math) = x ++ begin_tag name ++ y')
        /\ occurs (begin_tag name) html = true).
Proof.
  split; [exact convert_total|].
  split.
  { intros prev name rest Hn Hr.
    split; [now apply align_re_at_tag|]. split; [now apply env_re_at_tag|].
    split; [apply display_re_starts|apply inline_re_starts]; reflexivity. }
  split; [exact tag_kept_later|].
  assert (K : forall s main refs text st html name,
             split_references s = Some (main, refs) ->
             extract_math main no_math = (text, st) ->
             convert_markdown_to_html s = Some html ->
             forallb inert name = true ->
             occurs placeholder_prefix name = false ->
             occurs (begin_tag name) text = true ->
             occurs (begin_tag name) html = true).
  { intros s main refs text st html name Hs He Hc Hi Hp Ht.
    rewrite (convert_stages s main text refs st Hs He) in Hc.
    inversion Hc. apply occurs_app_l. now apply tag_kept_later. }
  split; [exact K|].
  intros s main refs html x name y Hs Hm Hc Hb Hd Hn Hp Hy.
  destruct (tag_survives_extraction x name y no_math Hb Hd Hn Hp Hy)
    as (y' & E).
  rewrite <- Hm in E. split; [eauto|].
  destruct (extract_math main no_math) as [text st] eqn:He.
  cbn [fst] in E.
  apply (K s main refs text st html name Hs He Hc);
    [apply (plain_name name Hn)|assumption|].
  rewrite E. apply occurs_app.
Qed.

Lemma malformed_latex_is_literal_witness :
  split_references unclosed_example = Some (unclosed_example, None)
  /\ unclosed_example
     = (lit "# T" ++ [nl]) ++ begin_tag (lit "foo")
       ++ lit " x $y$ and $$z$$ \end{bar}"
  /\ convert_markdown_to_html unclosed_example
     = Some (lit "<h1>T</h1>" ++ nl
             :: lit "\begin{foo} x $y$ and $$z$$ \end{bar}" ++ mathjax_script)
  /\ occurs (lit "\begin{") (lit "# T" ++ [nl]) = false
  /\ occurs (lit "$") (lit "# T" ++ [nl]) = false
  /\ forallb plain_char (lit "foo") = true
  /\ occurs placeholder_prefix (lit "foo") = false
  /\ occurs (end_tag (lit "foo")) (lit " x $y$ and $$z$$ \end{bar}") = false
  /\ occurs (lit "\begin{foo}")
       (lit "<h1>T</h1>" ++ nl
        :: lit "\begin{foo} x $y$ and $$z$$ \end{bar}" ++ mathjax_script)
     = true.
Proof.
  assert (C : convert_markdown_to_html unclosed_example
              = Some (lit "<h1>T</h1>" ++ nl
                      :: lit "\begin{foo} x $y$ and $$z$$ \end{bar}"
                      ++ mathjax_script))
    by (vm_compute; reflexivity).
  split; [reflexivity|]. split; [reflexivity|]. split; [exact C|].
  do 5 (split; [reflexivity|]).
  exact (proj2
           (proj2 (proj2 (proj2 (proj2 malformed_latex_is_literal)))
              unclosed_example unclosed_example None _
              (lit "# T" ++ [nl]) (lit "foo")
              (lit " x $y$ and $$z$$ \end{bar}")
              eq_refl eq_refl C eq_refl eq_refl eq_refl eq_refl eq_refl)).
Defined.

(** C9 as the spec states it fails.  No phase protects unmatched LaTeX: the
    unclosed [\begin{align*}] is matched by no pass, yet the italic rule of
    the renderer takes its star; the tag whose name is the text of token 0
    loses the name to restitution; neither tag is in the output.  And an
    unclosed tag between two dollar signs is taken by the inline pass with
    the expression around it. *)
Lemma unmatched_begin_altered :
  ~ unmatched_begin_literal (lit "\begin{align*} a * b")
  /\ ~ unmatched_begin_literal
         (lit "\begin{MATH_PLACEHOLDER_0_TYPE_inline} $x$")
  /\ ~ unmatched_begin_literal (lit "$a \begin{foo} b$").
Proof.
  split; [|split]; intros H.
  - specialize (H (lit "align*") (lit "\begin{align*} a * b") None
                  (lit "<p>\begin{align<em>} a </em> b</p>")
                  eq_refl eq_refl eq_refl eq_refl).
    destruct H as [_ H]. vm_compute in H. discriminate.
  - specialize (H (lit "MATH_PLACEHOLDER_0_TYPE_inline")
                  (lit "\begin{MATH_PLACEHOLDER_0_TYPE_inline} $x$") None
                  (lit "<p>\begin{$x$} $x$</p>" ++ mathjax_script)
                  eq_refl eq_refl eq_refl eq_refl).
    destruct H as [_ H]. vm_compute in H. discriminate.
  - specialize (H (lit "foo") (lit "$a \begin{foo} b$") None
                  (lit "<p>$a \\begin{foo} b$</p>" ++ mathjax_script)
                  eq_refl eq_refl eq_refl eq_refl).
    destruct H as [H _]. vm_compute in H. discriminate.
Qed.

(** C10.  A line whose trimmed form starts with [>] contributes, inside the
    open blockquote, the trimmed line without its whole leading run of [>]
    and trimmed again: however many markers the run has, none is left in
    front, so [>> deep] gives [deep].  In the sequence the renderer emits
    for any text, a blockquote is opened only when none is open and closed
    only when one is open, and none is open at the end: blockquotes are
    never nested. *)
Theorem blockquote_markers_stripped :
  (forall st line,
      startswith (lit ">") (strip line) = true ->
      in_blockquote (scan_line st line) = true
      /\ exists before,
          result (scan_line st line)
          = before ++ [QuoteLine (strip (lstrip_gt (strip line)))])
  /\ (forall line n t,
        strip line = repeat ">"%char n ++ t ->
        startswith (lit ">") t = false ->
        quote_content line = strip t)
  /\ quote_content (lit ">> deep") = lit "deep"
  /\ (forall text, blockquote_nesting (render_blocks text) = Some false)
  /\ process_regular_markdown (lit "> a" ++ nl :: lit ">> deep")
     = lit "<blockquote>" ++ nl :: lit "a" ++ nl :: lit "deep" ++ nl
       :: lit "</blockquote>".
Proof.
  split; [|split; [|split; [|split]]].
  - intros st line H. unfold scan_line. rewrite H.
    destruct (in_blockquote st) eqn:E; simpl; rewrite ?E; split; eauto.
  - intros line n t E H. unfold quote_content.
    now rewrite E, lstrip_gt_markers.
  - vm_compute. reflexivity.
  - exact render_blocks_flat.
  - vm_compute. reflexivity.
Qed.

Lemma blockquote_markers_stripped_witness :
  strip (lit "  >>> deep ") = repeat ">"%char 3 ++ lit " deep"
  /\ startswith (lit ">") (lit " deep") = false
  /\ quote_content (lit "  >>> deep ") = lit "deep".
Proof.
  split; [reflexivity|]. split; [reflexivity|].
  exact (proj1 (proj2 blockquote_markers_stripped)
           (lit "  >>> deep ") 3 (lit " deep") eq_refl eq_refl).
Defined.
